(** * Thread grouping and topic classification of the sparse mailing-list tools

    A shallow embedding of [build_topics.py], [analyze_emails.py] and
    [organize_by_year.py], and the properties of the thread-grouping and
    classification pipeline proved over it.

    Python strings are modelled as lists of characters, a character being a
    code point below 256 (Rocq's [ascii]): on this range [str.lower],
    [str.isspace], the regular expression class [\s] and the UTF-8 encoding
    are written out in full below. The regular expressions of the scripts
    are embedded one by one as matchers, [hashlib.md5] is the algorithm of
    RFC 1321, a [dict] is an association list in insertion order and a [set]
    a [gset]. A call that may raise returns an [outcome]. Two things are taken
    as given: what the [email] package reads from a file (the headers and the
    body text), and [datetime.strptime], a parameter of the functions that
    parse a date. Where a list is sorted on keys that cannot all be
    compared, the sort is modelled by what any comparison sort does with
    them: it raises [TypeError] on a list of two elements or more with a
    key that is [None], and on a list whose keys are [datetime] values some
    with and some without an offset. *)

From Stdlib Require Import List Ascii String ZArith NArith Lia Bool Arith Sorted.
From stdpp Require Import gmap strings pretty.

Local Open Scope nat_scope.

(** ** Strings *)

Abbreviation str := (list ascii).

Definition lit (s : string) : str := list_ascii_of_string s.

Notation "'$' s" := (lit s%string) (at level 1, s at level 0, format "'$' s").

Module Str.

Definition code (c : ascii) : N := N_of_ascii c.

(** [str.isspace] on one character, which is also the class [\s] of [re]
    for [str] patterns: U+0009..U+000D, U+001C..U+0020, U+0085, U+00A0. *)
Definition is_space (c : ascii) : bool :=
  let n := code c in
  ((9 <=? n) && (n <=? 13) || (28 <=? n) && (n <=? 32)
   || (n =? 133) || (n =? 160))%N.

(** [str.lower] on one character: A-Z, and U+00C0..U+00DE but U+00D7. *)
Definition lower_char (c : ascii) : ascii :=
  let n := code c in
  if ((65 <=? n) && (n <=? 90)
      || (192 <=? n) && (n <=? 222) && negb (n =? 215))%N
  then ascii_of_N (n + 32) else c.

Definition lower (s : str) : str := map lower_char s.

(** [s.startswith(p)] *)
Fixpoint startswith (p s : str) : bool :=
  match p, s with
  | [], _ => true
  | _ :: _, [] => false
  | a :: p', b :: s' => Ascii.eqb a b && startswith p' s'
  end.

(** [p in s] for strings: [p] occurs as a contiguous block of [s]. *)
Fixpoint contains (p s : str) : bool :=
  startswith p s ||
  match s with
  | [] => false
  | _ :: s' => contains p s'
  end.

(** Number of whitespace characters [s] begins with. *)
Fixpoint ws_run (s : str) : nat :=
  match s with
  | c :: s' => if is_space c then S (ws_run s') else 0
  | [] => 0
  end.

(** [s.lstrip()], [s.rstrip()] and [s.strip()] with no argument. *)
Definition lstrip (s : str) : str := skipn (ws_run s) s.

Definition rstrip (s : str) : str := rev (lstrip (rev s)).

Definition strip (s : str) : str := rstrip (lstrip s).

(** [s[:n]] for a non-negative [n]. *)
Definition upto (n : nat) (s : str) : str := firstn n s.

(** [s.find(c)] for a single character, [None] for -1. *)
Fixpoint index_of (c : ascii) (s : str) : option nat :=
  match s with
  | [] => None
  | a :: s' => if Ascii.eqb a c then Some 0 else S <$> index_of c s'
  end.

(** The longest prefix of characters that satisfy [f], and the rest. *)
Fixpoint span (f : ascii -> bool) (s : str) : str * str :=
  match s with
  | c :: s' =>
      if f c then let '(run, rest) := span f s' in (c :: run, rest)
      else ([], s)
  | [] => ([], [])
  end.

(** [s.split(c)[0]] for a single character. *)
Definition before (c : ascii) (s : str) : str :=
  fst (span (fun a => negb (Ascii.eqb a c)) s).

(** [s == '' or s.isspace()], that is [s.strip() == '']. *)
Definition is_blank (s : str) : bool := forallb is_space s.

End Str.

(** ** Regular expressions of the sources

    Each pattern is embedded as a matcher: applied to the text from some
    position on, it gives the length of the match [re] finds there (the
    first one in the engine's backtracking order) together with the expansion
    of the replacement, or [None] when the pattern does not match at that
    position. None of the patterns substituted below can match the empty
    string or looks behind the position. *)

Module Re.

Definition matcher := str -> option (nat * str).

(** [re.sub(pattern, repl, s)]: the text is scanned from the left; where the
    pattern matches, the match is replaced and the scan resumes after it;
    elsewhere the character is kept. [skip] counts the characters of the
    current match still to be dropped. *)
Fixpoint sub_from (m : matcher) (skip : nat) (s : str) : str :=
  match s with
  | [] => []
  | c :: s' =>
      match skip with
      | S k => sub_from m k s'
      | O =>
          match m s with
          | Some (n, repl) => repl ++ sub_from m (Nat.pred n) s'
          | None => c :: sub_from m 0 s'
          end
      end
  end.

Definition sub (m : matcher) (s : str) : str := sub_from m 0 s.

(** One [Re:] under [re.IGNORECASE]: only the ASCII letters fold to [r]
    and [e]. *)
Definition is_re (r e c : ascii) : bool :=
  (Ascii.eqb r "R" || Ascii.eqb r "r")
  && (Ascii.eqb e "E" || Ascii.eqb e "e")
  && Ascii.eqb c ":".

(** What is left of the text following one [Re:] once the greedy "\s*" and
    every further repetition of the group ([Re:] and its "\s*") have been
    consumed. *)
Fixpoint reply_rest (s : str) : str :=
  match s with
  | [] => []
  | c :: s' =>
      if Str.is_space c then reply_rest s'
      else
        match s' with
        | e :: col :: rest => if is_re c e col then reply_rest rest else s
        | _ => s
        end
  end.

(** The first substitution of [_normalize_subject]: one or more repetitions
    of the group ([Re:] and "\s*"), anchored by "^", under [re.IGNORECASE],
    replaced by the empty string. The anchor holds at the start of the text
    only, so at most one match is removed. *)
Definition sub_reply (s : str) : str :=
  match s with
  | r :: e :: c :: rest => if is_re r e c then reply_rest rest else s
  | _ => s
  end.

(** "\[TAG[^\]]*\]\s*" with [open] the text "[TAG": the class runs to the
    first closing bracket, which must exist, and the whitespace behind it is
    taken whole. *)
Definition bracket_tag (open : str) : matcher := fun s =>
  if Str.startswith open s then
    let r := skipn (length open) s in
    match Str.index_of "]" r with
    | Some i => Some (length open + S i + Str.ws_run (skipn (S i) r), [])
    | None => None
    end
  else None.

(** "\s+", replaced by one space. *)
Definition ws_plus : matcher := fun s =>
  match Str.ws_run s with
  | O => None
  | n => Some (n, $" ")
  end.

(** "\s*\([^)]*\)\s*": a comment in parentheses with the whitespace around
    it; the class runs to the first closing parenthesis. The boolean tells
    whether the pattern ends with "$", in which case only whitespace may
    follow to the end of the text. *)
Definition paren_comment (at_end : bool) : matcher := fun s =>
  let w := Str.ws_run s in
  match skipn w s with
  | "("%char :: r =>
      match Str.index_of ")" r with
      | Some i =>
          let after := skipn (S i) r in
          let w' := Str.ws_run after in
          if at_end && negb (w' =? length after) then None
          else Some (w + S (S i) + w', [])
      | None => None
      end
  | _ => None
  end.

(** "=\?[^?]+\?[^?]+\?([^?]+)\?=", replaced by its group: an encoded word
    of a header, of which the text is kept. *)
Definition encoded_word : matcher := fun s =>
  let field (r : str) : option (str * str) :=
    match Str.span (fun c => negb (Ascii.eqb c "?")) r with
    | ((_ :: _) as f, "?"%char :: rest) => Some (f, rest)
    | _ => None
    end in
  match s with
  | "="%char :: "?"%char :: r =>
      match field r with
      | Some (charset, r1) =>
          match field r1 with
          | Some (encoding, r2) =>
              match field r2 with
              | Some (text, "="%char :: _) =>
                  Some (length charset + length encoding + length text + 6,
                        text)
              | _ => None
              end
          | None => None
          end
      | None => None
      end
  | _ => None
  end.

(** The pattern of the author, an optional quote, a name without quote or
    angle bracket, an optional quote, whitespace and an address in angle
    brackets, at the start of the text: its two groups. The name is the
    whole run of characters other than quote and angle bracket: a shorter
    name would have to be followed by whitespace up to the same bracket. *)
Definition author_here (s : str) : option (str * str) :=
  let s1 := match s with
            | "034"%char :: r => r
            | _ => s
            end in
  match Str.span (fun c => negb (Ascii.eqb c "034" || Ascii.eqb c "<")) s1 with
  | ((_ :: _) as name, rest) =>
      let rest := match rest with
                  | "034"%char :: r => Str.lstrip r
                  | _ => rest
                  end in
      match rest with
      | "<"%char :: r =>
          match Str.span (fun c => negb (Ascii.eqb c ">")) r with
          | ((_ :: _) as addr, ">"%char :: _) => Some (name, addr)
          | _ => None
          end
      | _ => None
      end
  | _ => None
  end.

(** [re.search] of that pattern: the groups of the leftmost match. *)
Fixpoint search_author (s : str) : option (str * str) :=
  match author_here s with
  | Some g => Some g
  | None =>
      match s with
      | [] => None
      | _ :: s' => search_author s'
      end
  end.

(** "[.!?]\s+": a sentence end. *)
Definition sentence_end : matcher := fun s =>
  match s with
  | c :: s' =>
      if Ascii.eqb c "." || Ascii.eqb c "!" || Ascii.eqb c "?" then
        match Str.ws_run s' with
        | O => None
        | n => Some (S n, [])
        end
      else None
  | [] => None
  end.

(** [re.split(pattern, s)]: the pieces of the text between the matches;
    [piece] is the piece being read, last character first. *)
Fixpoint split_from (m : matcher) (skip : nat) (piece : str) (s : str)
  : list str :=
  match s with
  | [] => [rev piece]
  | c :: s' =>
      match skip with
      | S k => split_from m k piece s'
      | O =>
          match m s with
          | Some (n, _) => rev piece :: split_from m (Nat.pred n) [] s'
          | None => split_from m 0 (c :: piece) s'
          end
      end
  end.

Definition split (m : matcher) (s : str) : list str := split_from m 0 [] s.

End Re.

(** ** [str.encode()] and [hashlib.md5]

    The thread key is the MD5 digest (RFC 1321) of the UTF-8 encoding of a
    string, in hexadecimal. Bytes and 32-bit words are numbers in [N]. *)

Module MD5.

(** UTF-8 of one code point below 256: one byte below 128, two above. *)
Definition utf8_char (c : ascii) : list N :=
  let n := Str.code c in
  if (n <? 128)%N then [n]
  else [(192 + N.shiftr n 6)%N; (128 + N.land n 63)%N].

Definition encode (s : str) : list N := flat_map utf8_char s.

Definition w32 (x : N) : N := N.land x 0xFFFFFFFF.

Definition add32 (x y : N) : N := w32 (x + y).

Definition not32 (x : N) : N := N.lxor (w32 x) 0xFFFFFFFF.

Definition rotl (x c : N) : N :=
  w32 (N.lor (N.shiftl x c) (N.shiftr (w32 x) (32 - c))).

Definition shifts : list N :=
  [ 7; 12; 17; 22; 7; 12; 17; 22; 7; 12; 17; 22; 7; 12; 17; 22;
    5; 9; 14; 20; 5; 9; 14; 20; 5; 9; 14; 20; 5; 9; 14; 20;
    4; 11; 16; 23; 4; 11; 16; 23; 4; 11; 16; 23; 4; 11; 16; 23;
    6; 10; 15; 21; 6; 10; 15; 21; 6; 10; 15; 21; 6; 10; 15; 21 ]%N.

(** The integer parts of [2^32 * abs (sin (i + 1))]. *)
Definition sines : list N :=
  [ 0xd76aa478; 0xe8c7b756; 0x242070db; 0xc1bdceee;
    0xf57c0faf; 0x4787c62a; 0xa8304613; 0xfd469501;
    0x698098d8; 0x8b44f7af; 0xffff5bb1; 0x895cd7be;
    0x6b901122; 0xfd987193; 0xa679438e; 0x49b40821;
    0xf61e2562; 0xc040b340; 0x265e5a51; 0xe9b6c7aa;
    0xd62f105d; 0x02441453; 0xd8a1e681; 0xe7d3fbc8;
    0x21e1cde6; 0xc33707d6; 0xf4d50d87; 0x455a14ed;
    0xa9e3e905; 0xfcefa3f8; 0x676f02d9; 0x8d2a4c8a;
    0xfffa3942; 0x8771f681; 0x6d9d6122; 0xfde5380c;
    0xa4beea44; 0x4bdecfa9; 0xf6bb4b60; 0xbebfbc70;
    0x289b7ec6; 0xeaa127fa; 0xd4ef3085; 0x04881d05;
    0xd9d4d039; 0xe6db99e5; 0x1fa27cf8; 0xc4ac5665;
    0xf4292244; 0x432aff97; 0xab9423a7; 0xfc93a039;
    0x655b59c3; 0x8f0ccc92; 0xffeff47d; 0x85845dd1;
    0x6fa87e4f; 0xfe2ce6e0; 0xa3014314; 0x4e0811a1;
    0xf7537e82; 0xbd3af235; 0x2ad7d2bb; 0xeb86d391 ]%N.

Record state := State { sa : N; sb : N; sc : N; sd : N }.

Definition init : state :=
  State 0x67452301 0xefcdab89 0x98badcfe 0x10325476.

(** One of the 64 operations on the block with words [m]. *)
Definition operation (m : list N) (st : state) (i : nat) : state :=
  let '(State a b c d) := st in
  let '(f, g) :=
    if i <? 16 then (N.lor (N.land b c) (N.land (not32 b) d), i)
    else if i <? 32 then
      (N.lor (N.land d b) (N.land (not32 d) c), (5 * i + 1) mod 16)
    else if i <? 48 then (N.lxor b (N.lxor c d), (3 * i + 5) mod 16)
    else (N.lxor c (N.lor b (not32 d)), (7 * i) mod 16) in
  let f := add32 (add32 (add32 f a) (nth i sines 0%N)) (nth g m 0%N) in
  State d (add32 b (rotl f (nth i shifts 0%N))) b c.

(** The sixteen little-endian words of a block. *)
Fixpoint words (block : list N) : list N :=
  match block with
  | b0 :: b1 :: b2 :: b3 :: rest =>
      (b0 + N.shiftl b1 8 + N.shiftl b2 16 + N.shiftl b3 24)%N :: words rest
  | _ => []
  end.

Definition compress (st : state) (block : list N) : state :=
  let '(State a b c d) := fold_left (operation (words block)) (seq 0 64) st in
  State (add32 (sa st) a) (add32 (sb st) b) (add32 (sc st) c)
        (add32 (sd st) d).

(** [n] as [k] little-endian bytes. *)
Fixpoint le_bytes (k : nat) (n : N) : list N :=
  match k with
  | O => []
  | S k' => N.land n 255 :: le_bytes k' (N.shiftr n 8)
  end.

(** The message followed by the byte 0x80, zero bytes up to 56 modulo 64 and
    the length in bits on eight bytes. *)
Definition pad (msg : list N) : list N :=
  let len := length msg in
  msg ++ [128%N] ++ repeat 0%N ((119 - len mod 64) mod 64)
      ++ le_bytes 8 (N.of_nat (8 * len)).

(** The blocks of 64 bytes of a padded message: [cur] holds the bytes of the
    block being filled, last first, and [k] how many it still lacks but
    one. *)
Fixpoint blocks (k : nat) (cur : list N) (l : list N) : list (list N) :=
  match l with
  | [] => []
  | b :: l' =>
      match k with
      | O => rev (b :: cur) :: blocks 63 [] l'
      | S k' => blocks k' (b :: cur) l'
      end
  end.

Definition digest (msg : list N) : list N :=
  let '(State a b c d) := fold_left compress (blocks 63 [] (pad msg)) init in
  le_bytes 4 a ++ le_bytes 4 b ++ le_bytes 4 c ++ le_bytes 4 d.

Definition hex_digit (n : N) : ascii :=
  nth (N.to_nat n) $"0123456789abcdef" "0"%char.

Definition hex_byte (b : N) : str :=
  [hex_digit (N.shiftr b 4); hex_digit (N.land b 15)].

(** [hashlib.md5(data).hexdigest()] *)
Definition hexdigest (msg : list N) : str := flat_map hex_byte (digest msg).

End MD5.

(** ** Python values shared by the scripts *)

Inductive exception := TypeError | ValueError.

(** The result of a computation that may raise. *)
Inductive outcome (A : Type) :=
| Returns (a : A)
| Raises (e : exception).
Arguments Returns {A} a.
Arguments Raises {A} e.

#[global] Instance outcome_ret : MRet outcome := fun A a => Returns a.

#[global] Instance outcome_bind : MBind outcome := fun A B f x =>
  match x with
  | Returns a => f a
  | Raises e => Raises e
  end.

(** A loop that builds a list and stops at the first exception. *)
Fixpoint for_each {A B} (f : A -> outcome B) (l : list A) : outcome (list B) :=
  match l with
  | [] => Returns []
  | a :: l' => b ← f a; bs ← for_each f l'; Returns (b :: bs)
  end.

(** A [dict]: keys in insertion order, each at most once. *)
Module Dict.
Section Dict.
Context {K V : Type} `{EqDecision K}.

Definition t := list (K * V).

Fixpoint get (k : K) (d : t) : option V :=
  match d with
  | [] => None
  | (k', v) :: d' => if decide (k' = k) then Some v else get k d'
  end.

(** [d[k] = v]: in place when the key is there, at the end otherwise. *)
Fixpoint set (k : K) (v : V) (d : t) : t :=
  match d with
  | [] => [(k, v)]
  | (k', v') :: d' =>
      if decide (k' = k) then (k, v) :: d' else (k', v') :: set k v d'
  end.

Definition keys (d : t) : list K := map fst d.
Definition values (d : t) : list V := map snd d.

End Dict.
Arguments t : clear implicits.
End Dict.

(** [list.sort(key=..., reverse=True)]: stable, largest key first; an
    element goes behind those whose key is not smaller. *)
Fixpoint insert_desc {A} (key : A -> nat) (x : A) (l : list A) : list A :=
  match l with
  | [] => [x]
  | y :: l' =>
      if key y <? key x then x :: l else y :: insert_desc key x l'
  end.

Definition sort_desc {A} (key : A -> nat) (l : list A) : list A :=
  fold_left (fun acc x => insert_desc key x acc) l [].

(** [a] may stand before [b] in a list sorted by [key], largest first. *)
Definition key_ge {A} (key : A -> nat) (a b : A) : Prop := key b <= key a.

(** A [datetime]: the fields [strptime] fills, and the UTC offset in
    microseconds of an aware value. *)
Record datetime := Datetime {
  dt_year : Z; dt_month : Z; dt_day : Z;
  dt_hour : Z; dt_minute : Z; dt_second : Z; dt_microsecond : Z;
  dt_utcoffset : option Z
}.

Module DT.
Local Open Scope Z_scope.

Definition is_leap (y : Z) : bool :=
  (y mod 4 =? 0) && (negb (y mod 100 =? 0) || (y mod 400 =? 0)).

Definition days_before_month (y m : Z) : Z :=
  nth (Z.to_nat m) [0; 0; 31; 59; 90; 120; 151; 181; 212; 243; 273; 304; 334] 0
  + (if (2 <? m) && is_leap y then 1 else 0).

(** The proleptic Gregorian ordinal of a date, 0001-01-01 being day 1. *)
Definition ordinal (y m d : Z) : Z :=
  let p := y - 1 in
  p * 365 + p / 4 - p / 100 + p / 400 + days_before_month y m + d.

(** Microseconds of the wall-clock fields since the start of year 1. *)
Definition wall (d : datetime) : Z :=
  (((ordinal (dt_year d) (dt_month d) (dt_day d) * 24 + dt_hour d) * 60
    + dt_minute d) * 60 + dt_second d) * 1000000 + dt_microsecond d.

(** [a < b]: two naive values compare by their fields, two aware ones by
    their instants, and a naive with an aware one raises. *)
Definition lt (a b : datetime) : outcome bool :=
  match dt_utcoffset a, dt_utcoffset b with
  | None, None => Returns (wall a <? wall b)
  | Some oa, Some ob => Returns (wall a - oa <? wall b - ob)
  | _, _ => Raises TypeError
  end.

(** [datetime.max] *)
Definition max : datetime := Datetime 9999 12 31 23 59 59 999999 None.

(** [datetime.min] *)
Definition min : datetime := Datetime 1 1 1 0 0 0 0 None.

End DT.

(** [min(l, key=key)] and [max(l, key=key)] on a non-empty list: the first
    element is kept until a later one compares smaller (larger). *)
Fixpoint min_from {A} (key : A -> datetime) (cur : A) (l : list A)
  : outcome A :=
  match l with
  | [] => Returns cur
  | x :: l' =>
      b ← DT.lt (key x) (key cur);
      min_from key (if (b : bool) then x else cur) l'
  end.

Fixpoint max_from {A} (key : A -> datetime) (cur : A) (l : list A)
  : outcome A :=
  match l with
  | [] => Returns cur
  | x :: l' =>
      b ← DT.lt (key cur) (key x);
      max_from key (if (b : bool) then x else cur) l'
  end.

(** ** Messages and threads ([build_topics.py]) *)

Definition SPAM_INDICATORS : list str :=
  [ $"loan"; $"business loan"; $"funding"; $"lottery"; $"winner";
    $"inheritance"; $"million dollar"; $"bank transfer"; $"western union";
    $"urgent reply"; $"dear friend"; $"beneficiary"; $"next of kin";
    $"atm card"; $"covid fund"; $"charity"; $"donation";
    $"wohlt" ++ ["195"%char; "164"%char] ++ $"tigkeitsfonds"; $"spende";
    $"flota"; $"servicio"; $"mailbox full"; $"account suspended";
    $"verify your"; $"click here"; $"act now"; $"limited time";
    $"hello okay"; $"your mailbox" ].

Definition SPARSE_KEYWORDS : list str :=
  [ $"sparse"; $"checker"; $"__user"; $"__kernel"; $"__iomem"; $"__force";
    $"__acquires"; $"__releases"; $"__must_hold"; $"address space";
    $"context"; $"endian"; $"__le"; $"__be"; $"bitwise"; $"noderef";
    $"type checking"; $"static analysis"; $"warning"; $"annotation";
    $"lock"; $"mutex"; $"spinlock"; $"rcu"; $"srcu"; $"linearize";
    $"symbol"; $"parse"; $"evaluate"; $"expression"; $"declaration";
    $"gcc"; $"clang"; $"llvm"; $"compiler"; $"attribute"; $"kbuild";
    $"kernel"; $"patch"; $"fix"; $"bug"; $"error"; $"overflow"; $"cast";
    $"pointer"; $"dereference"; $"null"; $"undefined"; $"constexpr" ].

Record category_info := CategoryInfo {
  keywords : list str;
  title : str;
  description : str
}.

Definition TOPIC_CATEGORIES : Dict.t str category_info :=
  [ ($"context_analysis",
     CategoryInfo
       [ $"context analysis"; $"capability analysis"; $"thread safety";
         $"__acquires"; $"__releases"; $"__must_hold"; $"lockdep" ]
       $"Context/Lock Analysis"
       $"Static verification of locking correctness");
    ($"address_space",
     CategoryInfo
       [ $"address space"; $"__user"; $"__kernel"; $"__iomem"; $"noderef";
         $"user pointer"; $"kernel pointer" ]
       $"Address Space Checking"
       $"Detecting user/kernel pointer confusion");
    ($"type_system",
     CategoryInfo
       [ $"type check"; $"bitwise"; $"__le16"; $"__be32"; $"endian";
         $"cast"; $"typeof"; $"overflow"; $"signedness" ]
       $"Type System & Checking"
       $"Type safety, endianness, and overflow detection");
    ($"compiler_compat",
     CategoryInfo
       [ $"gcc"; $"clang"; $"llvm"; $"attribute"; $"__attribute__";
         $"builtin"; $"compiler.h"; $"asm" ]
       $"Compiler Compatibility"
       $"GCC/Clang compatibility and extensions");
    ($"kernel_integration",
     CategoryInfo
       [ $"kbuild"; $"make c="; $"kernel build"; $"linux kernel";
         $"sparse warning"; $"sparse error" ]
       $"Kernel Integration"
       $"Using sparse with the Linux kernel");
    ($"sparse_internals",
     CategoryInfo
       [ $"linearize"; $"parse.c"; $"evaluate"; $"symbol table";
         $"expression tree"; $"ssa"; $"basic block"; $"sparse internal" ]
       $"Sparse Internals"
       $"Parser, linearizer, and analysis infrastructure");
    ($"rfc_proposals",
     CategoryInfo
       [ $"rfc"; $"proposal"; $"introduce"; $"new feature"; $"add support" ]
       $"RFCs & Proposals"
       $"New features and design proposals") ].

(** The dictionary [parse_mbox_file] returns. *)
Record Msg := {
  filepath : str;
  message_id : str;
  author_name : str;
  author_email : str;
  subject : str;
  date : option datetime;
  date_str : str;
  body : str;
  year : str;
  month : str
}.

(** [EmailThread._normalize_subject] *)
Definition _normalize_subject (subject : str) : str :=
  let s := Re.sub_reply subject in
  let s := Re.sub (Re.bracket_tag $"[PATCH") s in
  let s := Re.sub (Re.bracket_tag $"[RFC") s in
  let s := Re.sub (Re.bracket_tag $"[GIT") s in
  let s := Re.sub Re.ws_plus s in
  Str.upto 100 (Str.strip s).


(** *** Shapes of subjects *)

(** The text begins with a reply marker. *)
Definition starts_with_reply (s : str) : bool :=
  match s with
  | r :: e :: c :: _ => Re.is_re r e c
  | _ => false
  end.

(** The pattern matches somewhere in the text. *)
Fixpoint has_match (m : Re.matcher) (s : str) : bool :=
  match m s with
  | Some _ => true
  | None =>
      match s with
      | [] => false
      | _ :: s' => has_match m s'
      end
  end.

(** The text begins, or ends, with a whitespace character. *)
Definition head_space (s : str) : bool :=
  match s with
  | c :: _ => Str.is_space c
  | [] => false
  end.

Definition ends_in_space (s : str) : bool := head_space (rev s).

(** Every whitespace character of the text is a space, with no whitespace
    behind it. *)
Fixpoint single_spaced (s : str) : bool :=
  match s with
  | [] => true
  | c :: s' =>
      (if Str.is_space c then Ascii.eqb c " " && negb (head_space s')
       else true)
      && single_spaced s'
  end.

(** A match of the pattern takes at least one character of the text and
    is replaced by nothing longer, or by nothing at all. *)
Definition consumes (m : Re.matcher) : Prop :=
  forall s n r, m s = Some (n, r) -> 1 <= n <= length s /\ length r <= n.

Definition erases (m : Re.matcher) : Prop :=
  forall s n r, m s = Some (n, r) -> 1 <= n <= length s /\ r = [].

(** A subject on which [_normalize_subject] has nothing left to do: no
    reply marker in front, no bracketed PATCH, RFC or GIT tag, no whitespace
    at the end. *)
Definition is_normal (s : str) : bool :=
  negb (starts_with_reply s)
  && negb (has_match (Re.bracket_tag $"[PATCH") s)
  && negb (has_match (Re.bracket_tag $"[RFC") s)
  && negb (has_match (Re.bracket_tag $"[GIT") s)
  && negb (ends_in_space s).

Record EmailThread := {
  thread_subject : str;
  normalized_subject : str;
  messages : list Msg;
  participants : gset str;
  categories : gset str
}.

(** [EmailThread.__init__] *)
Definition new_thread (subject : str) : EmailThread :=
  {| thread_subject := subject;
     normalized_subject := _normalize_subject subject;
     messages := [];
     participants := ∅;
     categories := ∅ |}.

(** [EmailThread.add_message] *)
Definition add_message (t : EmailThread) (msg : Msg) : EmailThread :=
  {| thread_subject := thread_subject t;
     normalized_subject := normalized_subject t;
     messages := messages t ++ [msg];
     participants := participants t ∪ {[ author_name msg ]};
     categories := categories t |}.

(** [thread.categories.update(cats)] *)
Definition update_categories (t : EmailThread) (cats : list str)
  : EmailThread :=
  {| thread_subject := thread_subject t;
     normalized_subject := normalized_subject t;
     messages := messages t;
     participants := participants t;
     categories := categories t ∪ list_to_set cats |}.

(** The dates of the messages that have one. *)
Definition dates (t : EmailThread) : list datetime :=
  omap date (messages t).

(** [EmailThread.get_first_date] and [EmailThread.get_last_date] *)
Definition get_first_date (t : EmailThread) : outcome (option datetime) :=
  match dates t with
  | [] => Returns None
  | d :: ds => m ← min_from id d ds; Returns (Some m)
  end.

Definition get_last_date (t : EmailThread) : outcome (option datetime) :=
  match dates t with
  | [] => Returns None
  | d :: ds => m ← max_from id d ds; Returns (Some m)
  end.

(** [TopicBuilder.is_spam] *)
Definition is_spam (msg : Msg) : bool :=
  let subject := Str.lower (subject msg) in
  let body := Str.upto 1000 (Str.lower (body msg)) in
  existsb (fun indicator =>
             Str.contains indicator subject || Str.contains indicator body)
          SPAM_INDICATORS
  || (Str.contains $"=?utf-8?b?" subject || Str.contains $"=?utf-8?q?" subject)
     && negb (existsb (fun kw => Str.contains kw subject) SPARSE_KEYWORDS).

Definition known_contributors : list str :=
  [ $"torvalds"; $"luc van oostenryck"; $"chris li"; $"josh triplett";
    $"dan carpenter"; $"sparse" ].

(** [TopicBuilder.is_sparse_related] *)
Definition is_sparse_related (msg : Msg) : bool :=
  let subject := Str.lower (subject msg) in
  let body := Str.upto 2000 (Str.lower (body msg)) in
  existsb (fun kw => Str.contains kw subject || Str.contains kw body)
          SPARSE_KEYWORDS
  || (let author := Str.lower (author_name msg) in
      existsb (fun contrib => Str.contains contrib author)
              known_contributors).

(** The text [categorize_message] searches. *)
Definition category_text (msg : Msg) : str :=
  Str.lower (subject msg) ++ $" " ++ Str.upto 2000 (Str.lower (body msg)).

(** The categories one of whose keywords occurs in [text], in the order of
    [TOPIC_CATEGORIES]. *)
Definition matching_categories (text : str) : list str :=
  map fst
      (List.filter (fun '(_, info) =>
                 existsb (fun kw => Str.contains kw text) (keywords info))
              TOPIC_CATEGORIES).

(** [TopicBuilder.categorize_message] *)
Definition categorize_message (msg : Msg) : list str :=
  match matching_categories (category_text msg) with
  | [] => [ $"general" ]
  | cats => cats
  end.

(** [hashlib.md5(normalized.lower().encode()).hexdigest()[:16]] *)
Definition hash_key (normalized : str) : str :=
  Str.upto 16 (MD5.hexdigest (MD5.encode (Str.lower normalized))).

(** The key under which the loop files a message with this subject. *)
Definition thread_key (subject : str) : str :=
  hash_key (_normalize_subject subject).

(** The state of the loop of [load_and_process_emails]: [self.threads] and
    the three counters it prints. *)
Record loader := {
  threads : Dict.t str EmailThread;
  total_loaded : nat;
  spam_filtered : nat;
  unrelated_filtered : nat
}.

Definition empty_loader : loader :=
  {| threads := []; total_loaded := 0; spam_filtered := 0;
     unrelated_filtered := 0 |}.

(** The thread a message is filed in and what it becomes. *)
Definition file_message (ts : Dict.t str EmailThread) (msg : Msg)
  : Dict.t str EmailThread :=
  let cats := categorize_message msg in
  let key := thread_key (subject msg) in
  let t := match Dict.get key ts with
           | Some t => t
           | None => new_thread (subject msg)
           end in
  Dict.set key (update_categories (add_message t msg) cats) ts.

(** One turn of the loop, for a file that [parse_mbox_file] could read. *)
Definition process_message (st : loader) (msg : Msg) : loader :=
  if is_spam msg then
    {| threads := threads st; total_loaded := S (total_loaded st);
       spam_filtered := S (spam_filtered st);
       unrelated_filtered := unrelated_filtered st |}
  else if negb (is_sparse_related msg) then
    {| threads := threads st; total_loaded := S (total_loaded st);
       spam_filtered := spam_filtered st;
       unrelated_filtered := S (unrelated_filtered st) |}
  else
    {| threads := file_message (threads st) msg;
       total_loaded := S (total_loaded st);
       spam_filtered := spam_filtered st;
       unrelated_filtered := unrelated_filtered st |}.

(** [TopicBuilder.load_and_process_emails] on the records parsed from the
    files, in the order the directories are walked. *)
Definition load_and_process_emails (records : list Msg) : loader :=
  fold_left process_message records empty_loader.

(** *** Key decisions *)

Definition MIN_MESSAGES : nat := 5.
Definition MIN_PARTICIPANTS : nat := 2.

(** The threads [extract_key_decisions] keeps, largest first. *)
Definition is_significant (t : EmailThread) : bool :=
  (MIN_MESSAGES <=? length (messages t))
  && (MIN_PARTICIPANTS <=? size (participants t)).

Definition significant_threads (ts : Dict.t str EmailThread)
  : list EmailThread :=
  sort_desc (fun t => length (messages t))
            (List.filter is_significant (Dict.values ts)).

(** The three classes of decision indicators, looked for in the lowercased
    body of a message. *)
Definition merged_in (msg : Msg) : bool :=
  existsb (fun phrase => Str.contains phrase (Str.lower (body msg)))
          [ $"merged"; $"applied"; $"pushed"; $"committed" ].

Definition rejected_in (msg : Msg) : bool :=
  existsb (fun phrase => Str.contains phrase (Str.lower (body msg)))
          [ $"nack"; $"rejected"; $"not taking"; $"won't work" ].

Definition accepted_in (msg : Msg) : bool :=
  Str.contains $"acked-by" (Str.lower (body msg))
  || Str.contains $"reviewed-by" (Str.lower (body msg)).

(** What [outcome] is after a message when it was [cur] before. *)
Definition scan_message (cur : option str) (msg : Msg) : option str :=
  if merged_in msg then Some $"merged"
  else if rejected_in msg then Some $"rejected"
  else if accepted_in msg then Some $"accepted"
  else cur.

(** [outcome] when the loop over [thread.messages] is over. *)
Definition scan_outcome (msgs : list Msg) : option str :=
  fold_left scan_message msgs None.

Record snippet := { snippet_author : str; snippet_text : str }.

(** The rationale snippets one message adds. *)
Definition message_rationale (msg : Msg) : list snippet :=
  let author := Str.lower (author_name msg) in
  if bool_decide (author = $"linus torvalds")
     || bool_decide (author = $"luc van oostenryck")
  then
    map (fun sent => {| snippet_author := author_name msg;
                        snippet_text := Str.strip sent |})
        (List.filter (fun sent =>
                   (50 <? length sent) && (length sent <? 300)
                   && existsb (fun word => Str.contains word (Str.lower sent))
                        [ $"because"; $"reason"; $"problem"; $"issue";
                          $"should"; $"must"; $"need" ])
                (Re.split Re.sentence_end (Str.upto 1500 (body msg))))
  else [].

Record decision := {
  d_subject : str;
  d_normalized_subject : str;
  d_message_count : nat;
  d_participants : list str;
  d_categories : list str;
  d_first_date : option datetime;
  d_year : option Z;
  d_outcome : option str;
  d_rationale : list snippet;
  d_first_message_body : str
}.

(** The body of the loop over the significant threads. *)
Definition decide_thread (t : EmailThread) : outcome decision :=
  first_msg ←
    match messages t with
    | [] => Raises ValueError
    | m :: ms => min_from (fun m => default DT.max (date m)) m ms
    end;
  first_date ← get_first_date t;
  Returns {| d_subject := thread_subject t;
             d_normalized_subject := normalized_subject t;
             d_message_count := length (messages t);
             d_participants := elements (participants t);
             d_categories := elements (categories t);
             d_first_date := first_date;
             d_year := dt_year <$> first_date;
             d_outcome := scan_outcome (messages t);
             d_rationale :=
               firstn 3 (flat_map message_rationale (messages t));
             d_first_message_body := Str.upto 1000 (body first_msg) |}.

(** [TopicBuilder.extract_key_decisions] *)
Definition extract_key_decisions (ts : Dict.t str EmailThread)
  : outcome (list decision) :=
  for_each decide_thread (firstn 50 (significant_threads ts)).

(** *** Topic statistics *)

(** The first loop of [organize_by_topic]: the threads it appends to
    [self.topics[cat]], in the order of the dictionary; a thread is appended
    once for each of its categories. The lists are sorted afterwards, see
    [organize_by_topic] below. *)
Definition topic_threads (ts : Dict.t str EmailThread) (cat : str)
  : list EmailThread :=
  List.filter (fun t => negb (length (messages t) <? 1)
                        && bool_decide (cat ∈ categories t))
              (Dict.values ts).

(** The entries of ['stats'] in [generate_output]; ['categories'] is given
    as the count of each label, the length of its list, which the sort
    leaves as it is. *)
Definition total_threads (ts : Dict.t str EmailThread) : nat := length ts.

Definition total_messages (ts : Dict.t str EmailThread) : nat :=
  list_sum (map (fun t => length (messages t)) (Dict.values ts)).

Definition category_count (ts : Dict.t str EmailThread) (cat : str) : nat :=
  length (topic_threads ts cat).

(** A record that gets past both filters of the loop. *)
Definition retained (msg : Msg) : bool :=
  negb (is_spam msg) && is_sparse_related msg.

(** Every message filed in a thread got past both filters. *)
Definition all_retained (ts : Dict.t str EmailThread) : Prop :=
  forall k t, In (k, t) ts -> Forall (fun x => retained x = true) (messages t).

(** What one turn of the loop does to [self.threads]. *)
Definition process_threads (ts : Dict.t str EmailThread) (msg : Msg)
  : Dict.t str EmailThread :=
  if retained msg then file_message ts msg else ts.

(** The record is in the thread found under its key. *)
Definition filed (ts : Dict.t str EmailThread) (r : Msg) : Prop :=
  exists t, Dict.get (thread_key (subject r)) ts = Some t /\ In r (messages t).

Definition is_hex (c : ascii) : Prop := In c $"0123456789abcdef".

(** *** Reading one file

    [parse_mbox_file] is given the file as the [email] package read it: the
    four headers, the decoded text of the body and the names of the two
    directories above the file. [datetime.strptime] is a parameter: it gives
    the value a text has under a format, or nothing where Python raises
    [ValueError]. *)

Record raw_message := {
  raw_filepath : str;
  raw_from : str;
  raw_subject : str;
  raw_date : str;
  raw_message_id : str;
  raw_body : str;
  raw_year_dir : str;
  raw_month_dir : str
}.

(** The formats tried, in this order. *)
Definition DATE_FORMATS : list str :=
  [ $"%a, %d %b %Y %H:%M:%S %z"; $"%d %b %Y %H:%M:%S %z";
    $"%a, %d %b %Y %H:%M:%S"; $"%d %b %Y %H:%M:%S" ].

(** The author name and address taken from the [From] header. *)
Definition extract_author (from_addr : str) : str * str :=
  let '(author_name, author_email) :=
    match Re.search_author from_addr with
    | Some (name, addr) => (Str.strip name, Str.strip addr)
    | None =>
        (if Str.contains $"@" from_addr then Str.before "@" from_addr
         else from_addr,
         from_addr)
    end in
  let author_name :=
    Str.strip (Re.sub (Re.paren_comment false) author_name) in
  let author_name := Re.sub Re.encoded_word author_name in
  let author_name :=
    match author_name with
    | [] | "<"%char :: _ =>
        if Str.contains $"@" author_email then Str.before "@" author_email
        else $"Unknown"
    | _ => author_name
    end in
  (author_name, author_email).

(** The text handed to [strptime]. *)
Definition clean_date (date_str : str) : str :=
  Str.strip (Re.sub (Re.paren_comment true) date_str).

Section Parsing.
Variable strptime : str -> str -> option datetime.

(** The loop over the formats: the first that parses ends it. *)
Fixpoint first_parsed (text : str) (formats : list str) : option datetime :=
  match formats with
  | [] => None
  | fmt :: rest =>
      match strptime text fmt with
      | Some d => Some d
      | None => first_parsed text rest
      end
  end.

Definition parse_date (date_str : str) : option datetime :=
  match date_str with
  | [] => None
  | _ => first_parsed (clean_date date_str) DATE_FORMATS
  end.

(** [TopicBuilder.parse_mbox_file] *)
Definition parse_mbox_file (raw : raw_message) : option Msg :=
  if Str.is_blank (raw_subject raw) then None
  else
    let '(name, addr) := extract_author (raw_from raw) in
    Some {| filepath := raw_filepath raw;
            message_id := raw_message_id raw;
            author_name := name;
            author_email := addr;
            subject := raw_subject raw;
            date := parse_date (raw_date raw);
            date_str := raw_date raw;
            body := Str.upto 5000 (raw_body raw);
            year := raw_year_dir raw;
            month := raw_month_dir raw |}.

End Parsing.

(** ** Contributor statistics ([analyze_emails.py]) *)

Module Analyze.

(** The dictionary [EmailAnalyzer.parse_mbox_file] returns. *)
Record email_data := {
  filepath : str;
  from : str;
  author_name : str;
  author_email : str;
  subject : str;
  date : option datetime;
  date_str : str;
  message_id : str;
  body : str;
  year : str;
  month : str
}.

Record yearly := { count : nat; year_authors : gset str }.

Record EmailAnalyzer := {
  emails : list email_data;
  authors : Dict.t str nat;
  subjects : list str;
  yearly_stats : Dict.t str yearly;
  topics : Dict.t str nat
}.

(** [EmailAnalyzer.__init__] *)
Definition init : EmailAnalyzer :=
  {| emails := []; authors := []; subjects := []; yearly_stats := [];
     topics := [] |}.

(** [EmailAnalyzer.load_all_emails], on what [parse_mbox_file] gave for each
    file: the records parsed are kept, in that order. *)
Definition load_all_emails (a : EmailAnalyzer)
           (parsed : list (option email_data)) : EmailAnalyzer :=
  {| emails := emails a ++ omap id parsed; authors := authors a;
     subjects := subjects a; yearly_stats := yearly_stats a;
     topics := topics a |}.

(** [counter[k] += 1] on a [Counter] or a [defaultdict(int)] *)
Definition incr (k : str) (c : Dict.t str nat) : Dict.t str nat :=
  Dict.set k (S (default 0 (Dict.get k c))) c.

Definition incr_if (b : bool) (k : str) (c : Dict.t str nat)
  : Dict.t str nat :=
  if b then incr k c else c.

(** [EmailAnalyzer._categorize_topic] *)
Definition _categorize_topic (tp : Dict.t str nat) (subject : str)
  : Dict.t str nat :=
  let tp := incr_if (Str.contains $"patch" subject) $"patches" tp in
  let tp := incr_if (Str.contains $"bug" subject
                     || Str.contains $"fix" subject) $"bug_fixes" tp in
  let tp := incr_if (Str.contains $"rfc" subject) $"rfcs" tp in
  let tp := incr_if (Str.contains $"question" subject
                     || Str.contains $"?" subject) $"questions" tp in
  let tp := incr_if (Str.contains $"announce" subject
                     || Str.contains $"release" subject) $"announcements" tp in
  let tp := incr_if (Str.contains $"warning" subject
                     || Str.contains $"error" subject) $"warnings_errors" tp in
  let tp := incr_if (Str.contains $"sparse" subject) $"sparse_core" tp in
  incr_if (Str.contains $"check" subject) $"checking" tp.

(** The key a record is counted under. *)
Definition author_key (e : email_data) : str := Str.lower (author_email e).

(** [self.yearly_stats[year]] after the record is counted. *)
Definition count_year (e : email_data) (ys : Dict.t str yearly)
  : Dict.t str yearly :=
  let y := default {| count := 0; year_authors := ∅ |}
                   (Dict.get (year e) ys) in
  Dict.set (year e)
           {| count := S (count y);
              year_authors := year_authors y ∪ {[ author_key e ]} |} ys.

(** The body of the loop of [EmailAnalyzer.analyze]. *)
Definition analyze_step (a : EmailAnalyzer) (e : email_data)
  : EmailAnalyzer :=
  {| emails := emails a;
     authors := incr (author_key e) (authors a);
     subjects := subjects a ++ [subject e];
     yearly_stats := count_year e (yearly_stats a);
     topics := _categorize_topic (topics a) (Str.lower (subject e)) |}.

(** [EmailAnalyzer.analyze] *)
Definition analyze (a : EmailAnalyzer) : EmailAnalyzer :=
  fold_left analyze_step (emails a) a.

(** [Counter.most_common(n)]: the [n] largest counts, equal counts in the
    order the keys were first counted. *)
Definition most_common (n : nat) (c : Dict.t str nat) : list (str * nat) :=
  firstn n (sort_desc snd c).

(** [EmailAnalyzer.get_top_contributors] *)
Definition get_top_contributors (a : EmailAnalyzer) (n : nat)
  : list (str * nat) :=
  most_common n (authors a).

(** [main]: a fresh analyzer loads the records and analyzes them once. *)
Definition run (parsed : list (option email_data)) : EmailAnalyzer :=
  analyze (load_all_emails init parsed).

(** The sum of the counts of a counter. *)
Definition total (c : Dict.t str nat) : nat := list_sum (Dict.values c).

End Analyze.

(** ** Threads by year ([organize_by_year.py])

    The script reads the document [build_topics.py] wrote. A thread object
    is modelled with the entries [to_dict] gives it, each with the type it
    has there; an entry may be missing, and an entry that [to_dict] may set
    to [None] may be [null]. *)

Module Years.

(** An entry that may be missing or [null]. *)
Inductive entry (A : Type) :=
| Missing
| Null
| Value (a : A).
Arguments Missing {A}.
Arguments Null {A}.
Arguments Value {A} a.

Record message := {
  m_date : entry str;
  m_timestamp : entry str;
  m_date_str : entry str
}.

Record thread := {
  t_subject : option str;
  t_normalized_subject : option str;
  t_message_count : option nat;
  t_participants : list str;
  t_categories : list str;
  t_first_date : entry str;
  t_last_date : entry str;
  t_year : entry Z;
  t_messages : option (list message)
}.

(** [thread.get('normalized_subject', thread.get('subject', ''))] *)
Definition thread_key (t : thread) : str :=
  match t_normalized_subject t with
  | Some s => s
  | None => default [] (t_subject t)
  end.

Definition is_digit (c : ascii) : bool :=
  (48 <=? Str.code c)%N && (Str.code c <=? 57)%N.

(** The pattern "(20\d{2}|199\d)" at the start of the text. *)
Definition year_here (s : str) : option str :=
  match s with
  | a :: b :: c :: d :: _ =>
      if Ascii.eqb a "2" && Ascii.eqb b "0" && is_digit c && is_digit d
         || Ascii.eqb a "1" && Ascii.eqb b "9" && Ascii.eqb c "9" && is_digit d
      then Some [a; b; c; d] else None
  | _ => None
  end.

(** [re.search] of that pattern: the group of the leftmost match. *)
Fixpoint search_year (s : str) : option str :=
  match year_here s with
  | Some y => Some y
  | None =>
      match s with
      | [] => None
      | _ :: s' => search_year s'
      end
  end.

(** [str(n)] for an integer. *)
Definition str_of_int (n : Z) : str := list_ascii_of_string (pretty n).

(** A string entry that is there and not empty. *)
Definition truthy (e : entry str) : option str :=
  match e with
  | Value ((_ :: _) as s) => Some s
  | _ => None
  end.

(** [first_msg.get('date', first_msg.get('timestamp',
    first_msg.get('date_str', '')))] *)
Definition timestamp (m : message) : entry str :=
  match m_date m with
  | Missing =>
      match m_timestamp m with
      | Missing =>
          match m_date_str m with
          | Missing => Value []
          | e => e
          end
      | e => e
      end
  | e => e
  end.

(** The year found in the thread itself, if any. *)
Definition year_of_thread (t : thread) : option str :=
  match t_year t with
  | Value (Z0) | Missing | Null =>
      match truthy (t_first_date t) with
      | Some s => search_year s
      | None => None
      end
  | Value n => Some (str_of_int n)
  end.

(** The year found in the first message, if any. *)
Definition year_of_messages (t : thread) : option str :=
  match t_messages t with
  | Some (first_msg :: _) =>
      match truthy (timestamp first_msg) with
      | Some s => search_year s
      | None => None
      end
  | _ => None
  end.

(** The year bucket of a thread. *)
Definition bucket (t : thread) : str :=
  match year_of_thread t with
  | Some y => y
  | None => default $"unknown" (year_of_messages t)
  end.

(** [thread_copy]: the thread with its ['primary_category']. *)
Record thread_copy := {
  copied : thread;
  primary_category : str
}.

Record stats := {
  total_threads : nat;
  total_messages : nat;
  categories : Dict.t str nat
}.

Record year_info := {
  threads : list thread_copy;
  year_stats : stats
}.

(** What [defaultdict] makes for a new year. *)
Definition new_year : year_info :=
  {| threads := [];
     year_stats := {| total_threads := 0; total_messages := 0;
                      categories := [] |} |}.

(** [thread.get('message_count', len(thread.get('messages', [])))] *)
Definition message_count (t : thread) : nat :=
  default (length (default [] (t_messages t))) (t_message_count t).

(** The year once a thread of the category is added to it. *)
Definition add_thread (category_id : str) (t : thread) (y : year_info)
  : year_info :=
  {| threads := threads y
                ++ [ {| copied := t; primary_category := category_id |} ];
     year_stats :=
       {| total_threads := S (total_threads (year_stats y));
          total_messages := total_messages (year_stats y) + message_count t;
          categories :=
            Analyze.incr category_id (categories (year_stats y)) |} |}.

Record state := {
  processed_threads : gset str;
  yearly_data : Dict.t str year_info
}.

Definition start : state :=
  {| processed_threads := ∅; yearly_data := [] |}.

(** The body of the inner loop. *)
Definition visit (category_id : str) (st : state) (t : thread) : state :=
  if bool_decide (thread_key t ∈ processed_threads st) then st
  else
    let y := default new_year (Dict.get (bucket t) (yearly_data st)) in
    {| processed_threads := processed_threads st ∪ {[ thread_key t ]};
       yearly_data :=
         Dict.set (bucket t) (add_thread category_id t y) (yearly_data st) |}.

(** The two loops of [organize_by_year] over [data['topics']]. *)
Definition organize_by_year (topics : Dict.t str (list thread)) : state :=
  fold_left (fun st '(category_id, threads_list) =>
               fold_left (visit category_id) threads_list st)
            topics start.

(** The threads of the document with their category, in the order the
    loops meet them. *)
Definition occurrences (topics : Dict.t str (list thread))
  : list (str * thread) :=
  flat_map (fun '(category_id, threads_list) =>
              map (fun t => (category_id, t)) threads_list)
           topics.

Definition copy_of (x : str * thread) : thread_copy :=
  {| copied := snd x; primary_category := fst x |}.

(** The thread copies of all years. *)
Definition emitted (yd : Dict.t str year_info) : list thread_copy :=
  flat_map threads (Dict.values yd).

Definition has_key (k : str) (c : thread_copy) : bool :=
  bool_decide (thread_key (copied c) = k).

(** The years in which a copy of a thread with this key is found. *)
Definition years_of (k : str) (yd : Dict.t str year_info) : list str :=
  map fst (List.filter (fun '(_, y) => existsb (has_key k) (threads y)) yd).

(** What holds of the state of the loops once the occurrences [seen] have
    been visited. *)
Definition visited (seen : list (str * thread)) (st : state) : Prop :=
  (forall k, k ∈ processed_threads st
             <-> exists x, In x seen /\ thread_key (snd x) = k)
  /\ forall k,
       List.filter (has_key k) (emitted (yearly_data st))
       = firstn 1 (List.filter (has_key k) (map copy_of seen)).

(** Every copy is in the year of its thread. *)
Definition well_bucketed (yd : Dict.t str year_info) : Prop :=
  forall y info c, In (y, info) yd -> In c (threads info) ->
                   bucket (copied c) = y.

End Years.

(** A value without UTC offset, and a message whose date, if it has one,
    is such a value. *)
Definition naive (d : datetime) : Prop := dt_utcoffset d = None.

Definition naively_dated (msg : Msg) : Prop :=
  forall d, date msg = Some d -> naive d.

(** A message with some decision indicator in its body. *)
Definition has_indicator (msg : Msg) : bool :=
  merged_in msg || rejected_in msg || accepted_in msg.

(** ** More of [analyze_emails.py] *)

Module Report.

(** The subject under which [get_key_threads] groups a record: reply markers
    and PATCH tags removed, stripped, cut to 80 characters. *)
Definition group_subject (subject : str) : str :=
  let s := Re.sub_reply subject in
  let s := Re.sub (Re.bracket_tag $"[PATCH") s in
  Str.upto 80 (Str.strip s).

(** [thread_groups[subject].append(email_data)] *)
Definition group_add (groups : Dict.t str (list Analyze.email_data))
           (e : Analyze.email_data) : Dict.t str (list Analyze.email_data) :=
  let k := group_subject (Analyze.subject e) in
  Dict.set k (default [] (Dict.get k groups) ++ [e]) groups.

Definition group_by_subject (emails : list Analyze.email_data)
  : Dict.t str (list Analyze.email_data) :=
  fold_left group_add emails [].

Record key_thread := {
  kt_subject : str;
  kt_message_count : nat;
  kt_participants : nat;
  kt_first_date : option datetime;
  kt_last_date : option datetime
}.

(** The dictionary made for one group, with the dates before their
    [isoformat()]. *)
Definition describe (g : str * list Analyze.email_data) : outcome key_thread :=
  let '(subject, emails) := g in
  let dates := omap Analyze.date emails in
  first_date ← match dates with
               | [] => Returns None
               | d :: ds => m ← min_from id d ds; Returns (Some m)
               end;
  last_date ← match dates with
              | [] => Returns None
              | d :: ds => m ← max_from id d ds; Returns (Some m)
              end;
  Returns {| kt_subject := subject;
             kt_message_count := length emails;
             kt_participants :=
               size (list_to_set (map Analyze.author_key emails) : gset str);
             kt_first_date := first_date;
             kt_last_date := last_date |}.

(** [EmailAnalyzer.get_key_threads]: of the 50 largest groups, those of 3
    messages or more. *)
Definition get_key_threads (a : Analyze.EmailAnalyzer)
  : outcome (list key_thread) :=
  for_each describe
    (List.filter (fun g => 3 <=? length (snd g))
       (firstn 50 (sort_desc (fun g => length (snd g))
                             (group_by_subject (Analyze.emails a))))).

(** The eight lists of [extract_key_discussions], in the order of its
    dictionary. *)
Record discussions := {
  sparse_features : list Analyze.email_data;
  kernel_integration : list Analyze.email_data;
  bug_reports : list Analyze.email_data;
  performance : list Analyze.email_data;
  type_checking : list Analyze.email_data;
  warnings : list Analyze.email_data;
  llvm_clang : list Analyze.email_data;
  gcc : list Analyze.email_data
}.

Definition no_discussions : discussions :=
  {| sparse_features := []; kernel_integration := []; bug_reports := [];
     performance := []; type_checking := []; warnings := [];
     llvm_clang := []; gcc := [] |}.

(** [l.append(e)] when the condition holds. *)
Definition append_if {A} (b : bool) (l : list A) (e : A) : list A :=
  if b then l ++ [e] else l.

(** The conditions of the eight lists on one record. *)
Definition is_feature (e : Analyze.email_data) : bool :=
  let subject := Str.lower (Analyze.subject e) in
  let body := Str.upto 2000 (Str.lower (Analyze.body e)) in
  existsb (fun kw => Str.contains kw subject || Str.contains kw body)
          [ $"new feature"; $"add support"; $"implement" ].

Definition subject_has (kw : str) (e : Analyze.email_data) : bool :=
  Str.contains kw (Str.lower (Analyze.subject e)).

(** The body of the loop of [extract_key_discussions]. *)
Definition discuss (c : discussions) (e : Analyze.email_data) : discussions :=
  {| sparse_features := append_if (is_feature e) (sparse_features c) e;
     kernel_integration :=
       append_if (subject_has $"kernel" e || subject_has $"linux" e)
                 (kernel_integration c) e;
     bug_reports :=
       append_if (subject_has $"bug" e || subject_has $"crash" e
                  || subject_has $"segfault" e) (bug_reports c) e;
     performance :=
       append_if (subject_has $"performance" e || subject_has $"slow" e
                  || subject_has $"fast" e) (performance c) e;
     type_checking :=
       append_if (subject_has $"type" e
                  && (subject_has $"check" e || subject_has $"error" e))
                 (type_checking c) e;
     warnings := append_if (subject_has $"warning" e) (warnings c) e;
     llvm_clang :=
       append_if (subject_has $"llvm" e || subject_has $"clang" e)
                 (llvm_clang c) e;
     gcc := append_if (subject_has $"gcc" e) (gcc c) e |}.

(** [EmailAnalyzer.extract_key_discussions] *)
Definition extract_key_discussions (a : Analyze.EmailAnalyzer) : discussions :=
  fold_left discuss (Analyze.emails a) no_discussions.

(** The tests of [_categorize_topic] with the counter each one feeds. *)
Definition TOPIC_RULES : list (str * (str -> bool)) :=
  [ ($"patches", fun s => Str.contains $"patch" s);
    ($"bug_fixes", fun s => Str.contains $"bug" s || Str.contains $"fix" s);
    ($"rfcs", fun s => Str.contains $"rfc" s);
    ($"questions", fun s => Str.contains $"question" s || Str.contains $"?" s);
    ($"announcements",
     fun s => Str.contains $"announce" s || Str.contains $"release" s);
    ($"warnings_errors",
     fun s => Str.contains $"warning" s || Str.contains $"error" s);
    ($"sparse_core", fun s => Str.contains $"sparse" s);
    ($"checking", fun s => Str.contains $"check" s) ].

End Report.

(** ** Saving the years (the rest of [organize_by_year])

    Once the threads are in their years, the years are gone through in the
    order of [sorted], the threads of each are sorted by first date, latest
    first, and the year is written to its file and entered in the index. *)

Module YearFiles.

(** [a < b] on strings: by code points, a proper prefix first. *)
Fixpoint str_lt (a b : str) : bool :=
  match a, b with
  | _, [] => false
  | [], _ :: _ => true
  | x :: a', y :: b' =>
      (Str.code x <? Str.code y)%N
      || (Str.code x =? Str.code y)%N && str_lt a' b'
  end.

(** A stable sort: an element goes in front of the first one it is
    [before], and behind all the others. *)
Fixpoint insert_by {A} (before : A -> A -> bool) (x : A) (l : list A)
  : list A :=
  match l with
  | [] => [x]
  | y :: l' => if before x y then x :: l else y :: insert_by before x l'
  end.

Definition sort_by {A} (before : A -> A -> bool) (l : list A) : list A :=
  fold_left (fun acc x => insert_by before x acc) l [].

(** [x] may stand in front of [y] in a list sorted so. *)
Definition in_order {A} (before : A -> A -> bool) (x y : A) : Prop :=
  before y x = false.

(** The key of a thread in its year:
    [t.get('first_date', t['messages'][0].get('date', '') if
    t.get('messages') else '')], [None] standing for Python's [None]. *)
Definition sort_key (c : Years.thread_copy) : option str :=
  let t := Years.copied c in
  match Years.t_first_date t with
  | Years.Value s => Some s
  | Years.Null => None
  | Years.Missing =>
      match Years.t_messages t with
      | Some (first_msg :: _) =>
          match Years.m_date first_msg with
          | Years.Value s => Some s
          | Years.Null => None
          | Years.Missing => Some []
          end
      | _ => Some []
      end
  end.

Definition no_key (c : Years.thread_copy) : bool :=
  match sort_key c with
  | None => true
  | Some _ => false
  end.

(** [later x y]: the key of [x] is greater than that of [y]. *)
Definition later (x y : Years.thread_copy) : bool :=
  str_lt (default [] (sort_key y)) (default [] (sort_key x)).

(** [threads.sort(key=..., reverse=True)]. The keys are compared with [<],
    which raises [TypeError] when one side is [None]; a list of two
    elements or more is not sorted without comparing each of them with
    another, and a shorter list is left as it is without any comparison. *)
Definition sort_threads (l : list Years.thread_copy)
  : outcome (list Years.thread_copy) :=
  if (2 <=? length l) && existsb no_key l then Raises TypeError
  else Returns (sort_by later l).

(** What is written to the file of a year. *)
Record year_file := {
  yf_year : str;
  yf_stats : Years.stats;
  yf_threads : list Years.thread_copy
}.

(** The body of the loop over the years. *)
Definition save_year (y : str * Years.year_info) : outcome year_file :=
  sorted ← sort_threads (Years.threads (snd y));
  Returns {| yf_year := fst y; yf_stats := Years.year_stats (snd y);
             yf_threads := sorted |}.

(** The loop over [sorted(yearly_data.keys())]: the files in the order
    they are written. The files written before an exception are not part
    of the outcome. *)
Definition save (yd : Dict.t str Years.year_info) : outcome (list year_file) :=
  for_each save_year (sort_by (fun x y => str_lt (fst x) (fst y)) yd).

(** The entry of a year in the index: its numbers of threads and
    messages. *)
Definition index_entry (f : year_file) : str * (nat * nat) :=
  (yf_year f, (Years.total_threads (yf_stats f),
               Years.total_messages (yf_stats f))).

(** [organize_by_year] as a whole, on the topics of the document read. *)
Definition run (topics : Dict.t str (list Years.thread))
  : outcome (list year_file) :=
  save (Years.yearly_data (Years.organize_by_year topics)).

End YearFiles.

(** ** Sorting by date ([to_dict] and [organize_by_topic])

    Both sort on keys that are [datetime] values, and [<] between a value
    with an offset and one without raises [TypeError]. A sort whose keys are
    all of one kind never raises; a sort that meets both kinds cannot put
    them in order without comparing two keys of different kinds, and
    raises. *)

(** The moment a value stands for: its wall clock, less its offset when it
    has one. *)
Definition instant (d : datetime) : Z :=
  (DT.wall d - default 0 (dt_utcoffset d))%Z.

(** Some key has no offset and some key has one. *)
Definition mixed_kinds (keys : list datetime) : bool :=
  existsb (fun d => bool_decide (dt_utcoffset d = None)) keys
  && existsb (fun d => negb (bool_decide (dt_utcoffset d = None))) keys.

(** [sorted(l, key=key)] and, with [reverse], [l.sort(key=key,
    reverse=True)], on keys already computed: both are stable. *)
Definition sort_by_date {A} (reverse : bool) (key : A -> datetime)
           (l : list A) : outcome (list A) :=
  if mixed_kinds (map key l) then Raises TypeError
  else
    Returns
      (YearFiles.sort_by
         (fun x y => if reverse then (instant (key y) <? instant (key x))%Z
                     else (instant (key x) <? instant (key y))%Z)
         l).

(** [EmailThread.to_dict], with the dates before their [isoformat()]; the
    two lists made from sets are in the order of [elements]. *)
Record thread_dict := {
  td_subject : str;
  td_normalized_subject : str;
  td_message_count : nat;
  td_participants : list str;
  td_categories : list str;
  td_first_date : option datetime;
  td_last_date : option datetime;
  td_year : option Z;
  td_messages : list Msg
}.

Definition to_dict (t : EmailThread) : outcome thread_dict :=
  first_date ← get_first_date t;
  last_date ← get_last_date t;
  sorted ← sort_by_date false (fun m => default DT.min (date m)) (messages t);
  Returns {| td_subject := thread_subject t;
             td_normalized_subject := normalized_subject t;
             td_message_count := length (messages t);
             td_participants := elements (participants t);
             td_categories := elements (categories t);
             td_first_date := first_date;
             td_last_date := last_date;
             td_year := dt_year <$> first_date;
             td_messages := sorted |}.

(** The key of a thread in the sort of a topic:
    [t.get_first_date() or datetime.min]. *)
Definition topic_key (t : EmailThread) : outcome datetime :=
  first_date ← get_first_date t;
  Returns (default DT.min first_date).

(** [self.topics[cat].sort(key=..., reverse=True)]: the keys of all the
    threads are computed first, then the list is sorted, latest first. *)
Definition sort_topic (l : list EmailThread) : outcome (list EmailThread) :=
  keyed ← for_each (fun t => k ← topic_key t; Returns (t, k)) l;
  sorted ← sort_by_date true snd keyed;
  Returns (map fst sorted).

(** The keys of [self.topics]: the categories of the threads that have a
    message. *)
Definition topic_names (ts : Dict.t str EmailThread) : gset str :=
  ⋃ (map categories
         (List.filter (fun t => negb (length (messages t) <? 1))
                      (Dict.values ts))).

(** [TopicBuilder.organize_by_topic]: [self.topics] once every list is
    sorted. The order of its keys follows the iteration order of the sets
    of categories and is left open: the dictionary is read as a map. The
    lists are sorted one after the other, and every exception of a sort is
    a [TypeError], so the outcome does not depend on that order either. *)
Definition organize_by_topic (ts : Dict.t str EmailThread)
  : outcome (gmap str (list EmailThread)) :=
  sorted ← for_each (fun cat => l ← sort_topic (topic_threads ts cat);
                                Returns (cat, l))
                    (elements (topic_names ts));
  Returns (list_to_map sorted).

(** ** The summary of the analyzer ([generate_summary]) *)

Module Summary.

(** [a < b] on pairs of strings: the first components decide, unless they
    are equal. *)
Definition pair_lt (a b : str * str) : bool :=
  if bool_decide (fst a = fst b) then YearFiles.str_lt (snd a) (snd b)
  else YearFiles.str_lt (fst a) (fst b).

(** [(e['year'], e['month']) for e in self.emails if e['year']] *)
Definition periods (a : Analyze.EmailAnalyzer) : list (str * str) :=
  map (fun e => (Analyze.year e, Analyze.month e))
      (List.filter (fun e => match Analyze.year e with
                             | [] => false
                             | _ :: _ => true
                             end)
                   (Analyze.emails a)).

(** [min] and [max] of a sequence: [ValueError] when it is empty; of equal
    elements the first is kept. *)
Definition min_of (l : list (str * str)) : outcome (str * str) :=
  match l with
  | [] => Raises ValueError
  | p :: ps =>
      Returns (fold_left (fun cur x => if pair_lt x cur then x else cur) ps p)
  end.

Definition max_of (l : list (str * str)) : outcome (str * str) :=
  match l with
  | [] => Raises ValueError
  | p :: ps =>
      Returns (fold_left (fun cur x => if pair_lt cur x then x else cur) ps p)
  end.

Record summary := {
  total_emails : nat;
  date_range : (str * str) * (str * str);
  total_contributors : nat;
  top_contributors : list (str * nat);
  yearly_stats : list (str * (nat * nat));
  topic_distribution : Dict.t str nat;
  key_threads : list Report.key_thread
}.

(** [EmailAnalyzer.generate_summary]: the entries are computed in the order
    of the dictionary, so the date range comes before the key threads. The
    years of ['yearly_stats'] are those of [sorted], each with its count and
    its number of authors. *)
Definition generate_summary (a : Analyze.EmailAnalyzer) : outcome summary :=
  start ← min_of (periods a);
  last ← max_of (periods a);
  threads ← Report.get_key_threads a;
  Returns
    {| total_emails := length (Analyze.emails a);
       date_range := (start, last);
       total_contributors := length (Analyze.authors a);
       top_contributors := Analyze.get_top_contributors a 30;
       yearly_stats :=
         map (fun '(y, d) =>
                (y, (Analyze.count d, size (Analyze.year_authors d))))
             (YearFiles.sort_by
                (fun x y => YearFiles.str_lt (fst x) (fst y))
                (Analyze.yearly_stats a));
       topic_distribution := Analyze.topics a;
       key_threads := threads |}.

End Summary.

(** ** Notions used in the further properties *)

(** The words one of which a quoted sentence holds. *)
Definition REASON_WORDS : list str :=
  [ $"because"; $"reason"; $"problem"; $"issue"; $"should"; $"must"; $"need" ].

(** A thread may stand before another in a topic: both have a key, and the
    key of the first is not the earlier one. *)
Definition not_earlier (a b : EmailThread) : Prop :=
  exists ka kb,
    topic_key a = Returns ka /\ topic_key b = Returns kb
    /\ (instant kb <= instant ka)%Z.

(** Both values have an offset, or neither has. *)
Definition same_kind (a b : datetime) : Prop :=
  dt_utcoffset a = None <-> dt_utcoffset b = None.

(** The records of a run that are filed under a key, in the order they
    came. *)
Definition filed_under (k : str) (records : list Msg) : list Msg :=
  List.filter (fun r => retained r && bool_decide (thread_key (subject r) = k))
              records.

(** What a thread records of its messages: the subject and the normal form
    of the first, the author names and the labels of all. *)
Definition summarizes (t : EmailThread) : Prop :=
  exists m ms,
    messages t = m :: ms
    /\ thread_subject t = subject m
    /\ normalized_subject t = _normalize_subject (subject m)
    /\ participants t = list_to_set (map author_name (m :: ms))
    /\ categories t = list_to_set (flat_map categorize_message (m :: ms)).

(** The counters once each test of the rules has been made on a subject. *)
Definition apply_rules (rules : list (str * (str -> bool)))
           (tp : Dict.t str nat) (subject : str) : Dict.t str nat :=
  fold_left (fun tp r => Analyze.incr_if (snd r subject) (fst r) tp) rules tp.

(** The groups [get_key_threads] looks at: the 50 largest. *)
Definition largest_groups (a : Analyze.EmailAnalyzer)
  : list (str * list Analyze.email_data) :=
  firstn 50 (sort_desc (fun g => length (snd g))
                       (Report.group_by_subject (Analyze.emails a))).

(** The records of the analyzer counted under a contributor key, those of a
    year directory, those a test of the subject holds for, and those grouped
    under a subject. *)
Definition written_by (k : str) (es : list Analyze.email_data)
  : list Analyze.email_data :=
  List.filter (fun e => bool_decide (Analyze.author_key e = k)) es.

Definition of_year (y : str) (es : list Analyze.email_data)
  : list Analyze.email_data :=
  List.filter (fun e => bool_decide (Analyze.year e = y)) es.

Definition on_topic (p : str -> bool) (es : list Analyze.email_data)
  : list Analyze.email_data :=
  List.filter (fun e => p (Str.lower (Analyze.subject e))) es.

Definition grouped_under (k : str) (es : list Analyze.email_data)
  : list Analyze.email_data :=
  List.filter
    (fun e => bool_decide (Report.group_subject (Analyze.subject e) = k)) es.

(** The number of distinct contributor keys of some records. *)
Definition contributors_of (es : list Analyze.email_data) : nat :=
  size (list_to_set (map Analyze.author_key es) : gset str).

(** The statistics of a year agree with its list of threads. *)
Definition tallied (info : Years.year_info) : Prop :=
  let s := Years.year_stats info in
  Years.total_threads s = length (Years.threads info)
  /\ Years.total_messages s
     = list_sum (map (fun c => Years.message_count (Years.copied c))
                     (Years.threads info))
  /\ Analyze.total (Years.categories s) = length (Years.threads info)
  /\ forall cat,
       default 0 (Dict.get cat (Years.categories s))
       = length (List.filter
                   (fun c => bool_decide (Years.primary_category c = cat))
                   (Years.threads info)).

(** A text that is not empty, has no whitespace at either end and none of
    the characters of [avoid]. *)
Definition plain (avoid : str) (s : str) : bool :=
  negb (head_space s) && negb (ends_in_space s)
  && forallb (fun c => negb (existsb (Ascii.eqb c) avoid)) s
  && negb (length s =? 0).

(** The characters the patterns of the author name react to: the quote, the
    angle bracket, the parenthesis and the equals sign. *)
Definition NAME_MARKS : str := [ "034"%char; "<"%char; "("%char; "="%char ].

(** ** Sample records *)

Definition sample (author subj text : str) : Msg :=
  {| filepath := $"emails/2010/03/1.mbox"; message_id := [];
     author_name := author; author_email := author ++ $"@example.org";
     subject := subj; date := None; date_str := []; body := text;
     year := $"2010"; month := $"03" |}.

Definition review_1 : Msg :=
  sample $"alice" $"[PATCH] sparse: fix cast" $"Please review this change.".
Definition review_2 : Msg :=
  sample $"bob" $"Re: [PATCH] sparse: fix cast" $"NACK, this breaks the build.".
Definition review_3 : Msg :=
  sample $"alice" $"Re: [PATCH] sparse: fix cast" $"Applied, thanks.".
Definition review_4 : Msg :=
  sample $"bob" $"Re: [PATCH] sparse: fix cast" $"Good.".
Definition review_5 : Msg :=
  sample $"carol" $"Re: [PATCH] sparse: fix cast" $"Thanks to both of you.".

Definition inheritance_mail : Msg :=
  sample $"stranger" $"URGENT: inheritance fund transfer"
         $"Dear friend, the sparse details follow.".

Definition greeting_mail : Msg :=
  sample $"dave" $"Meeting notes" $"See you on Monday. Note sparse attendance.".

(** A keyword of [type_system] is "type check". *)
Definition straddle_mail : Msg := sample $"gina" $"fix type" $"check this".

Definition review_thread : list Msg :=
  [review_1; review_2; review_3; review_4; review_5].

Definition upper_mail : Msg :=
  sample $"erin" $"Sparse: Fix Endian Cast" $"First version.".

Definition lower_mail : Msg :=
  sample $"frank" $"RE: sparse: fix endian cast" $"Looks right.".

(** A stand-in for [strptime] that reads one date under the second
    format. *)
Definition strptime_sample (text fmt : str) : option datetime :=
  if bool_decide (fmt = $"%d %b %Y %H:%M:%S %z")
     && bool_decide (text = $"1 Mar 2010 10:00:00 +0000")
  then Some (Datetime 2010 3 1 10 0 0 0 (Some 0%Z))
  else None.

Definition raw_sample (date_header : str) : raw_message :=
  {| raw_filepath := $"emails/2010/03/7.mbox";
     raw_from := $"Dan (work) <dan@example.org>";
     raw_subject := $"sparse: context warning";
     raw_date := date_header;
     raw_message_id := $"<7@example.org>";
     raw_body := $"A warning about the lock context.";
     raw_year_dir := $"2010";
     raw_month_dir := $"03" |}.

Definition raw_dated : raw_message :=
  raw_sample $"1 Mar 2010 10:00:00 +0000 (UTC)".

Definition raw_undated : raw_message := raw_sample $"yesterday".

Definition undated_mail : Msg :=
  {| filepath := $"emails/2010/03/7.mbox";
     message_id := $"<7@example.org>";
     author_name := $"Dan";
     author_email := $"dan@example.org";
     subject := $"sparse: context warning";
     date := None;
     date_str := $"yesterday";
     body := $"A warning about the lock context.";
     year := $"2010";
     month := $"03" |}.

Definition review_threads : Dict.t str EmailThread :=
  threads (load_and_process_emails review_thread).

Definition review_decisions : list decision :=
  match extract_key_decisions review_threads with
  | Returns ds => ds
  | Raises _ => []
  end.

Definition year_thread (subj : str) (y : Years.entry Z) (d : Years.entry str)
  : Years.thread :=
  {| Years.t_subject := Some subj;
     Years.t_normalized_subject := Some subj;
     Years.t_message_count := Some 5;
     Years.t_participants := []; Years.t_categories := [];
     Years.t_first_date := d; Years.t_last_date := d;
     Years.t_year := y; Years.t_messages := Some [] |}.

Definition fix_cast_thread : Years.thread :=
  year_thread $"fix cast" (Years.Value 2010%Z)
              (Years.Value $"2010-03-01T10:00:00").

Definition topics_sample : Dict.t str (list Years.thread) :=
  [ ($"type_system",
     [ fix_cast_thread; year_thread $"endian check" Years.Null Years.Null ]);
    ($"rfc_proposals",
     [ fix_cast_thread;
       year_thread $"new flag" Years.Null
                   (Years.Value $"1999-12-31T23:59:59") ]) ].

(** A record with another date, and threads of two messages. *)
Definition dated (m : Msg) (d : option datetime) : Msg :=
  {| filepath := filepath m; message_id := message_id m;
     author_name := author_name m; author_email := author_email m;
     subject := subject m; date := d; date_str := date_str m;
     body := body m; year := year m; month := month m |}.

Definition aware_date : datetime := Datetime 2010 3 1 10 0 0 0 (Some 0%Z).
Definition later_date : datetime := Datetime 2010 3 1 9 0 0 0 (Some (-7200000000)%Z).
Definition naive_date : datetime := Datetime 2010 3 2 9 0 0 0 None.

Definition thread_of (m1 m2 : Msg) : EmailThread :=
  add_message (add_message (new_thread (subject m1)) m1) m2.

Definition aware_thread : EmailThread :=
  thread_of (dated review_1 (Some aware_date))
            (dated review_2 (Some later_date)).

Definition mixed_thread : EmailThread :=
  thread_of (dated review_1 (Some aware_date)) review_2.

(** Records of the analyzer, and documents of threads by year. *)
Definition mail (addr subj : str) (d : option datetime) : Analyze.email_data :=
  {| Analyze.filepath := $"emails/2010/03/1.mbox"; Analyze.from := addr;
     Analyze.author_name := addr; Analyze.author_email := addr;
     Analyze.subject := subj; Analyze.date := d; Analyze.date_str := [];
     Analyze.message_id := []; Analyze.body := [];
     Analyze.year := $"2010"; Analyze.month := $"03" |}.

Definition mail_dated (d : option datetime) : Analyze.email_data :=
  mail $"luc@example.org" $"Re: [PATCH] sparse: fix cast" d.

Definition analyzer_of (es : list Analyze.email_data) : Analyze.EmailAnalyzer :=
  Analyze.load_all_emails Analyze.init (map Some es).

Definition sample_analyzer : Analyze.EmailAnalyzer :=
  analyzer_of [ mail $"Luc@example.org" $"[PATCH] sparse: fix cast" None;
                mail $"dan@example.org" $"Re: [PATCH] sparse: fix cast" None;
                mail $"luc@example.org" $"RE: re: sparse: fix cast" None;
                mail $"dan@example.org" $"question about warnings?" None ].

Definition mixed_analyzer : Analyze.EmailAnalyzer :=
  analyzer_of [ mail_dated (Some aware_date); mail_dated None;
                mail_dated (Some naive_date) ].

Definition sample_key_threads : list Report.key_thread :=
  match Report.get_key_threads sample_analyzer with
  | Returns l => l
  | Raises _ => []
  end.

Definition undated_thread : Years.thread :=
  {| Years.t_subject := Some $"sparse: fix cast";
     Years.t_normalized_subject := Some $"sparse: fix cast";
     Years.t_message_count := Some 1;
     Years.t_participants := [ $"luc" ]; Years.t_categories := [ $"general" ];
     Years.t_first_date := Years.Null; Years.t_last_date := Years.Null;
     Years.t_year := Years.Null;
     Years.t_messages :=
       Some [ {| Years.m_date := Years.Null;
                 Years.m_timestamp := Years.Value $"2010-03-01";
                 Years.m_date_str := Years.Value $"Mon, 1 Mar 2010 10:00:00" |} ] |}.

Definition undated_named (s : str) : Years.thread :=
  {| Years.t_subject := Some s; Years.t_normalized_subject := Some s;
     Years.t_message_count := Some 1;
     Years.t_participants := [ $"luc" ]; Years.t_categories := [ $"general" ];
     Years.t_first_date := Years.Null; Years.t_last_date := Years.Null;
     Years.t_year := Years.Null;
     Years.t_messages :=
       Some [ {| Years.m_date := Years.Null;
                 Years.m_timestamp := Years.Missing;
                 Years.m_date_str := Years.Value $"Mon, 1 Mar 2010 10:00:00" |} ] |}.

Definition undated_topics : Dict.t str (list Years.thread) :=
  [ ($"general", [ undated_named $"sparse: fix cast";
                   undated_named $"sparse: new flag" ]) ].

Definition unknown_year : Years.year_info :=
  default Years.new_year
          (Dict.get $"unknown"
                    (Years.yearly_data (Years.organize_by_year undated_topics))).

Definition year_1999 : Years.year_info :=
  default Years.new_year
          (Dict.get $"1999"
                    (Years.yearly_data (Years.organize_by_year topics_sample))).

Definition sample_year_files : list YearFiles.year_file :=
  match YearFiles.run topics_sample with
  | Returns l => l
  | Raises _ => []
  end.

(** The topics of the review. *)
Definition review_topics : gmap str (list EmailThread) :=
  match organize_by_topic review_threads with
  | Returns m => m
  | Raises _ => ∅
  end.

(** The thread of the review as the loop leaves it. *)
Definition review_loaded : EmailThread :=
  default (new_thread [])
          (Dict.get (thread_key (subject review_1)) review_threads).

(** The summary of the sample analyzer once it has analyzed. *)
Definition sample_parsed : list (option Analyze.email_data) :=
  map Some (Analyze.emails sample_analyzer).

Definition sample_summary_value : Summary.summary :=
  match Summary.generate_summary (Analyze.analyze sample_analyzer) with
  | Returns s => s
  | Raises _ =>
      {| Summary.total_emails := 0; Summary.date_range := (([], []), ([], []));
         Summary.total_contributors := 0; Summary.top_contributors := [];
         Summary.yearly_stats := []; Summary.topic_distribution := [];
         Summary.key_threads := [] |}
  end.

(** * Properties *)

(** ** Decision extraction *)

Lemma scan_message_indicator cur m :
  has_indicator m = true -> scan_message cur m = scan_message None m.
Proof.
  unfold has_indicator, scan_message.
  destruct (merged_in m), (rejected_in m), (accepted_in m); simpl; congruence.
Qed.

Lemma scan_message_silent cur m :
  has_indicator m = false -> scan_message cur m = cur.
Proof.
  unfold has_indicator, scan_message.
  destruct (merged_in m), (rejected_in m), (accepted_in m); simpl; congruence.
Qed.

Lemma scan_silent_tail post cur :
  forallb (fun x => negb (has_indicator x)) post = true ->
  fold_left scan_message post cur = cur.
Proof.
  revert cur. induction post as [|x post IH]; intros cur H; simpl in *.
  - reflexivity.
  - apply andb_prop in H as [Hx Hpost]. apply negb_true_iff in Hx.
    rewrite (scan_message_silent _ _ Hx). now apply IH.
Qed.

Lemma scan_outcome_last pre m post :
  has_indicator m = true ->
  forallb (fun x => negb (has_indicator x)) post = true ->
  scan_outcome (pre ++ m :: post) = scan_message None m.
Proof.
  intros Hm Hpost. unfold scan_outcome.
  rewrite fold_left_app. simpl.
  rewrite (scan_silent_tail _ _ Hpost). now apply scan_message_indicator.
Qed.

Lemma decide_thread_fields t d :
  decide_thread t = Returns d ->
  d_outcome d = scan_outcome (messages t)
  /\ d_message_count d = length (messages t)
  /\ d_participants d = elements (participants t).
Proof.
  unfold decide_thread. intros H.
  destruct (match messages t with [] => _ | m :: ms => _ end) as [fm|];
    simpl in H; [|discriminate].
  destruct (get_first_date t) as [fd|]; simpl in H; [|discriminate].
  injection H as <-. repeat split.
Qed.

(** C1 (as the code has it). Each message is checked with the fixed
    precedence, merged before rejected before accepted, and the last message
    of the thread, in thread order, that holds any indicator determines the
    outcome recorded for the thread: it overrides what earlier messages
    set. *)
Theorem outcome_is_last_indicator (pre post : list Msg) (m : Msg) :
  has_indicator m = true ->
  forallb (fun x => negb (has_indicator x)) post = true ->
  scan_outcome (pre ++ m :: post)
  = Some (if merged_in m then $"merged"
          else if rejected_in m then $"rejected" else $"accepted")
  /\ forall t d,
       messages t = pre ++ m :: post ->
       decide_thread t = Returns d ->
       d_outcome d = scan_outcome (pre ++ m :: post).
Proof.
  intros Hm Hpost. split.
  - rewrite (scan_outcome_last _ _ _ Hm Hpost).
    unfold has_indicator in Hm. unfold scan_message.
    destruct (merged_in m), (rejected_in m), (accepted_in m);
      simpl in *; congruence.
  - intros t d Ht Hd. rewrite <- Ht. now apply decide_thread_fields.
Qed.

Lemma outcome_is_last_indicator_witness :
  scan_outcome ([review_1; review_2] ++ review_3 :: [review_4; review_5])
  = Some $"merged".
Proof.
  apply (outcome_is_last_indicator [review_1; review_2]
           [review_4; review_5] review_3); reflexivity.
Defined.

(** The thread of the example of the specification: the second message
    holds "nack", the third "applied", and the outcome after the scan is
    "merged", not "rejected". *)
Lemma nack_then_applied_is_merged :
  scan_message None review_1 = None
  /\ Str.contains $"nack" (Str.lower (body review_2)) = true
  /\ Str.contains $"applied" (Str.lower (body review_3)) = true
  /\ scan_outcome [review_1; review_2] = Some $"rejected"
  /\ scan_outcome [review_1; review_2; review_3] = Some $"merged"
  /\ scan_outcome [review_1; review_2; review_3] <> Some $"rejected"
  /\ map d_outcome review_decisions = [ Some $"merged" ].
Proof. repeat split; try reflexivity. discriminate. Qed.

(** ** The dictionary of threads *)

Section DictFacts.
Context {K V : Type} `{EqDecision K}.
Implicit Types (d : Dict.t K V) (k : K) (v : V).

Lemma dict_get_set_eq d k v : Dict.get k (Dict.set k v d) = Some v.
Proof.
  induction d as [|[k' v'] d IH]; simpl.
  - now rewrite decide_True.
  - destruct (decide (k' = k)) as [->|Hne]; simpl.
    + now rewrite decide_True.
    + now rewrite decide_False.
Qed.

Lemma dict_get_set_ne d k k' v :
  k <> k' -> Dict.get k' (Dict.set k v d) = Dict.get k' d.
Proof.
  intros Hne. induction d as [|[k0 v0] d IH]; simpl.
  - now rewrite decide_False.
  - destruct (decide (k0 = k)) as [->|Hne0]; simpl.
    + now rewrite !decide_False.
    + destruct (decide (k0 = k')); [reflexivity | exact IH].
Qed.

Lemma dict_get_In d k v : Dict.get k d = Some v -> In (k, v) d.
Proof.
  induction d as [|[k' v'] d IH]; simpl; [discriminate|].
  destruct (decide (k' = k)) as [->|Hne]; intros H.
  - injection H as ->. now left.
  - right. now apply IH.
Qed.

Lemma dict_set_In d k v k' v' :
  In (k', v') (Dict.set k v d) -> (k', v') = (k, v) \/ In (k', v') d.
Proof.
  induction d as [|[k0 v0] d IH]; simpl.
  - intros [H|[]]. now left.
  - destruct (decide (k0 = k)) as [->|Hne]; simpl.
    + intros [H|H]; [now left | right; now right].
    + intros [H|H]; [right; now left |].
      destruct (IH H) as [?|?]; [now left | right; now right].
Qed.

End DictFacts.

(** ** Classification *)

Lemma existsb_false {A} (f : A -> bool) (l : list A) :
  (forall x, In x l -> f x = false) -> existsb f l = false.
Proof.
  induction l as [|a l IH]; simpl; intros H; [reflexivity|].
  rewrite (H a) by now left. simpl. apply IH. intros x Hx. apply H. now right.
Qed.

Lemma filter_none {A} (f : A -> bool) (l : list A) :
  (forall x, In x l -> f x = false) -> List.filter f l = [].
Proof.
  induction l as [|a l IH]; simpl; intros H; [reflexivity|].
  rewrite (H a) by now left. apply IH. intros x Hx. apply H. now right.
Qed.

Lemma categorize_message_nonempty msg : categorize_message msg <> [].
Proof.
  unfold categorize_message.
  destruct (matching_categories (category_text msg)); discriminate.
Qed.

(** C5 (as the code has it). A record none of whose topic keywords occurs
    in the text searched, the lowercased subject, a space and the first 2000
    characters of the lowercased body, gets the single label "general", and
    no record gets an empty list of labels. *)
Theorem categorize_fallback_general (msg : Msg) :
  (forall cat info kw,
      In (cat, info) TOPIC_CATEGORIES -> In kw (keywords info) ->
      Str.contains kw (category_text msg) = false) ->
  categorize_message msg = [ $"general" ]
  /\ forall other : Msg, categorize_message other <> [].
Proof.
  intros Hnone. split; [|apply categorize_message_nonempty].
  unfold categorize_message, matching_categories.
  rewrite filter_none; [reflexivity|].
  intros [cat info] Hin. apply existsb_false.
  intros kw Hkw. now apply (Hnone cat info kw).
Qed.

Lemma no_keyword_of_greeting cat info kw :
  In (cat, info) TOPIC_CATEGORIES -> In kw (keywords info) ->
  Str.contains kw (category_text greeting_mail) = false.
Proof.
  intros Hin Hkw.
  assert (H : forallb (fun '(_, i) =>
                forallb (fun k => negb (Str.contains k (category_text greeting_mail)))
                        (keywords i)) TOPIC_CATEGORIES = true)
    by (vm_compute; reflexivity).
  rewrite forallb_forall in H. specialize (H _ Hin). simpl in H.
  rewrite forallb_forall in H. specialize (H _ Hkw).
  now apply negb_true_iff in H.
Defined.

Lemma categorize_fallback_general_witness :
  categorize_message greeting_mail = [ $"general" ].
Proof.
  apply (categorize_fallback_general greeting_mail).
  exact no_keyword_of_greeting.
Defined.

(** A keyword of a category that is neither in the subject nor in the body
    is found where the two are joined. *)
Lemma keyword_across_subject_and_body :
  (forall cat info kw,
      In (cat, info) TOPIC_CATEGORIES -> In kw (keywords info) ->
      Str.contains kw (Str.lower (subject straddle_mail)) = false
      /\ Str.contains kw (Str.upto 2000 (Str.lower (body straddle_mail)))
         = false)
  /\ categorize_message straddle_mail = [ $"type_system" ].
Proof.
  split; [|vm_compute; reflexivity].
  intros cat info kw Hin Hkw.
  assert (H : forallb (fun '(_, i) =>
                forallb (fun k =>
                           negb (Str.contains k
                                   (Str.lower (subject straddle_mail)))
                           && negb (Str.contains k
                                      (Str.upto 2000
                                         (Str.lower (body straddle_mail)))))
                        (keywords i)) TOPIC_CATEGORIES = true)
    by (vm_compute; reflexivity).
  rewrite forallb_forall in H. specialize (H _ Hin). simpl in H.
  rewrite forallb_forall in H. specialize (H _ Hkw).
  apply andb_prop in H as [H1 H2]. now apply negb_true_iff in H1, H2.
Qed.

(** ** Spam *)

Lemma process_message_threads st msg :
  threads (process_message st msg) = process_threads (threads st) msg.
Proof.
  unfold process_message, process_threads, retained.
  destruct (is_spam msg); simpl; [reflexivity|].
  destruct (is_sparse_related msg); reflexivity.
Qed.

Lemma load_threads_from records st :
  threads (fold_left process_message records st)
  = fold_left process_threads records (threads st).
Proof.
  revert st. induction records as [|r records IH]; intros st; simpl.
  - reflexivity.
  - rewrite IH. now rewrite process_message_threads.
Qed.

Lemma load_threads records :
  threads (load_and_process_emails records)
  = fold_left process_threads records [].
Proof. apply load_threads_from. Qed.

Lemma file_message_retained ts msg :
  retained msg = true -> all_retained ts -> all_retained (file_message ts msg).
Proof.
  intros Hmsg Hts k t Hin. unfold file_message in Hin.
  apply dict_set_In in Hin as [Heq|Hin]; [|now apply (Hts k t)].
  injection Heq as -> ->. simpl. apply Forall_app. split.
  - destruct (Dict.get _ ts) as [t0|] eqn:Hget.
    + apply (Hts (thread_key (subject msg)) t0). now apply dict_get_In.
    + constructor.
  - now repeat constructor.
Qed.

Lemma process_threads_retained ts msg :
  all_retained ts -> all_retained (process_threads ts msg).
Proof.
  intros Hts. unfold process_threads.
  destruct (retained msg) eqn:Hr; [|exact Hts].
  now apply file_message_retained.
Qed.

Lemma fold_process_retained records ts :
  all_retained ts -> all_retained (fold_left process_threads records ts).
Proof.
  revert ts. induction records as [|r records IH]; intros ts Hts; simpl.
  - exact Hts.
  - apply IH. now apply process_threads_retained.
Qed.

Lemma spam_by_indicator msg kw :
  In kw SPAM_INDICATORS ->
  Str.contains kw (Str.lower (subject msg)) = true
  \/ Str.contains kw (Str.upto 1000 (Str.lower (body msg))) = true ->
  is_spam msg = true.
Proof.
  intros Hkw Hin. unfold is_spam. apply orb_true_iff. left.
  apply existsb_exists. exists kw. split; [exact Hkw|].
  apply orb_true_iff. exact Hin.
Qed.

(** C4. A record whose lowercased subject, or the first 1000 characters of
    whose lowercased body, holds a keyword of the spam list is spam: the loop
    leaves the threads as they were, the run is the run without the record,
    no thread of any run holds the record, and the topic statistics of the
    run are those of the run without it. *)
Theorem spam_record_is_dropped (msg : Msg) (kw : str) :
  In kw SPAM_INDICATORS ->
  Str.contains kw (Str.lower (subject msg)) = true
  \/ Str.contains kw (Str.upto 1000 (Str.lower (body msg))) = true ->
  is_spam msg = true
  /\ (forall st, threads (process_message st msg) = threads st)
  /\ (forall before after,
        threads (load_and_process_emails (before ++ msg :: after))
        = threads (load_and_process_emails (before ++ after)))
  /\ (forall records k t,
        Dict.get k (threads (load_and_process_emails records)) = Some t ->
        ~ In msg (messages t))
  /\ (forall before after,
        let with_it :=
          threads (load_and_process_emails (before ++ msg :: after)) in
        let without :=
          threads (load_and_process_emails (before ++ after)) in
        total_threads with_it = total_threads without
        /\ total_messages with_it = total_messages without
        /\ forall cat, category_count with_it cat = category_count without cat).
Proof.
  intros Hkw Hin.
  assert (Hspam : is_spam msg = true) by now apply (spam_by_indicator msg kw).
  assert (Hdrop : forall ts, process_threads ts msg = ts).
  { intros ts. unfold process_threads, retained. now rewrite Hspam. }
  assert (Hrun : forall before after,
             threads (load_and_process_emails (before ++ msg :: after))
             = threads (load_and_process_emails (before ++ after))).
  { intros before after. rewrite !load_threads, !fold_left_app. simpl.
    now rewrite Hdrop. }
  split; [exact Hspam|]. split.
  { intros st. now rewrite process_message_threads. }
  split; [exact Hrun|]. split.
  - intros records k t Hget Hmem. rewrite load_threads in Hget.
    assert (Hall : all_retained (fold_left process_threads records []))
      by (apply fold_process_retained; intros ? ? []).
    apply dict_get_In in Hget. specialize (Hall _ _ Hget).
    rewrite List.Forall_forall in Hall. specialize (Hall _ Hmem).
    unfold retained in Hall. rewrite Hspam in Hall. discriminate.
  - intros before after. cbv zeta. now rewrite Hrun.
Qed.

Lemma spam_record_is_dropped_witness :
  is_spam inheritance_mail = true
  /\ Str.contains $"sparse" (Str.lower (body inheritance_mail)) = true.
Proof.
  split; [|reflexivity].
  apply (spam_record_is_dropped inheritance_mail $"inheritance").
  - vm_compute. tauto.
  - left. reflexivity.
Defined.

(** ** Significant threads *)

Lemma firstn_In {A} (x : A) n l : In x (firstn n l) -> In x l.
Proof.
  revert l. induction n as [|n IH]; intros [|a l]; simpl; try tauto.
  intros [->|H]; [now left | right; now apply IH].
Qed.

Section SortDesc.
Context {A : Type} (key : A -> nat).

Lemma insert_desc_In x y l : In y (insert_desc key x l) <-> y = x \/ In y l.
Proof.
  induction l as [|z l IH]; simpl.
  - intuition.
  - destruct (key z <? key x); simpl; [intuition|].
    rewrite IH. intuition.
Qed.

Lemma fold_insert_In y l acc :
  In y (fold_left (fun acc x => insert_desc key x acc) l acc)
  <-> In y acc \/ In y l.
Proof.
  revert acc. induction l as [|x l IH]; intros acc; simpl.
  - intuition.
  - rewrite IH, insert_desc_In. intuition.
Qed.

Lemma sort_desc_In y l : In y (sort_desc key l) <-> In y l.
Proof. unfold sort_desc. rewrite fold_insert_In. simpl. intuition. Qed.

Lemma insert_desc_sorted x l :
  StronglySorted (key_ge key) l -> StronglySorted (key_ge key) (insert_desc key x l).
Proof.
  induction 1 as [|z l Hl IH Hz]; simpl.
  - repeat constructor.
  - destruct (key z <? key x) eqn:Hlt.
    + apply Nat.ltb_lt in Hlt. constructor; [now constructor|].
      constructor; [unfold key_ge; lia|].
      eapply List.Forall_impl; [|exact Hz]. unfold key_ge. intros; simpl in *; lia.
    + apply Nat.ltb_ge in Hlt. constructor; [exact IH|].
      apply List.Forall_forall. intros y Hy.
      apply insert_desc_In in Hy as [->|Hy]; [exact Hlt|].
      rewrite List.Forall_forall in Hz. now apply Hz.
Qed.

Lemma sort_desc_sorted l : StronglySorted (key_ge key) (sort_desc key l).
Proof.
  unfold sort_desc.
  assert (H : StronglySorted (key_ge key) (@nil A)) by constructor.
  revert H. generalize (@nil A) as acc.
  induction l as [|x l IH]; intros acc Hacc; simpl; [exact Hacc|].
  apply IH. now apply insert_desc_sorted.
Qed.

Lemma firstn_sorted n l :
  StronglySorted (key_ge key) l -> StronglySorted (key_ge key) (firstn n l).
Proof.
  intros H. revert n. induction H as [|z l Hl IH Hz]; intros [|n]; simpl;
    try constructor.
  - apply IH.
  - apply List.Forall_forall. intros y Hy. apply firstn_In in Hy.
    rewrite List.Forall_forall in Hz. now apply Hz.
Qed.

End SortDesc.

Lemma for_each_Forall2 {A B} (f : A -> outcome B) l bs :
  for_each f l = Returns bs -> Forall2 (fun a b => f a = Returns b) l bs.
Proof.
  revert bs. induction l as [|a l IH]; simpl; intros bs H.
  - injection H as <-. constructor.
  - destruct (f a) as [b|] eqn:Hfa; simpl in H; [|discriminate].
    destruct (for_each f l) as [bs'|]; simpl in H; [|discriminate].
    injection H as <-. constructor; [exact Hfa | now apply IH].
Qed.

Lemma significant_threads_spec ts t :
  In t (significant_threads ts) <->
  In t (Dict.values ts) /\ is_significant t = true.
Proof.
  unfold significant_threads. rewrite sort_desc_In. apply filter_In.
Qed.

(** *** When the extraction returns

    The comparisons of dates raise only between a value with an offset and
    one without: with no offset anywhere, every thread gets its decision. *)

Lemma min_from_naive {A} (key : A -> datetime) cur l :
  naive (key cur) -> Forall (fun x => naive (key x)) l ->
  exists r, min_from key cur l = Returns r /\ naive (key r).
Proof.
  intros Hcur Hl. revert cur Hcur.
  induction Hl as [|x l Hx _ IH]; intros cur Hcur; simpl.
  - now exists cur.
  - unfold DT.lt. rewrite Hx, Hcur. simpl.
    destruct (DT.wall (key x) <? DT.wall (key cur))%Z; now apply IH.
Qed.

Lemma naive_key msg :
  naively_dated msg -> naive (default DT.max (date msg)).
Proof.
  unfold naively_dated. destruct (date msg) as [d|]; simpl; intros H.
  - now apply H.
  - reflexivity.
Qed.

Lemma naive_dates l :
  Forall naively_dated l -> Forall (fun d => naive (id d)) (omap date l).
Proof.
  induction 1 as [|m l Hm _ IH]; simpl; [constructor|].
  destruct (date m) as [d|] eqn:Hd; simpl; [|exact IH].
  constructor; [now apply Hm | exact IH].
Qed.

Lemma decide_thread_returns t :
  messages t <> [] -> Forall naively_dated (messages t) ->
  exists d, decide_thread t = Returns d.
Proof.
  intros Hne Hall. unfold decide_thread, get_first_date, dates.
  generalize (naive_dates _ Hall).
  generalize (omap date (messages t)) as ds. intros ds Hd.
  destruct (messages t) as [|m ms]; [congruence|].
  inversion Hall as [|? ? Hm Hms]; subst.
  destruct (min_from_naive (fun m => default DT.max (date m)) m ms)
    as (fm & -> & _).
  { now apply naive_key. }
  { eapply List.Forall_impl; [|exact Hms]. intros a. apply naive_key. }
  simpl. destruct Hd as [|d ds Hd1 Hd2]; simpl.
  - eexists. reflexivity.
  - destruct (min_from_naive id d ds Hd1 Hd2) as (r & -> & _). simpl.
    eexists. reflexivity.
Qed.

Lemma for_each_returns {A B} (f : A -> outcome B) l :
  Forall (fun a => exists b, f a = Returns b) l ->
  exists bs, for_each f l = Returns bs.
Proof.
  induction 1 as [|a l [b Hb] _ [bs IH]]; simpl.
  - now exists [].
  - rewrite Hb, IH. simpl. now exists (b :: bs).
Qed.

Lemma extract_key_decisions_returns ts :
  Forall (fun t => Forall naively_dated (messages t)) (Dict.values ts) ->
  exists ds, extract_key_decisions ts = Returns ds.
Proof.
  intros Hall. unfold extract_key_decisions. apply for_each_returns.
  apply List.Forall_forall. intros t Ht. apply firstn_In in Ht.
  apply significant_threads_spec in Ht as [Hin Hsig].
  rewrite List.Forall_forall in Hall. apply decide_thread_returns.
  - unfold is_significant, MIN_MESSAGES in Hsig.
    apply andb_prop in Hsig as [H5 _]. apply Nat.leb_le in H5.
    destruct (messages t); simpl in H5; [lia | discriminate].
  - now apply Hall.
Qed.

(** C6. Every thread kept for decision extraction has at least 5 messages
    and at least 2 distinct participants, the threads kept come largest
    first, and so do the decisions returned, each of which reports the
    counts of its thread. *)
Theorem significant_threads_meet_thresholds
        (ts : Dict.t str EmailThread) (ds : list decision) :
  extract_key_decisions ts = Returns ds ->
  Forall (fun t => In t (Dict.values ts)
                   /\ 5 <= length (messages t) /\ 2 <= size (participants t))
         (significant_threads ts)
  /\ StronglySorted (fun a b => length (messages b) <= length (messages a))
                    (significant_threads ts)
  /\ Forall (fun d => 5 <= d_message_count d /\ 2 <= length (d_participants d))
            ds
  /\ StronglySorted (fun a b => b <= a) (map d_message_count ds).
Proof.
  intros Hds.
  assert (Hsig : Forall (fun t => In t (Dict.values ts)
              /\ 5 <= length (messages t) /\ 2 <= size (participants t))
            (significant_threads ts)).
  { apply List.Forall_forall. intros t Ht.
    apply significant_threads_spec in Ht as [Hin Hs].
    unfold is_significant, MIN_MESSAGES, MIN_PARTICIPANTS in Hs.
    apply andb_prop in Hs as [H1 H2].
    apply Nat.leb_le in H1, H2. auto. }
  assert (Hsorted : StronglySorted
            (fun a b => length (messages b) <= length (messages a))
            (significant_threads ts))
    by apply (sort_desc_sorted (fun t => length (messages t))).
  split; [exact Hsig|]. split; [exact Hsorted|].
  unfold extract_key_decisions in Hds. apply for_each_Forall2 in Hds.
  assert (Htop : Forall (fun t => 5 <= length (messages t)
                                  /\ 2 <= size (participants t))
                        (firstn 50 (significant_threads ts))).
  { apply List.Forall_forall. intros t Ht. apply firstn_In in Ht.
    rewrite List.Forall_forall in Hsig. now apply Hsig in Ht. }
  assert (Htops : StronglySorted
            (fun a b => length (messages b) <= length (messages a))
            (firstn 50 (significant_threads ts)))
    by now apply (firstn_sorted (fun t => length (messages t))).
  clear Hsig Hsorted.
  induction Hds as [|t d l ds' Htd Hrest IH]; simpl.
  - split; constructor.
  - apply decide_thread_fields in Htd as (_ & Hcount & Hpart).
    inversion Htop as [|? ? [H5 H2] Htop']; subst.
    inversion Htops as [|? ? Hs Hall]; subst.
    destruct (IH Htop' Hs) as [IH1 IH2].
    split.
    + constructor; [|exact IH1]. rewrite Hcount, Hpart. split; [exact H5|].
      exact H2.
    + constructor; [exact IH2|]. rewrite Hcount.
      clear - Hrest Hall. induction Hrest as [|t' d' l ds' Htd' _ IH'].
      * constructor.
      * inversion Hall; subst. simpl. constructor; [|now apply IH'].
        apply decide_thread_fields in Htd' as (_ & -> & _). assumption.
Qed.

Lemma significant_threads_meet_thresholds_witness :
  map d_message_count review_decisions = [5]
  /\ Forall (fun d => 5 <= d_message_count d /\ 2 <= length (d_participants d))
            review_decisions.
Proof.
  split; [reflexivity|].
  apply (significant_threads_meet_thresholds review_threads review_decisions).
  vm_compute. reflexivity.
Defined.

(** ** Thread keys *)

Lemma file_message_files ts m : filed (file_message ts m) m.
Proof.
  unfold filed, file_message. eexists. split; [apply dict_get_set_eq|].
  simpl. apply in_or_app. right. now left.
Qed.

Lemma file_message_keeps ts m r : filed ts r -> filed (file_message ts m) r.
Proof.
  intros (t & Hget & Hin). unfold filed, file_message.
  destruct (decide (thread_key (subject m) = thread_key (subject r)))
    as [Heq|Hne].
  - rewrite Heq, Hget. eexists. split; [apply dict_get_set_eq|].
    simpl. apply in_or_app. now left.
  - exists t. split; [|exact Hin]. now rewrite dict_get_set_ne.
Qed.

Lemma process_threads_keeps ts m r :
  filed ts r -> filed (process_threads ts m) r.
Proof.
  intros H. unfold process_threads.
  destruct (retained m); [now apply file_message_keeps | exact H].
Qed.

Lemma fold_process_keeps records ts r :
  filed ts r -> filed (fold_left process_threads records ts) r.
Proof.
  revert ts. induction records as [|m records IH]; intros ts H; simpl.
  - exact H.
  - apply IH. now apply process_threads_keeps.
Qed.

Lemma fold_process_files records ts r :
  In r records -> retained r = true ->
  filed (fold_left process_threads records ts) r.
Proof.
  revert ts. induction records as [|m records IH]; intros ts Hin Hr; simpl.
  - destruct Hin.
  - destruct Hin as [->|Hin].
    + apply fold_process_keeps. unfold process_threads. rewrite Hr.
      apply file_message_files.
    + now apply IH.
Qed.

Lemma retained_record_filed records r :
  In r records -> retained r = true ->
  filed (threads (load_and_process_emails records)) r.
Proof. intros. rewrite load_threads. now apply fold_process_files. Qed.

Lemma same_key_same_thread records r1 r2 :
  thread_key (subject r1) = thread_key (subject r2) ->
  In r1 records -> In r2 records ->
  retained r1 = true -> retained r2 = true ->
  exists t,
    Dict.get (thread_key (subject r1))
             (threads (load_and_process_emails records)) = Some t
    /\ In r1 (messages t) /\ In r2 (messages t).
Proof.
  intros Hkey H1 H2 Hr1 Hr2.
  destruct (retained_record_filed records r1 H1 Hr1) as (t1 & Hg1 & Hm1).
  destruct (retained_record_filed records r2 H2 Hr2) as (t2 & Hg2 & Hm2).
  rewrite <- Hkey, Hg1 in Hg2. injection Hg2 as <-.
  exists t1. auto.
Qed.

(** C3. The key a record is filed under is a function of its normalized
    subject alone, and two records of one run whose subjects normalize to the
    same string have the same key and are in the same thread. *)
Theorem thread_key_of_normalized_subject
        (records : list Msg) (r1 r2 : Msg) :
  _normalize_subject (subject r1) = _normalize_subject (subject r2) ->
  In r1 records -> In r2 records ->
  retained r1 = true -> retained r2 = true ->
  thread_key (subject r1) = thread_key (subject r2)
  /\ (exists t,
        Dict.get (thread_key (subject r1))
                 (threads (load_and_process_emails records)) = Some t
        /\ In r1 (messages t) /\ In r2 (messages t))
  /\ (forall r : Msg,
        thread_key (subject r) = hash_key (_normalize_subject (subject r))).
Proof.
  intros Hnorm H1 H2 Hr1 Hr2.
  assert (Hkey : thread_key (subject r1) = thread_key (subject r2))
    by (unfold thread_key; now rewrite Hnorm).
  split; [exact Hkey|]. split; [|reflexivity].
  now apply same_key_same_thread.
Qed.

Lemma thread_key_of_normalized_subject_witness :
  thread_key (subject review_1) = thread_key (subject review_2).
Proof.
  apply (thread_key_of_normalized_subject review_thread review_1 review_2);
    try reflexivity; simpl; tauto.
Defined.

Lemma le_bytes_length k n : length (MD5.le_bytes k n) = k.
Proof.
  revert n. induction k as [|k IH]; intros n; simpl; [reflexivity|].
  now rewrite IH.
Qed.

Lemma digest_length msg : length (MD5.digest msg) = 16.
Proof.
  unfold MD5.digest.
  destruct (fold_left MD5.compress _ MD5.init) as [a b c d].
  rewrite !length_app, !le_bytes_length. reflexivity.
Qed.

Lemma hexdigest_length msg : length (MD5.hexdigest msg) = 32.
Proof.
  unfold MD5.hexdigest.
  assert (H : forall l, length (flat_map MD5.hex_byte l) = 2 * length l).
  { induction l as [|b l IH]; simpl; [reflexivity|]. rewrite IH. lia. }
  rewrite H, digest_length. reflexivity.
Qed.

Lemma hex_digit_is_hex n : is_hex (MD5.hex_digit n).
Proof.
  unfold is_hex, MD5.hex_digit.
  destruct (Nat.lt_ge_cases (N.to_nat n) (length $"0123456789abcdef"))
    as [Hlt|Hge].
  - now apply nth_In.
  - rewrite nth_overflow by exact Hge. simpl. tauto.
Qed.

Lemma hexdigest_is_hex msg : Forall is_hex (MD5.hexdigest msg).
Proof.
  unfold MD5.hexdigest. induction (MD5.digest msg) as [|b l IH]; simpl.
  - constructor.
  - constructor; [apply hex_digit_is_hex|].
    constructor; [apply hex_digit_is_hex | exact IH].
Qed.

Lemma hash_key_shape n : length (hash_key n) = 16 /\ Forall is_hex (hash_key n).
Proof.
  unfold hash_key, Str.upto. split.
  - rewrite length_firstn, hexdigest_length. reflexivity.
  - apply List.Forall_forall. intros c Hc. apply firstn_In in Hc.
    pose proof (hexdigest_is_hex (MD5.encode (Str.lower n))) as H.
    rewrite List.Forall_forall in H. now apply H.
Qed.

(** C9. Two records whose normalized subjects differ in letter case only
    get the same key, 16 hexadecimal characters computed from the lowercased
    normalized subject, and are in the same thread. *)
Theorem thread_key_ignores_case (records : list Msg) (r1 r2 : Msg) :
  Str.lower (_normalize_subject (subject r1))
  = Str.lower (_normalize_subject (subject r2)) ->
  In r1 records -> In r2 records ->
  retained r1 = true -> retained r2 = true ->
  thread_key (subject r1) = thread_key (subject r2)
  /\ thread_key (subject r1)
     = Str.upto 16
         (MD5.hexdigest
            (MD5.encode (Str.lower (_normalize_subject (subject r1)))))
  /\ length (thread_key (subject r1)) = 16
  /\ Forall is_hex (thread_key (subject r1))
  /\ exists t,
       Dict.get (thread_key (subject r1))
                (threads (load_and_process_emails records)) = Some t
       /\ In r1 (messages t) /\ In r2 (messages t).
Proof.
  intros Hlow H1 H2 Hr1 Hr2.
  assert (Hkey : thread_key (subject r1) = thread_key (subject r2))
    by (unfold thread_key, hash_key; now rewrite Hlow).
  split; [exact Hkey|]. split; [reflexivity|].
  destruct (hash_key_shape (_normalize_subject (subject r1))) as [Hlen Hhex].
  split; [exact Hlen|]. split; [exact Hhex|].
  now apply same_key_same_thread.
Qed.

Lemma thread_key_ignores_case_witness :
  _normalize_subject (subject upper_mail)
  <> _normalize_subject (subject lower_mail)
  /\ thread_key (subject upper_mail) = thread_key (subject lower_mail).
Proof.
  split; [discriminate|].
  apply (thread_key_ignores_case [upper_mail; lower_mail]
           upper_mail lower_mail); try reflexivity; simpl; tauto.
Defined.

(** ** Contributor counts *)

Lemma dict_set_total k v (c : Dict.t str nat) :
  Analyze.total (Dict.set k v c) + default 0 (Dict.get k c)
  = Analyze.total c + v.
Proof.
  unfold Analyze.total, Dict.values.
  induction c as [|[k' v'] c IH]; simpl.
  - lia.
  - destruct (decide (k' = k)); simpl; lia.
Qed.

Lemma incr_total k c : Analyze.total (Analyze.incr k c) = S (Analyze.total c).
Proof.
  unfold Analyze.incr.
  pose proof (dict_set_total k (S (default 0 (Dict.get k c))) c). lia.
Qed.

Lemma incr_get k k' c :
  Dict.get k' (Analyze.incr k c)
  = if decide (k = k') then Some (S (default 0 (Dict.get k c)))
    else Dict.get k' c.
Proof.
  unfold Analyze.incr. destruct (decide (k = k')) as [<-|Hne].
  - apply dict_get_set_eq.
  - now apply dict_get_set_ne.
Qed.

Lemma analyze_fold_emails es a :
  Analyze.emails (fold_left Analyze.analyze_step es a) = Analyze.emails a.
Proof.
  revert a. induction es as [|e es IH]; intros a; simpl; [reflexivity|].
  now rewrite IH.
Qed.

Lemma analyze_fold_total es a :
  Analyze.total (Analyze.authors (fold_left Analyze.analyze_step es a))
  = Analyze.total (Analyze.authors a) + length es.
Proof.
  revert a. induction es as [|e es IH]; intros a; simpl; [lia|].
  rewrite IH. simpl. rewrite incr_total. lia.
Qed.

Lemma list_sum_perm l l' : Permutation l l' -> list_sum l = list_sum l'.
Proof. induction 1; simpl; lia. Qed.

Lemma insert_desc_perm {A} (key : A -> nat) x l :
  Permutation (insert_desc key x l) (x :: l).
Proof.
  induction l as [|y l IH]; simpl; [reflexivity|].
  destruct (key y <? key x); [reflexivity|].
  rewrite IH. apply perm_swap.
Qed.

Lemma sort_desc_perm {A} (key : A -> nat) l : Permutation (sort_desc key l) l.
Proof.
  unfold sort_desc.
  enough (H : forall acc,
             Permutation (fold_left (fun acc x => insert_desc key x acc) l acc)
                         (acc ++ l)) by apply (H []).
  induction l as [|x l IH]; intros acc; simpl.
  - now rewrite app_nil_r.
  - rewrite IH, insert_desc_perm. simpl. apply Permutation_middle.
Qed.

Lemma list_sum_firstn n l : list_sum (firstn n l) <= list_sum l.
Proof.
  revert l. induction n as [|n IH]; intros [|x l]; simpl; try lia.
  specialize (IH l). lia.
Qed.

Lemma most_common_total n c :
  list_sum (map snd (Analyze.most_common n c)) <= Analyze.total c
  /\ (length c <= n ->
      list_sum (map snd (Analyze.most_common n c)) = Analyze.total c).
Proof.
  unfold Analyze.most_common, Analyze.total, Dict.values.
  assert (Hp : list_sum (map snd (sort_desc snd c)) = list_sum (map snd c)).
  { apply list_sum_perm, Permutation_map, sort_desc_perm. }
  split.
  - rewrite <- Hp, <- firstn_map. apply list_sum_firstn.
  - intros Hlen. rewrite firstn_all2; [exact Hp|].
    now rewrite (Permutation_length (sort_desc_perm snd c)).
Qed.

(** C8. In a run of the analyzer every record parsed is counted under
    exactly one contributor key, its lowercased author address, so the counts
    of all contributors sum to the number of records; the 30 top contributors
    account for all of it when there are at most 30 contributors. When
    [generate_summary] returns, these are the total and the contributors it
    reports. *)
Theorem contributor_counts_sum_to_records
        (parsed : list (option Analyze.email_data)) :
  let a := Analyze.run parsed in
  Analyze.emails a = omap id parsed
  /\ Analyze.total (Analyze.authors a) = length (Analyze.emails a)
  /\ (forall st e k,
        Dict.get k (Analyze.authors (Analyze.analyze_step st e))
        = if decide (Str.lower (Analyze.author_email e) = k)
          then Some (S (default 0 (Dict.get k (Analyze.authors st))))
          else Dict.get k (Analyze.authors st))
  /\ (forall st e,
        Analyze.total (Analyze.authors (Analyze.analyze_step st e))
        = S (Analyze.total (Analyze.authors st)))
  /\ list_sum (map snd (Analyze.get_top_contributors a 30))
     <= length (Analyze.emails a)
  /\ (length (Analyze.authors a) <= 30 ->
      list_sum (map snd (Analyze.get_top_contributors a 30))
      = length (Analyze.emails a))
  /\ forall s,
       Summary.generate_summary a = Returns s ->
       Summary.total_emails s = Analyze.total (Analyze.authors a)
       /\ list_sum (map snd (Summary.top_contributors s))
          <= Summary.total_emails s
       /\ (Summary.total_contributors s <= 30 ->
           list_sum (map snd (Summary.top_contributors s))
           = Summary.total_emails s).
Proof.
  intros a.
  assert (Hem : Analyze.emails a = omap id parsed).
  { unfold a, Analyze.run, Analyze.analyze. rewrite analyze_fold_emails.
    reflexivity. }
  assert (Htot : Analyze.total (Analyze.authors a) = length (Analyze.emails a)).
  { rewrite Hem. unfold a, Analyze.run, Analyze.analyze.
    rewrite analyze_fold_total. reflexivity. }
  pose proof (most_common_total 30 (Analyze.authors a)) as [Hle Heq].
  fold (Analyze.get_top_contributors a 30) in Hle, Heq. rewrite Htot in Hle, Heq.
  split; [exact Hem|]. split; [exact Htot|].
  split.
  { intros st e k.
    pose proof (incr_get (Analyze.author_key e) k (Analyze.authors st)) as H.
    change (Analyze.authors (Analyze.analyze_step st e))
      with (Analyze.incr (Analyze.author_key e) (Analyze.authors st)).
    rewrite H. unfold Analyze.author_key.
    destruct (decide _) as [<-|]; reflexivity. }
  split.
  { intros st e. exact (incr_total (Analyze.author_key e) _). }
  split; [exact Hle|]. split; [exact Heq|].
  intros s Hs. unfold Summary.generate_summary in Hs.
  destruct (Summary.min_of (Summary.periods a)); simpl in Hs; [|discriminate].
  destruct (Summary.max_of (Summary.periods a)); simpl in Hs; [|discriminate].
  destruct (Report.get_key_threads a); simpl in Hs; [|discriminate].
  injection Hs as <-.
  cbn [Summary.total_emails Summary.top_contributors
       Summary.total_contributors].
  split; [now rewrite Htot|]. split; [exact Hle | exact Heq].
Qed.

Lemma contributor_counts_sum_to_records_witness :
  Summary.total_emails sample_summary_value = 4
  /\ list_sum (map snd (Summary.top_contributors sample_summary_value))
     = Summary.total_emails sample_summary_value.
Proof.
  split; [reflexivity|].
  apply (contributor_counts_sum_to_records sample_parsed).
  - vm_compute. reflexivity.
  - vm_compute. lia.
Defined.

(** ** Subject normalization *)

Lemma sub_reply_id s : starts_with_reply s = false -> Re.sub_reply s = s.
Proof.
  destruct s as [|r [|e [|c s]]]; simpl; try reflexivity.
  now intros ->.
Qed.

Lemma sub_no_match m s : has_match m s = false -> Re.sub m s = s.
Proof.
  unfold Re.sub. induction s as [|c s IH]; simpl.
  - reflexivity.
  - destruct (m (c :: s)) as [[n r]|]; [discriminate|].
    intros H. now rewrite IH.
Qed.

Lemma lstrip_id s : head_space s = false -> Str.lstrip s = s.
Proof.
  unfold Str.lstrip. destruct s as [|c s]; simpl; [reflexivity|].
  now intros ->.
Qed.

Lemma lstrip_cons_space c s :
  Str.is_space c = true -> Str.lstrip (c :: s) = Str.lstrip s.
Proof. unfold Str.lstrip. simpl. now intros ->. Qed.

Lemma lstrip_head s : head_space (Str.lstrip s) = false.
Proof.
  induction s as [|c s IH]; [reflexivity|].
  destruct (Str.is_space c) eqn:Hc.
  - now rewrite lstrip_cons_space.
  - rewrite lstrip_id; simpl; exact Hc.
Qed.

Lemma lstrip_length s : length (Str.lstrip s) <= length s.
Proof. unfold Str.lstrip. rewrite length_skipn. lia. Qed.

Lemma rstrip_id s : ends_in_space s = false -> Str.rstrip s = s.
Proof.
  unfold Str.rstrip, ends_in_space. intros H.
  rewrite lstrip_id by exact H. apply rev_involutive.
Qed.

Lemma rstrip_prefix s : exists k, Str.rstrip s = firstn k s.
Proof.
  unfold Str.rstrip, Str.lstrip. exists (length s - Str.ws_run (rev s)).
  rewrite skipn_rev. apply rev_involutive.
Qed.

Lemma firstn_head_space k s :
  head_space s = false -> head_space (firstn k s) = false.
Proof. destruct k, s; simpl; auto. Qed.

Lemma single_spaced_tail c s : single_spaced (c :: s) = true -> single_spaced s = true.
Proof. simpl. intros H. now apply andb_prop in H as [_ H]. Qed.

Lemma single_spaced_skipn k s :
  single_spaced s = true -> single_spaced (skipn k s) = true.
Proof.
  revert s. induction k as [|k IH]; intros [|c s] H; simpl; auto.
  apply IH. now apply single_spaced_tail in H.
Qed.

Lemma single_spaced_firstn k s :
  single_spaced s = true -> single_spaced (firstn k s) = true.
Proof.
  revert s. induction k as [|k IH]; intros [|c s] H; simpl; auto.
  simpl in H. apply andb_prop in H as [Hc Hs].
  rewrite (IH s Hs), andb_true_r.
  destruct (Str.is_space c); [|reflexivity].
  apply andb_prop in Hc as [-> Hh]. simpl.
  apply negb_true_iff in Hh. now rewrite firstn_head_space.
Qed.

(** The whitespace substitution, by cases on the first character. *)
Lemma sub_ws_skip s :
  Re.sub_from Re.ws_plus (Str.ws_run s) s = Re.sub Re.ws_plus (Str.lstrip s).
Proof.
  induction s as [|c s IH]; [reflexivity|].
  destruct (Str.is_space c) eqn:Hc.
  - rewrite lstrip_cons_space by exact Hc. simpl. rewrite Hc. exact IH.
  - rewrite lstrip_id by (simpl; exact Hc). simpl. now rewrite Hc.
Qed.

Lemma sub_ws_cons c s :
  Re.sub Re.ws_plus (c :: s)
  = if Str.is_space c then " "%char :: Re.sub Re.ws_plus (Str.lstrip s)
    else c :: Re.sub Re.ws_plus s.
Proof.
  unfold Re.sub at 1. simpl. unfold Re.ws_plus at 1. simpl.
  destruct (Str.is_space c); [|reflexivity].
  simpl. now rewrite sub_ws_skip.
Qed.

Lemma sub_ws_head s :
  head_space s = false -> head_space (Re.sub Re.ws_plus s) = false.
Proof.
  destruct s as [|c s]; [reflexivity|]. simpl. intros Hc.
  rewrite sub_ws_cons, Hc. simpl. exact Hc.
Qed.

Lemma space_is_space : Str.is_space " " = true.
Proof. reflexivity. Qed.

Lemma sub_ws_single_spaced s : single_spaced (Re.sub Re.ws_plus s) = true.
Proof.
  remember (length s) as n eqn:Hn. revert s Hn.
  induction n as [n IH] using lt_wf_ind. intros [|c s] Hn; [reflexivity|].
  simpl in Hn. rewrite sub_ws_cons.
  destruct (Str.is_space c) eqn:Hc.
  - cbn [single_spaced]. rewrite space_is_space.
    rewrite sub_ws_head by apply lstrip_head. simpl.
    apply (IH (length (Str.lstrip s))); [|reflexivity].
    pose proof (lstrip_length s). lia.
  - cbn [single_spaced]. rewrite Hc. simpl.
    apply (IH (length s)); [lia | reflexivity].
Qed.

Lemma sub_ws_id s : single_spaced s = true -> Re.sub Re.ws_plus s = s.
Proof.
  induction s as [|c s IH]; [reflexivity|].
  intros H. simpl in H. apply andb_prop in H as [Hc Hs].
  rewrite sub_ws_cons. destruct (Str.is_space c).
  - apply andb_prop in Hc as [Heq Hh]. apply Ascii.eqb_eq in Heq as ->.
    apply negb_true_iff in Hh. rewrite lstrip_id by exact Hh.
    now rewrite IH.
  - now rewrite IH.
Qed.

Lemma strip_single_spaced s :
  single_spaced s = true -> single_spaced (Str.strip s) = true.
Proof.
  intros H. unfold Str.strip.
  destruct (rstrip_prefix (Str.lstrip s)) as [k ->].
  apply single_spaced_firstn. unfold Str.lstrip.
  now apply single_spaced_skipn.
Qed.

Lemma strip_head s : head_space (Str.strip s) = false.
Proof.
  unfold Str.strip. destruct (rstrip_prefix (Str.lstrip s)) as [k ->].
  apply firstn_head_space, lstrip_head.
Qed.

(** What every normalized subject has: single spaces, no whitespace in
    front, at most 100 characters. *)
Lemma normalized_shape s :
  single_spaced (_normalize_subject s) = true
  /\ head_space (_normalize_subject s) = false
  /\ length (_normalize_subject s) <= 100.
Proof.
  unfold _normalize_subject, Str.upto. repeat split.
  - apply single_spaced_firstn, strip_single_spaced, sub_ws_single_spaced.
  - apply firstn_head_space, strip_head.
  - apply firstn_le_length.
Qed.

(** A subject of that shape that is normal is left as it is. *)
Lemma normalize_fixed t :
  single_spaced t = true -> head_space t = false -> length t <= 100 ->
  is_normal t = true -> _normalize_subject t = t.
Proof.
  intros Hss Hh Hlen Hn. unfold is_normal in Hn.
  repeat (apply andb_prop in Hn as [Hn ?]).
  repeat match goal with
         | H : negb _ = true |- _ => apply negb_true_iff in H
         end.
  unfold _normalize_subject.
  rewrite sub_reply_id by assumption.
  rewrite (sub_no_match (Re.bracket_tag $"[PATCH")) by assumption.
  rewrite (sub_no_match (Re.bracket_tag $"[RFC")) by assumption.
  rewrite (sub_no_match (Re.bracket_tag $"[GIT")) by assumption.
  rewrite sub_ws_id by assumption.
  unfold Str.strip, Str.upto.
  rewrite lstrip_id by assumption. rewrite rstrip_id by assumption.
  now apply firstn_all2.
Qed.

(** *** No step of the normalization lengthens the subject *)

Lemma ws_run_length s : Str.ws_run s <= length s.
Proof.
  induction s as [|c s IH]; simpl; [lia|].
  destruct (Str.is_space c); simpl; lia.
Qed.

Lemma startswith_length p s : Str.startswith p s = true -> length p <= length s.
Proof.
  revert s. induction p as [|a p IH]; intros [|b s]; simpl; intros H;
    try lia; try discriminate.
  apply andb_prop in H as [_ H]. apply IH in H. lia.
Qed.

Lemma index_of_length c s i : Str.index_of c s = Some i -> i < length s.
Proof.
  revert i. induction s as [|a s IH]; simpl; intros i; [discriminate|].
  destruct (Ascii.eqb a c).
  - intros [= <-]. lia.
  - destruct (Str.index_of c s) as [j|]; simpl; [|discriminate].
    intros [= <-]. specialize (IH j eq_refl). lia.
Qed.

Lemma bracket_tag_erases open : open <> [] -> erases (Re.bracket_tag open).
Proof.
  intros Hopen s n r. unfold Re.bracket_tag.
  destruct (Str.startswith open s) eqn:Hs; [|discriminate].
  apply startswith_length in Hs.
  destruct (Str.index_of "]" (skipn (length open) s)) as [i|] eqn:Hi;
    [|discriminate].
  apply index_of_length in Hi. rewrite length_skipn in Hi.
  intros [= <- <-]. split; [|reflexivity].
  pose proof (ws_run_length (skipn (S i) (skipn (length open) s))) as Hw.
  rewrite !length_skipn in Hw.
  destruct open; [congruence|]. simpl in *. lia.
Qed.

Lemma erases_consumes m : erases m -> consumes m.
Proof.
  intros H s n r Hm. destruct (H s n r Hm) as [Hn ->]. simpl. split; lia.
Qed.

Lemma ws_plus_consumes : consumes Re.ws_plus.
Proof.
  intros s n r. unfold Re.ws_plus. pose proof (ws_run_length s).
  destruct (Str.ws_run s) as [|k]; [discriminate|].
  intros [= <- <-]. simpl. lia.
Qed.

Lemma sub_from_length m k s :
  consumes m -> k <= length s -> length (Re.sub_from m k s) + k <= length s.
Proof.
  intros Hm. revert k. induction s as [|c s IH]; intros k Hk; simpl in *.
  - lia.
  - destruct k as [|k].
    + destruct (m (c :: s)) as [[n r]|] eqn:Hmatch.
      * destruct (Hm _ _ _ Hmatch) as [Hn Hr]. simpl in Hn.
        rewrite length_app. specialize (IH (Nat.pred n)). lia.
      * simpl. specialize (IH 0). lia.
    + specialize (IH k). lia.
Qed.

Lemma sub_length m s : consumes m -> length (Re.sub m s) <= length s.
Proof.
  intros Hm. pose proof (sub_from_length m 0 s Hm). unfold Re.sub. lia.
Qed.

Lemma sub_strict m s :
  erases m -> has_match m s = true -> length (Re.sub m s) < length s.
Proof.
  intros Hm. unfold Re.sub. induction s as [|c s IH]; simpl.
  - destruct (m []) as [[n r]|] eqn:Hmatch; [|discriminate].
    destruct (Hm _ _ _ Hmatch) as [Hn _]. simpl in Hn. lia.
  - destruct (m (c :: s)) as [[n r]|] eqn:Hmatch.
    + intros _. destruct (Hm _ _ _ Hmatch) as [Hn ->]. simpl in Hn. simpl.
      pose proof (sub_from_length m (Nat.pred n) s (erases_consumes m Hm)).
      lia.
    + intros H. simpl. apply IH in H. lia.
Qed.

Lemma reply_rest_length s : length (Re.reply_rest s) <= length s.
Proof.
  remember (length s) as n eqn:Hn. revert s Hn.
  induction n as [n IH] using lt_wf_ind. intros [|c s] Hn; [simpl; lia|].
  simpl in Hn. simpl. destruct (Str.is_space c).
  - specialize (IH (length s) ltac:(lia) s eq_refl). lia.
  - destruct s as [|e [|col rest]]; simpl in *; try lia.
    destruct (Re.is_re c e col); simpl; [|lia].
    specialize (IH (length rest) ltac:(lia) rest eq_refl). lia.
Qed.

Lemma sub_reply_length s : length (Re.sub_reply s) <= length s.
Proof.
  destruct s as [|r [|e [|c s]]]; simpl; try lia.
  destruct (Re.is_re r e c); simpl; [|lia].
  pose proof (reply_rest_length s). lia.
Qed.

Lemma sub_reply_strict s :
  starts_with_reply s = true -> length (Re.sub_reply s) < length s.
Proof.
  destruct s as [|r [|e [|c s]]]; simpl; try discriminate.
  intros ->. pose proof (reply_rest_length s). lia.
Qed.

Lemma rstrip_length s : length (Str.rstrip s) <= length s.
Proof.
  unfold Str.rstrip. rewrite length_rev.
  pose proof (lstrip_length (rev s)). rewrite length_rev in *. lia.
Qed.

Lemma rstrip_strict s :
  ends_in_space s = true -> length (Str.rstrip s) < length s.
Proof.
  unfold ends_in_space, Str.rstrip, Str.lstrip. intros H.
  rewrite length_rev, length_skipn, <- (length_rev s).
  destruct (rev s) as [|c x]; simpl in *; [discriminate|].
  rewrite H. simpl. lia.
Qed.

(** A subject of the shape of a normalized one that [_normalize_subject]
    leaves as it is, is normal. *)
Lemma fixed_is_normal t :
  single_spaced t = true -> head_space t = false ->
  _normalize_subject t = t -> is_normal t = true.
Proof.
  intros Hss Hh Hfix. apply (f_equal (@length ascii)) in Hfix.
  unfold _normalize_subject, Str.upto, Str.strip in Hfix.
  assert (HP : erases (Re.bracket_tag $"[PATCH"))
    by now apply bracket_tag_erases.
  assert (HR : erases (Re.bracket_tag $"[RFC")) by now apply bracket_tag_erases.
  assert (HG : erases (Re.bracket_tag $"[GIT")) by now apply bracket_tag_erases.
  set (a := Re.sub_reply t) in *.
  set (b := Re.sub (Re.bracket_tag $"[PATCH") a) in *.
  set (c := Re.sub (Re.bracket_tag $"[RFC") b) in *.
  set (d := Re.sub (Re.bracket_tag $"[GIT") c) in *.
  set (e := Re.sub Re.ws_plus d) in *.
  pose proof (firstn_le_length 100 (Str.rstrip (Str.lstrip e))) as L7.
  pose proof (length_firstn 100 (Str.rstrip (Str.lstrip e))) as L7'.
  pose proof (rstrip_length (Str.lstrip e)) as L6.
  pose proof (lstrip_length e) as L5.
  pose proof (sub_length Re.ws_plus d ws_plus_consumes) as L4. fold e in L4.
  pose proof (sub_length _ c (erases_consumes _ HG)) as L3. fold d in L3.
  pose proof (sub_length _ b (erases_consumes _ HR)) as L2. fold c in L2.
  pose proof (sub_length _ a (erases_consumes _ HP)) as L1. fold b in L1.
  pose proof (sub_reply_length t) as L0. fold a in L0.
  assert (H0 : starts_with_reply t = false).
  { destruct (starts_with_reply t) eqn:E; [|reflexivity].
    apply sub_reply_strict in E. fold a in E. lia. }
  assert (Ea : a = t) by now apply sub_reply_id.
  assert (H1 : has_match (Re.bracket_tag $"[PATCH") t = false).
  { destruct (has_match (Re.bracket_tag $"[PATCH") t) eqn:E; [|reflexivity].
    apply (sub_strict _ _ HP) in E. rewrite <- Ea in E at 1. fold b in E. lia. }
  assert (Eb : b = t) by (unfold b; rewrite Ea; now apply sub_no_match).
  assert (H2 : has_match (Re.bracket_tag $"[RFC") t = false).
  { destruct (has_match (Re.bracket_tag $"[RFC") t) eqn:E; [|reflexivity].
    apply (sub_strict _ _ HR) in E. rewrite <- Eb in E at 1. fold c in E. lia. }
  assert (Ec : c = t) by (unfold c; rewrite Eb; now apply sub_no_match).
  assert (H3 : has_match (Re.bracket_tag $"[GIT") t = false).
  { destruct (has_match (Re.bracket_tag $"[GIT") t) eqn:E; [|reflexivity].
    apply (sub_strict _ _ HG) in E. rewrite <- Ec in E at 1. fold d in E. lia. }
  assert (Ed : d = t) by (unfold d; rewrite Ec; now apply sub_no_match).
  assert (Ee : e = t) by (unfold e; rewrite Ed; now apply sub_ws_id).
  assert (H4 : ends_in_space t = false).
  { destruct (ends_in_space t) eqn:E; [|reflexivity].
    apply rstrip_strict in E. rewrite Ee, (lstrip_id t Hh) in *. lia. }
  unfold is_normal. now rewrite H0, H1, H2, H3, H4.
Qed.

(** C2 (as the code has it). Normalizing a normalized subject returns it
    unchanged exactly when the normalized subject does not itself begin with
    a reply marker, holds no bracketed PATCH, RFC or GIT tag and does not end
    in whitespace. *)
Theorem normalize_idempotent_iff_normal (s : str) :
  _normalize_subject (_normalize_subject s) = _normalize_subject s
  <-> is_normal (_normalize_subject s) = true.
Proof.
  destruct (normalized_shape s) as (Hss & Hh & Hlen). split.
  - now apply fixed_is_normal.
  - now apply normalize_fixed.
Qed.

Lemma normalize_idempotent_iff_normal_witness :
  is_normal
    (_normalize_subject
       $"Re: Re: [PATCH v2 3/5] sparse: fix type cast warning") = true
  /\ _normalize_subject
       (_normalize_subject
          $"Re: Re: [PATCH v2 3/5] sparse: fix type cast warning")
     = _normalize_subject
         $"Re: Re: [PATCH v2 3/5] sparse: fix type cast warning".
Proof.
  split; [reflexivity|].
  apply (normalize_idempotent_iff_normal
           $"Re: Re: [PATCH v2 3/5] sparse: fix type cast warning").
  reflexivity.
Defined.

(** A reply marker behind a tag survives the first normalization and is
    removed by the second. *)
Lemma normalize_not_idempotent :
  _normalize_subject $"[PATCH] Re: fix cast" = $"Re: fix cast"
  /\ _normalize_subject (_normalize_subject $"[PATCH] Re: fix cast")
     = $"fix cast"
  /\ _normalize_subject (_normalize_subject $"[PATCH] Re: fix cast")
     <> _normalize_subject $"[PATCH] Re: fix cast".
Proof. repeat split; try reflexivity. discriminate. Qed.

(** ** Threads by year *)

Lemma organize_as_one_loop topics st :
  fold_left (fun st '(category_id, threads_list) =>
               fold_left (Years.visit category_id) threads_list st)
            topics st
  = fold_left (fun st x => Years.visit (fst x) st (snd x))
              (Years.occurrences topics) st.
Proof.
  revert st. induction topics as [|[cat ths] topics IH]; intros st; simpl.
  - reflexivity.
  - rewrite fold_left_app, IH. f_equal.
    clear. revert st. induction ths as [|t ths IH]; intros st; simpl.
    + reflexivity.
    + apply IH.
Qed.

Lemma emitted_add yd y c info :
  Years.threads info
  = Years.threads (default Years.new_year (Dict.get y yd)) ++ [c] ->
  exists l1 l2,
    Years.emitted yd = l1 ++ l2
    /\ Years.emitted (Dict.set y info yd) = l1 ++ c :: l2.
Proof.
  unfold Years.emitted, Dict.values.
  induction yd as [|[y' info'] yd IH]; simpl; intros Hinfo.
  - exists [], []. split; [reflexivity|].
    rewrite app_nil_r, Hinfo. reflexivity.
  - destruct (decide (y' = y)) as [->|Hne]; simpl in *.
    + exists (Years.threads info'), (flat_map Years.threads (map snd yd)).
      split; [reflexivity|]. rewrite Hinfo. now rewrite <- app_assoc.
    + destruct (IH Hinfo) as (l1 & l2 & H1 & H2).
      exists (Years.threads info' ++ l1), l2.
      rewrite H1, H2. now rewrite !app_assoc.
Qed.

Lemma filter_insert_other {A} (f : A -> bool) l1 l2 c :
  f c = false -> List.filter f (l1 ++ c :: l2) = List.filter f (l1 ++ l2).
Proof.
  intros Hc. rewrite !List.filter_app. simpl. now rewrite Hc.
Qed.

Lemma filter_insert_first {A} (f : A -> bool) l1 l2 c :
  f c = true -> List.filter f (l1 ++ l2) = [] ->
  List.filter f (l1 ++ c :: l2) = [c].
Proof.
  intros Hc. rewrite !List.filter_app. simpl. rewrite Hc.
  intros H. apply app_eq_nil in H as [-> ->]. reflexivity.
Qed.

Lemma visited_start : Years.visited [] Years.start.
Proof.
  split.
  - intros k. split.
    + intros H. now apply not_elem_of_empty in H.
    + intros (x & [] & _).
  - reflexivity.
Qed.

Lemma filter_has_key_nil k l :
  List.filter (Years.has_key k) (map Years.copy_of l) = []
  <-> forall x, In x l -> Years.thread_key (snd x) <> k.
Proof.
  induction l as [|x l IH]; simpl.
  - split; [intros _ x [] | reflexivity].
  - unfold Years.has_key at 1. simpl. case_bool_decide as Hk.
    + split; [discriminate|]. intros H. exfalso. apply (H x); auto.
    + rewrite IH. split.
      * intros H x' [<-|Hin]; auto.
      * intros H x' Hin. apply H. now right.
Qed.

Lemma visited_step seen st cat t :
  Years.visited seen st ->
  Years.visited (seen ++ [(cat, t)]) (Years.visit cat st t).
Proof.
  intros [Hproc Hemit]. unfold Years.visit. case_bool_decide as Hk.
  - (* the key was met before: nothing changes *)
    split.
    + intros k. rewrite Hproc. split.
      * intros (x & Hin & Hx). exists x. split; [|exact Hx].
        apply in_or_app. now left.
      * intros (x & Hin & Hx). apply in_app_or in Hin as [Hin|[<-|[]]].
        -- now exists x.
        -- simpl in Hx. subst k. now apply Hproc.
    + intros k. rewrite Hemit, map_app, List.filter_app.
      destruct (List.filter (Years.has_key k) (map Years.copy_of seen))
        as [|c l] eqn:Hf; [|reflexivity].
      simpl. unfold Years.has_key at 1. simpl. case_bool_decide as Hk'.
      * exfalso. apply Hproc in Hk as (x & Hin & Hx).
        rewrite filter_has_key_nil in Hf. apply (Hf x Hin). congruence.
      * reflexivity.
  - (* a new key: one copy is added to the year of the thread *)
    assert (Hnew : List.filter (Years.has_key (Years.thread_key t))
                               (map Years.copy_of seen) = []).
    { apply filter_has_key_nil. intros x Hin Hx. apply Hk, Hproc. eauto. }
    split; simpl.
    + intros k. rewrite elem_of_union, elem_of_singleton, Hproc. split.
      * intros [(x & Hin & Hx)| ->].
        -- exists x. split; [apply in_or_app; now left | exact Hx].
        -- exists (cat, t). split; [apply in_or_app; right; now left|].
           reflexivity.
      * intros (x & Hin & Hx). apply in_app_or in Hin as [Hin|[<-|[]]].
        -- left. now exists x.
        -- right. now symmetry.
    + intros k.
      destruct (emitted_add (Years.yearly_data st) (Years.bucket t)
                  {| Years.copied := t; Years.primary_category := cat |}
                  (Years.add_thread cat t
                     (default Years.new_year
                        (Dict.get (Years.bucket t) (Years.yearly_data st))))
                  eq_refl) as (l1 & l2 & H1 & H2).
      rewrite H2. specialize (Hemit k). rewrite H1 in Hemit.
      rewrite map_app, (List.filter_app _ (map Years.copy_of seen)).
      set (c := {| Years.copied := t; Years.primary_category := cat |}) in *.
      change (map Years.copy_of [(cat, t)]) with [c].
      destruct (decide (Years.thread_key t = k)) as [<-|Hne].
      * rewrite Hnew in *. simpl in Hemit.
        assert (Hc : Years.has_key (Years.thread_key t) c = true)
          by now apply bool_decide_eq_true.
        simpl. rewrite Hc. simpl. now apply filter_insert_first.
      * assert (Hc : Years.has_key k c = false)
          by now apply bool_decide_eq_false.
        simpl. rewrite Hc, app_nil_r, <- Hemit.
        now apply filter_insert_other.
Qed.

Lemma visited_fold l seen st :
  Years.visited seen st ->
  Years.visited (seen ++ l)
    (fold_left (fun st x => Years.visit (fst x) st (snd x)) l st).
Proof.
  revert seen st. induction l as [|[cat t] l IH]; intros seen st H; simpl.
  - now rewrite app_nil_r.
  - rewrite (app_assoc seen [(cat, t)] l : seen ++ (cat, t) :: l = _).
    apply IH. now apply visited_step.
Qed.

Lemma organize_visited topics :
  Years.visited (Years.occurrences topics) (Years.organize_by_year topics).
Proof.
  unfold Years.organize_by_year. rewrite organize_as_one_loop.
  apply (visited_fold _ [] _ visited_start).
Qed.

Lemma visit_well_bucketed cat st t :
  Years.well_bucketed (Years.yearly_data st) ->
  Years.well_bucketed (Years.yearly_data (Years.visit cat st t)).
Proof.
  intros Hwb. unfold Years.visit. case_bool_decide; [exact Hwb|]. simpl.
  intros y info c Hin Hc. apply dict_set_In in Hin as [Heq|Hin].
  - injection Heq as -> ->. simpl in Hc. apply in_app_or in Hc as [Hc|[<-|[]]].
    + destruct (Dict.get (Years.bucket t) (Years.yearly_data st))
        as [old|] eqn:Hget; simpl in Hc; [|destruct Hc].
      apply dict_get_In in Hget. now apply (Hwb _ old).
    + reflexivity.
  - now apply (Hwb y info).
Qed.

Lemma organize_well_bucketed topics :
  Years.well_bucketed (Years.yearly_data (Years.organize_by_year topics)).
Proof.
  unfold Years.organize_by_year. rewrite organize_as_one_loop.
  assert (H : Years.well_bucketed (Years.yearly_data Years.start))
    by (intros ? ? ? []).
  revert H. generalize Years.start.
  induction (Years.occurrences topics) as [|x l IH]; intros st H; simpl.
  - exact H.
  - apply IH. now apply visit_well_bucketed.
Qed.

Lemma filter_nil_existsb {A} (f : A -> bool) l :
  List.filter f l = [] -> existsb f l = false.
Proof.
  induction l as [|a l IH]; simpl; [reflexivity|].
  destruct (f a); [discriminate | exact IH].
Qed.

Lemma filter_cons_existsb {A} (f : A -> bool) l c r :
  List.filter f l = c :: r -> existsb f l = true /\ In c l.
Proof.
  intros H. assert (Hin : In c (List.filter f l)) by (rewrite H; now left).
  apply filter_In in Hin as [Hin Hc]. split; [|exact Hin].
  apply existsb_exists. eauto.
Qed.

Lemma years_of_nil k yd :
  List.filter (Years.has_key k) (Years.emitted yd) = [] ->
  Years.years_of k yd = [].
Proof.
  unfold Years.years_of, Years.emitted, Dict.values.
  induction yd as [|[y info] yd IH]; simpl; [reflexivity|].
  rewrite List.filter_app. intros H. apply app_eq_nil in H as [H1 H2].
  rewrite (filter_nil_existsb _ _ H1). now apply IH.
Qed.

Lemma years_of_single k yd c :
  Years.well_bucketed yd ->
  List.filter (Years.has_key k) (Years.emitted yd) = [c] ->
  Years.years_of k yd = [Years.bucket (Years.copied c)].
Proof.
  induction yd as [|[y info] yd IH]; intros Hwb; [discriminate|].
  assert (Hwb' : Years.well_bucketed yd).
  { intros y' i' c' Hin. apply (Hwb y' i' c'). now right. }
  unfold Years.years_of, Years.emitted, Dict.values in *. simpl.
  rewrite List.filter_app. intros H. apply app_eq_unit in H as [[H1 H2]|[H1 H2]].
  - rewrite (filter_nil_existsb _ _ H1). now apply IH.
  - apply filter_cons_existsb in H1 as [-> Hin]. simpl.
    rewrite (Hwb y info c) by (simpl; auto). f_equal.
    now apply (years_of_nil k yd).
Qed.

Lemma firstn_1_length {A} (l : list A) : length (firstn 1 l) <= 1.
Proof. destruct l; simpl; lia. Qed.

(** C10. The first thread of the document with a given normalized subject
    (its subject when that entry is missing) is copied once, into the year
    of the thread, with the category under which it was met as its primary
    category; later threads with the same key are skipped, so no key is
    found more than once, nor in more than one year. *)
Theorem first_occurrence_emitted_once
        (topics : Dict.t str (list Years.thread))
        (pre post : list (str * Years.thread))
        (category_id : str) (t : Years.thread) :
  Years.occurrences topics = pre ++ (category_id, t) :: post ->
  (forall x, In x pre -> Years.thread_key (snd x) <> Years.thread_key t) ->
  let yd := Years.yearly_data (Years.organize_by_year topics) in
  List.filter (Years.has_key (Years.thread_key t)) (Years.emitted yd)
  = [ {| Years.copied := t; Years.primary_category := category_id |} ]
  /\ Years.years_of (Years.thread_key t) yd = [Years.bucket t]
  /\ forall k,
       length (List.filter (Years.has_key k) (Years.emitted yd)) <= 1
       /\ length (Years.years_of k yd) <= 1.
Proof.
  intros Hocc Hpre yd.
  destruct (organize_visited topics) as [_ Hemit]. fold yd in Hemit.
  pose proof (organize_well_bucketed topics) as Hwb. fold yd in Hwb.
  assert (H1 : List.filter (Years.has_key (Years.thread_key t))
                           (Years.emitted yd)
               = [ {| Years.copied := t;
                      Years.primary_category := category_id |} ]).
  { rewrite Hemit, Hocc, map_app, List.filter_app.
    rewrite (proj2 (filter_has_key_nil _ pre) Hpre). simpl.
    unfold Years.has_key at 1. simpl. now rewrite bool_decide_eq_true_2. }
  split; [exact H1|]. split.
  - now rewrite (years_of_single _ _ _ Hwb H1).
  - intros k. assert (Hk : length (List.filter (Years.has_key k)
                                                (Years.emitted yd)) <= 1).
    { rewrite Hemit. apply firstn_1_length. }
    split; [exact Hk|].
    destruct (List.filter (Years.has_key k) (Years.emitted yd))
      as [|c [|c' r]] eqn:Hf.
    + rewrite (years_of_nil _ _ Hf). simpl. lia.
    + rewrite (years_of_single _ _ _ Hwb Hf). simpl. lia.
    + simpl in Hk. lia.
Qed.

Lemma first_occurrence_emitted_once_witness :
  let yd := Years.yearly_data (Years.organize_by_year topics_sample) in
  List.filter (Years.has_key (Years.thread_key fix_cast_thread))
              (Years.emitted yd)
  = [ {| Years.copied := fix_cast_thread;
         Years.primary_category := $"type_system" |} ]
  /\ Years.years_of (Years.thread_key fix_cast_thread) yd
     = [Years.bucket fix_cast_thread]
  /\ forall k,
       length (List.filter (Years.has_key k) (Years.emitted yd)) <= 1
       /\ length (Years.years_of k yd) <= 1.
Proof.
  apply (first_occurrence_emitted_once topics_sample []
           (tl (Years.occurrences topics_sample))
           $"type_system" fix_cast_thread).
  - reflexivity.
  - intros x [].
Defined.

Example organize_sample :
  map (fun '(y, info) =>
         (y, map (fun c => (Years.thread_key (Years.copied c),
                            Years.primary_category c))
                 (Years.threads info)))
      (Years.yearly_data (Years.organize_by_year topics_sample))
  = [ ($"2010", [ ($"fix cast", $"type_system") ]);
      ($"unknown", [ ($"endian check", $"type_system") ]);
      ($"1999", [ ($"new flag", $"rfc_proposals") ]) ].
Proof. vm_compute. reflexivity. Qed.

(** ** Timestamps *)

Lemma first_parsed_first strptime text pre fmt post d :
  Forall (fun f => strptime text f = None) pre ->
  strptime text fmt = Some d ->
  first_parsed strptime text (pre ++ fmt :: post) = Some d.
Proof.
  induction 1 as [|f pre Hf _ IH]; simpl; intros Hd.
  - now rewrite Hd.
  - rewrite Hf. now apply IH.
Qed.

Lemma first_parsed_none strptime text formats :
  Forall (fun f => strptime text f = None) formats ->
  first_parsed strptime text formats = None.
Proof.
  induction 1 as [|f formats Hf _ IH]; simpl; [reflexivity|].
  now rewrite Hf.
Qed.

Lemma parse_date_none strptime date_str :
  Forall (fun f => strptime (clean_date date_str) f = None) DATE_FORMATS ->
  parse_date strptime date_str = None.
Proof.
  intros H. unfold parse_date. destruct date_str; [reflexivity|].
  now apply first_parsed_none.
Qed.

Lemma undated_thread_dates t :
  Forall (fun x => date x = None) (messages t) -> dates t = [].
Proof.
  unfold dates. induction 1 as [|x l Hx _ IH]; simpl; [reflexivity|].
  now rewrite Hx.
Qed.

Lemma sort_by_date_naive {A} reverse (key : A -> datetime) l :
  Forall (fun x => dt_utcoffset (key x) = None) l ->
  exists sorted, sort_by_date reverse key l = Returns sorted.
Proof.
  intros H. unfold sort_by_date, mixed_kinds.
  assert (E : existsb (fun d => negb (bool_decide (dt_utcoffset d = None)))
                      (map key l) = false).
  { induction H as [|x l Hx _ IH]; simpl; [reflexivity|].
    now rewrite (bool_decide_eq_true_2 _ Hx), IH. }
  rewrite E, andb_false_r. eauto.
Qed.

Lemma undated_thread_to_dict t :
  Forall (fun x => date x = None) (messages t) ->
  exists d, to_dict t = Returns d
            /\ td_first_date d = None /\ td_year d = None.
Proof.
  intros H. unfold to_dict, get_first_date, get_last_date.
  rewrite (undated_thread_dates t H). simpl.
  destruct (sort_by_date_naive false (fun m => default DT.min (date m))
                               (messages t)) as [sorted ->].
  { eapply List.Forall_impl; [|exact H]. intros m Hm. now rewrite Hm. }
  simpl. eexists. split; [reflexivity|]. split; reflexivity.
Qed.

(** C7 (as the code has it). The formats are tried in their fixed order and
    the first that parses gives the timestamp; when none parses the timestamp
    is left unset and the record is produced all the same, with the names of
    its directories as year and month. The threads do not fall back to these:
    a thread none of whose messages has a timestamp has no first date and no
    year. *)
Theorem timestamp_first_format_or_unset
        (strptime : str -> str -> option datetime) (raw : raw_message) :
  Str.is_blank (raw_subject raw) = false ->
  exists m,
    parse_mbox_file strptime raw = Some m
    /\ year m = raw_year_dir raw /\ month m = raw_month_dir raw
    /\ (forall pre fmt post d,
          raw_date raw <> [] ->
          DATE_FORMATS = pre ++ fmt :: post ->
          Forall (fun f => strptime (clean_date (raw_date raw)) f = None) pre ->
          strptime (clean_date (raw_date raw)) fmt = Some d ->
          date m = Some d)
    /\ (Forall (fun f => strptime (clean_date (raw_date raw)) f = None)
               DATE_FORMATS ->
        date m = None)
    /\ (forall t,
          Forall (fun x => date x = None) (messages t) ->
          exists d, to_dict t = Returns d
                    /\ td_first_date d = None /\ td_year d = None).
Proof.
  intros Hsubj. unfold parse_mbox_file. rewrite Hsubj.
  destruct (extract_author (raw_from raw)) as [name addr].
  eexists. split; [reflexivity|]. simpl.
  split; [reflexivity|]. split; [reflexivity|]. split.
  - intros pre fmt post d Hne Hfmts Hpre Hd. unfold parse_date.
    destruct (raw_date raw) as [|c r] eqn:Hdate; [congruence|].
    rewrite Hfmts. now apply first_parsed_first.
  - split; [apply parse_date_none | apply undated_thread_to_dict].
Qed.

Lemma timestamp_first_format_or_unset_witness :
  exists m,
    parse_mbox_file strptime_sample raw_dated = Some m
    /\ date m = Some (Datetime 2010 3 1 10 0 0 0 (Some 0%Z)).
Proof.
  destruct (timestamp_first_format_or_unset strptime_sample raw_dated eq_refl)
    as (m & Hm & _ & _ & Hfirst & _).
  exists m. split; [exact Hm|].
  apply (Hfirst [ $"%a, %d %b %Y %H:%M:%S %z" ] $"%d %b %Y %H:%M:%S %z"
                [ $"%a, %d %b %Y %H:%M:%S"; $"%d %b %Y %H:%M:%S" ]).
  - discriminate.
  - reflexivity.
  - repeat constructor.
  - reflexivity.
Defined.

(** A record whose date does not parse is filed with the year of its
    directory, and its thread has no year. *)
Lemma unparsed_year_not_recovered :
  parse_mbox_file strptime_sample raw_undated = Some undated_mail
  /\ date undated_mail = None
  /\ year undated_mail = $"2010"
  /\ map (fun t => d ← to_dict t; Returns (td_message_count d, td_year d))
         (Dict.values (threads (load_and_process_emails [undated_mail])))
     = [ Returns (1, None) ].
Proof. repeat split. Qed.

(** ** Examples *)

Example normalize_after_truncation :
  _normalize_subject (repeat "a"%char 99 ++ $" b") = repeat "a"%char 99 ++ $" "
  /\ _normalize_subject (repeat "a"%char 99 ++ $" ") = repeat "a"%char 99.
Proof. split; vm_compute; reflexivity. Qed.

Example normalize_tag_in_tag :
  _normalize_subject $"[PA[RFC]TCH] x" = $"[PATCH] x"
  /\ _normalize_subject $"[PATCH] x" = $"x".
Proof. split; reflexivity. Qed.

Example normalize_after_strip :
  _normalize_subject $" Re: x" = $"Re: x"
  /\ _normalize_subject $"Re: x" = $"x".
Proof. split; reflexivity. Qed.

Example normalize_ex_series :
  _normalize_subject $"Re: Re: [PATCH v2 3/5] sparse: fix type cast warning"
  = $"sparse: fix type cast warning".
Proof. reflexivity. Qed.

Example md5_empty : MD5.hexdigest [] = $"d41d8cd98f00b204e9800998ecf8427e".
Proof. vm_compute. reflexivity. Qed.

Example md5_abc :
  MD5.hexdigest (MD5.encode $"abc") = $"900150983cd24fb0d6963f7d28e17f72".
Proof. vm_compute. reflexivity. Qed.

Example md5_two_blocks :
  MD5.hexdigest (MD5.encode (repeat "a"%char 70))
  = $"0f5c6c4e740bfcc08c3c26ccb2673d46".
Proof. vm_compute. reflexivity. Qed.

Example md5_b55 :
  MD5.hexdigest (MD5.encode (repeat "b"%char 55))
  = $"73979428bc0de15c39d14ae331b35295".
Proof. vm_compute. reflexivity. Qed.
Example md5_b56 :
  MD5.hexdigest (MD5.encode (repeat "b"%char 56))
  = $"b9d955696c7654cd20086bec31670b11".
Proof. vm_compute. reflexivity. Qed.
Example md5_b64 :
  MD5.hexdigest (MD5.encode (repeat "b"%char 64))
  = $"0b649bcb5a82868817fec9a6e709d233".
Proof. vm_compute. reflexivity. Qed.

Example md5_latin1 :
  MD5.hexdigest (MD5.encode ($"caf" ++ ["233"%char; " "%char; "255"%char]))
  = $"4c7b99498b1036aa5d97d8194182994a".
Proof. vm_compute. reflexivity. Qed.

Example review_thread_decision :
  (ds ← extract_key_decisions (threads (load_and_process_emails review_thread));
   Returns (map (fun d => (d_message_count d, length (d_participants d), d_outcome d)) ds))
  = Returns [(5, 3, Some $"merged")].
Proof. vm_compute. reflexivity. Qed.

Example three_message_thread_not_significant :
  extract_key_decisions
    (threads (load_and_process_emails [review_1; review_2; review_3]))
  = Returns [].
Proof. vm_compute. reflexivity. Qed.

Example same_thread_ex :
  thread_key $"[PATCH] add __iomem check" = thread_key $"Re: [PATCH] add __iomem check"
  /\ thread_key $"[PATCH] add __iomem check" = $"55c1e195271a808f".
Proof. vm_compute. split; reflexivity. Qed.

(** * Further properties of the scripts *)

(** ** Normalized subjects *)

Lemma reply_rest_lstrip t : Re.reply_rest t = Re.sub_reply (Str.lstrip t).
Proof.
  induction t as [|c t IH]; [reflexivity|].
  destruct (Str.is_space c) eqn:Hc.
  - rewrite lstrip_cons_space by exact Hc. simpl. now rewrite Hc.
  - rewrite lstrip_id by (simpl; exact Hc). simpl. rewrite Hc.
    destruct t as [|e [|col rest]]; reflexivity.
Qed.

Lemma sub_from_skip m p s :
  Re.sub_from m (length p) (p ++ s) = Re.sub m s.
Proof. induction p as [|c p IH]; simpl; [reflexivity | exact IH]. Qed.

Lemma index_of_app_first c x t :
  Str.index_of c x = None -> Str.index_of c (x ++ c :: t) = Some (length x).
Proof.
  induction x as [|a x IH]; simpl.
  - now rewrite Ascii.eqb_refl.
  - destruct (Ascii.eqb a c); [discriminate|].
    destruct (Str.index_of c x); [discriminate|]. intros _.
    now rewrite IH.
Qed.

Lemma lstrip_split t : t = firstn (Str.ws_run t) t ++ Str.lstrip t.
Proof. unfold Str.lstrip. now rewrite firstn_skipn. Qed.

(** X1. A normalized subject has at most 100 characters and no more than the
    subject it comes from, does not begin with whitespace, and holds no
    whitespace but single spaces. *)
Theorem normalized_subject_is_bounded (s : str) :
  length (_normalize_subject s) <= 100
  /\ length (_normalize_subject s) <= length s
  /\ head_space (_normalize_subject s) = false
  /\ single_spaced (_normalize_subject s) = true.
Proof.
  destruct (normalized_shape s) as (Hss & Hh & Hlen).
  split; [exact Hlen|]. split; [|split; assumption].
  unfold _normalize_subject, Str.upto, Str.strip.
  assert (HP : erases (Re.bracket_tag $"[PATCH"))
    by now apply bracket_tag_erases.
  assert (HR : erases (Re.bracket_tag $"[RFC")) by now apply bracket_tag_erases.
  assert (HG : erases (Re.bracket_tag $"[GIT")) by now apply bracket_tag_erases.
  set (a := Re.sub_reply s).
  set (b := Re.sub (Re.bracket_tag $"[PATCH") a).
  set (c := Re.sub (Re.bracket_tag $"[RFC") b).
  set (d := Re.sub (Re.bracket_tag $"[GIT") c).
  set (e := Re.sub Re.ws_plus d).
  pose proof (firstn_le_length 100 (Str.rstrip (Str.lstrip e))) as L7.
  pose proof (length_firstn 100 (Str.rstrip (Str.lstrip e))) as L7'.
  pose proof (rstrip_length (Str.lstrip e)) as L6.
  pose proof (lstrip_length e) as L5.
  pose proof (sub_length Re.ws_plus d ws_plus_consumes) as L4. fold e in L4.
  pose proof (sub_length _ c (erases_consumes _ HG)) as L3. fold d in L3.
  pose proof (sub_length _ b (erases_consumes _ HR)) as L2. fold c in L2.
  pose proof (sub_length _ a (erases_consumes _ HP)) as L1. fold b in L1.
  pose proof (sub_reply_length s) as L0. fold a in L0.
  lia.
Qed.

(** X2. A reply marker in front of a subject does not change what it
    normalizes to, whatever the case of the marker and the whitespace behind
    it: the reply has the thread key of the subject replied to. *)
Theorem reply_marker_keeps_thread (r e c : ascii) (t : str) :
  Re.is_re r e c = true ->
  _normalize_subject (r :: e :: c :: t) = _normalize_subject (Str.lstrip t)
  /\ thread_key (r :: e :: c :: t) = thread_key (Str.lstrip t).
Proof.
  intros Hre.
  assert (H : _normalize_subject (r :: e :: c :: t)
              = _normalize_subject (Str.lstrip t)).
  { unfold _normalize_subject. cbn [Re.sub_reply]. rewrite Hre.
    now rewrite reply_rest_lstrip. }
  split; [exact H|]. unfold thread_key. now rewrite H.
Qed.

Lemma reply_marker_keeps_thread_witness :
  thread_key $"RE:   sparse: fix cast" = thread_key $"sparse: fix cast".
Proof.
  apply (reply_marker_keeps_thread "R" "E" ":" $"   sparse: fix cast").
  reflexivity.
Defined.

(** X3. A bracketed PATCH tag in front of a subject is removed with the
    whitespace behind it: when what follows does not begin with a reply
    marker, the tagged subject normalizes to what the rest normalizes to and
    has its thread key. *)
Theorem patch_tag_keeps_thread (x t : str) :
  Str.index_of "]" x = None ->
  starts_with_reply (Str.lstrip t) = false ->
  _normalize_subject ($"[PATCH" ++ x ++ "]"%char :: t)
  = _normalize_subject (Str.lstrip t)
  /\ thread_key ($"[PATCH" ++ x ++ "]"%char :: t) = thread_key (Str.lstrip t).
Proof.
  intros Hx Ht.
  assert (H : _normalize_subject ($"[PATCH" ++ x ++ "]"%char :: t)
              = _normalize_subject (Str.lstrip t)).
  { unfold _normalize_subject.
    rewrite (sub_reply_id (Str.lstrip t)) by exact Ht.
    change (Re.sub_reply ($"[PATCH" ++ x ++ "]"%char :: t))
      with ($"[PATCH" ++ x ++ "]"%char :: t).
    assert (Hsub : Re.sub (Re.bracket_tag $"[PATCH")
                          ($"[PATCH" ++ x ++ "]"%char :: t)
                   = Re.sub (Re.bracket_tag $"[PATCH") (Str.lstrip t)).
    { unfold Re.sub at 1.
      change ($"[PATCH" ++ x ++ "]"%char :: t)
        with ("["%char :: $"PATCH" ++ x ++ "]"%char :: t).
      cbn [Re.sub_from]. unfold Re.bracket_tag at 1.
      change (Str.startswith $"[PATCH"
                ("["%char :: $"PATCH" ++ x ++ "]"%char :: t)) with true.
      cbv iota.
      change (skipn (length $"[PATCH")
                ("["%char :: $"PATCH" ++ x ++ "]"%char :: t))
        with (x ++ "]"%char :: t).
      rewrite (index_of_app_first _ _ _ Hx).
      replace (skipn (S (length x)) (x ++ "]"%char :: t)) with t
        by (rewrite (skipn_app (S (length x))), skipn_all2 by lia;
            replace (S (length x) - length x) with 1 by lia; reflexivity).
      cbn [app Nat.pred].
      rewrite (lstrip_split t) at 2.
      replace (length $"[PATCH" + S (length x) + Str.ws_run t)
        with (S (length ($"PATCH" ++ x ++ ["]"%char]
                         ++ firstn (Str.ws_run t) t))).
      2:{ rewrite !length_app, length_firstn. pose proof (ws_run_length t).
          simpl. lia. }
      cbn [Nat.pred].
      replace ($"PATCH" ++ x ++ "]"%char
               :: firstn (Str.ws_run t) t ++ Str.lstrip t)
        with (($"PATCH" ++ x ++ ["]"%char] ++ firstn (Str.ws_run t) t)
              ++ Str.lstrip t)
        by (rewrite <- !app_assoc; reflexivity).
      apply sub_from_skip. }
    now rewrite Hsub. }
  split; [exact H|]. unfold thread_key. now rewrite H.
Qed.

Lemma patch_tag_keeps_thread_witness :
  thread_key $"[PATCH v2 3/5]  add __iomem check"
  = thread_key $"add __iomem check".
Proof.
  apply (patch_tag_keeps_thread $" v2 3/5" $"  add __iomem check");
    reflexivity.
Defined.

(** ** The loop over the records *)

Lemma load_snoc records r :
  load_and_process_emails (records ++ [r])
  = process_message (load_and_process_emails records) r.
Proof. unfold load_and_process_emails. now rewrite fold_left_app. Qed.

Lemma dict_set_sum {V} (f : V -> nat) k v (d : Dict.t str V) :
  list_sum (map f (Dict.values (Dict.set k v d)))
  + default 0 (f <$> Dict.get k d)
  = list_sum (map f (Dict.values d)) + f v.
Proof.
  unfold Dict.values. induction d as [|[k' v'] d IH]; simpl.
  - lia.
  - destruct (decide (k' = k)); simpl; lia.
Qed.

Lemma file_message_total ts m :
  total_messages (file_message ts m) = S (total_messages ts).
Proof.
  unfold total_messages, file_message.
  pose proof (dict_set_sum (fun t => length (messages t))
                (thread_key (subject m))
                (update_categories
                   (add_message
                      (match Dict.get (thread_key (subject m)) ts with
                       | Some t => t
                       | None => new_thread (subject m)
                       end) m) (categorize_message m)) ts) as H.
  simpl in H. rewrite length_app in H. simpl in H.
  destruct (Dict.get (thread_key (subject m)) ts); simpl in H; lia.
Qed.

(** X4. The counters of the loop add up: every record read is counted once,
    as spam, as unrelated, or as a message of a thread. *)
Theorem loader_counters_add_up (records : list Msg) :
  let st := load_and_process_emails records in
  total_loaded st = length records
  /\ total_loaded st
     = spam_filtered st + unrelated_filtered st + total_messages (threads st)
  /\ spam_filtered st = length (List.filter is_spam records)
  /\ total_messages (threads st) = length (List.filter retained records).
Proof.
  induction records as [|r records IH] using rev_ind.
  - repeat split.
  - cbv zeta in *. rewrite load_snoc, !List.filter_app, !length_app.
    destruct IH as (IH1 & IH2 & IH3 & IH4).
    unfold process_message, retained in *. simpl.
    destruct (is_spam r); simpl; [lia|].
    destruct (is_sparse_related r); simpl;
      rewrite ?file_message_total; lia.
Qed.

Lemma filed_under_snoc k records r :
  filed_under k (records ++ [r])
  = filed_under k records
    ++ (if retained r && bool_decide (thread_key (subject r) = k)
        then [r] else []).
Proof.
  unfold filed_under. rewrite List.filter_app. simpl.
  now destruct (retained r && bool_decide (thread_key (subject r) = k)).
Qed.

Lemma thread_holds_records_aux records k :
  messages <$> Dict.get k (threads (load_and_process_emails records))
  = match filed_under k records with
    | [] => None
    | l => Some l
    end.
Proof.
  induction records as [|r records IH] using rev_ind; [reflexivity|].
  rewrite load_snoc, process_message_threads, filed_under_snoc.
  unfold process_threads. destruct (retained r) eqn:Hr; simpl.
  - unfold file_message.
    destruct (decide (thread_key (subject r) = k)) as [Hk|Hk].
    + rewrite bool_decide_eq_true_2 by exact Hk. subst k.
      rewrite dict_get_set_eq. simpl.
      destruct (Dict.get _ _) as [t|]; simpl in *.
      * destruct (filed_under _ records) as [|x l]; [discriminate|].
        injection IH as ->. reflexivity.
      * destruct (filed_under _ records) as [|x l]; [|discriminate].
        reflexivity.
    + rewrite bool_decide_eq_false_2 by exact Hk.
      rewrite dict_get_set_ne by exact Hk. now rewrite app_nil_r.
  - now rewrite app_nil_r.
Qed.

(** X5. A thread holds, in the order they were read, exactly the records
    that got past both filters and have its key; a key none of them has is
    not in the dictionary. *)
Theorem thread_holds_its_records_in_order (records : list Msg) (k : str) :
  messages <$> Dict.get k (threads (load_and_process_emails records))
  = match List.filter
            (fun r => retained r && bool_decide (thread_key (subject r) = k))
            records with
    | [] => None
    | l => Some l
    end.
Proof. apply thread_holds_records_aux. Qed.

Lemma new_thread_summarizes m :
  summarizes (update_categories (add_message (new_thread (subject m)) m)
                                (categorize_message m)).
Proof.
  exists m, []. cbn [messages thread_subject normalized_subject participants
                     categories update_categories add_message new_thread
                     app map flat_map].
  rewrite app_nil_r, !(left_id_L ∅ (∪)), list_to_set_cons, list_to_set_nil.
  now rewrite (right_id_L ∅ (∪)).
Qed.

Lemma grown_thread_summarizes t m :
  summarizes t ->
  summarizes (update_categories (add_message t m) (categorize_message m)).
Proof.
  intros (m0 & ms & Hm & Hs & Hn & Hp & Hc).
  exists m0, (ms ++ [m]).
  cbn [messages thread_subject normalized_subject participants categories
       update_categories add_message].
  rewrite Hm, Hs, Hn, Hp, Hc.
  change (m0 :: ms ++ [m]) with ((m0 :: ms) ++ [m]).
  rewrite map_app, flat_map_app, !list_to_set_app_L.
  change (map author_name [m]) with [author_name m].
  change (flat_map categorize_message [m]) with (categorize_message m ++ []).
  rewrite app_nil_r, (list_to_set_cons (author_name m) []), list_to_set_nil.
  now rewrite (right_id_L ∅ (∪)).
Qed.

Lemma loaded_thread_summarizes records k t :
  Dict.get k (threads (load_and_process_emails records)) = Some t ->
  summarizes t.
Proof.
  revert k t. induction records as [|r records IH] using rev_ind;
    intros k t; [discriminate|].
  rewrite load_snoc, process_message_threads. unfold process_threads.
  destruct (retained r); [|apply IH].
  unfold file_message.
  destruct (decide (thread_key (subject r) = k)) as [<-|Hk].
  - rewrite dict_get_set_eq. intros [= <-].
    destruct (Dict.get _ _) as [t0|] eqn:Hget.
    + apply grown_thread_summarizes.
      exact (IH (thread_key (subject r)) t0 Hget).
    + apply new_thread_summarizes.
  - rewrite dict_get_set_ne by exact Hk. apply IH.
Qed.

(** X6. A thread has at least one message; it shows the subject of the first
    message filed in it, normalized from that one; its participants are the
    author names of its messages and its categories the labels given to
    them. Every message of it has the key of the thread and got past both
    filters. *)
Theorem thread_summarizes_its_messages
        (records : list Msg) (k : str) (t : EmailThread) :
  Dict.get k (threads (load_and_process_emails records)) = Some t ->
  exists m ms,
    messages t = m :: ms
    /\ thread_subject t = subject m
    /\ normalized_subject t = _normalize_subject (subject m)
    /\ participants t = list_to_set (map author_name (m :: ms))
    /\ categories t = list_to_set (flat_map categorize_message (m :: ms))
    /\ Forall (fun x => thread_key (subject x) = k /\ retained x = true)
              (m :: ms).
Proof.
  intros Hget.
  destruct (loaded_thread_summarizes _ _ _ Hget) as (m & ms & Hm & H).
  exists m, ms. split; [exact Hm|].
  destruct H as (H1 & H2 & H3 & H4). repeat split; try assumption.
  pose proof (thread_holds_records_aux records k) as Hk.
  rewrite Hget in Hk. simpl in Hk. rewrite Hm in Hk.
  destruct (filed_under k records) as [|x l] eqn:Hf; [discriminate|].
  assert (Heq : m :: ms = filed_under k records) by congruence.
  rewrite Heq.
  apply List.Forall_forall. intros y Hy. unfold filed_under in Hy.
  apply filter_In in Hy as [_ Hy]. apply andb_prop in Hy as [Hr Hkey].
  apply bool_decide_eq_true_1 in Hkey. now split.
Qed.

Lemma thread_summarizes_its_messages_witness :
  exists m ms,
    messages review_loaded = m :: ms
    /\ thread_subject review_loaded = subject m
    /\ normalized_subject review_loaded = _normalize_subject (subject m)
    /\ participants review_loaded = list_to_set (map author_name (m :: ms))
    /\ categories review_loaded
       = list_to_set (flat_map categorize_message (m :: ms))
    /\ Forall (fun x => thread_key (subject x) = thread_key (subject review_1)
                        /\ retained x = true)
              (m :: ms).
Proof.
  apply (thread_summarizes_its_messages review_thread
           (thread_key (subject review_1)) review_loaded).
  vm_compute. reflexivity.
Defined.

(** ** Labels *)

Lemma keys_of_categories_NoDup : NoDup (Dict.keys TOPIC_CATEGORIES).
Proof. apply (bool_decide_unpack _). vm_compute. exact I. Qed.

Lemma sublist_filter_map {A B} (f : A -> B) (p : A -> bool) l :
  sublist (map f (List.filter p l)) (map f l).
Proof.
  induction l as [|a l IH]; simpl; [constructor|].
  destruct (p a); simpl; now constructor.
Qed.

(** X7. The labels of a record are the fallback ["general"] alone, or
    categories of the table, each once and in the order of the table; a
    category of the table is among the labels exactly when one of its
    keywords occurs in the text searched. *)
Theorem labels_follow_the_table (msg : Msg) :
  (categorize_message msg = [ $"general" ]
   \/ categorize_message msg <> []
      /\ sublist (categorize_message msg) (Dict.keys TOPIC_CATEGORIES))
  /\ NoDup (categorize_message msg)
  /\ forall cat info,
       In (cat, info) TOPIC_CATEGORIES ->
       (In cat (categorize_message msg)
        <-> exists kw, In kw (keywords info)
                       /\ Str.contains kw (category_text msg) = true).
Proof.
  assert (Hsub : sublist (matching_categories (category_text msg))
                         (Dict.keys TOPIC_CATEGORIES))
    by apply sublist_filter_map.
  unfold categorize_message.
  destruct (matching_categories (category_text msg)) as [|c l] eqn:Hm.
  - split; [now left|]. split; [repeat constructor; intros H; inversion H|].
    intros cat info Hin. split.
    + intros [Hc|[]]. exfalso.
      assert (Hk : In cat (Dict.keys TOPIC_CATEGORIES))
        by (apply in_map_iff; now exists (cat, info)).
      rewrite <- Hc in Hk. vm_compute in Hk.
      repeat (destruct Hk as [Hk|Hk]; [discriminate|]). exact Hk.
    + intros (kw & Hkw & Hc). exfalso.
      assert (Hin' : In cat (matching_categories (category_text msg))).
      { unfold matching_categories. apply in_map_iff. exists (cat, info).
        split; [reflexivity|]. apply filter_In. split; [exact Hin|].
        apply existsb_exists. eauto. }
      rewrite Hm in Hin'. destruct Hin'.
  - split; [right; split; [discriminate | exact Hsub]|].
    split; [exact (sublist_NoDup _ _ keys_of_categories_NoDup Hsub)|].
    intros cat info Hin. rewrite <- Hm. unfold matching_categories.
    rewrite in_map_iff. split.
    + intros ([cat' info'] & Heq & Hf). simpl in Heq. subst cat'.
      apply filter_In in Hf as [Hin' Hex].
      assert (info' = info) as ->.
      { pose proof keys_of_categories_NoDup as Hnd.
        clear - Hin Hin' Hnd. unfold Dict.keys in Hnd.
        induction TOPIC_CATEGORIES as [|[c0 i0] l IH]; [destruct Hin|].
        simpl in Hnd. apply NoDup_cons in Hnd as [Hnot Hnd].
        destruct Hin as [Heq|Hin], Hin' as [Heq'|Hin'].
        - congruence.
        - injection Heq as -> ->. exfalso. apply Hnot.
          apply list_elem_of_In, in_map_iff. now exists (cat, info').
        - injection Heq' as -> ->. exfalso. apply Hnot.
          apply list_elem_of_In, in_map_iff. now exists (cat, info).
        - now apply IH. }
      apply existsb_exists in Hex. exact Hex.
    + intros (kw & Hkw & Hc). exists (cat, info). split; [reflexivity|].
      apply filter_In. split; [exact Hin|]. apply existsb_exists. eauto.
Qed.

(** ** Outcomes *)

(** X8. A thread has no outcome exactly when no message of it holds a
    decision indicator; an outcome is one of "merged", "rejected" and
    "accepted". *)
Theorem outcome_none_iff_no_indicator (msgs : list Msg) :
  (scan_outcome msgs = None
   <-> forallb (fun m => negb (has_indicator m)) msgs = true)
  /\ forall o, scan_outcome msgs = Some o ->
               o = $"merged" \/ o = $"rejected" \/ o = $"accepted".
Proof.
  unfold scan_outcome.
  assert (H : forall cur,
             (cur = None \/ cur = Some $"merged" \/ cur = Some $"rejected"
              \/ cur = Some $"accepted") ->
             (fold_left scan_message msgs cur = None
              <-> cur = None
                  /\ forallb (fun m => negb (has_indicator m)) msgs = true)
             /\ forall o, fold_left scan_message msgs cur = Some o ->
                          o = $"merged" \/ o = $"rejected" \/ o = $"accepted").
  { induction msgs as [|m msgs IH]; intros cur Hcur; simpl.
    - split; [tauto|]. intros o ->.
      destruct Hcur as [?|[?|[?|?]]]; try discriminate; inversion H; auto.
    - destruct (has_indicator m) eqn:Hm; simpl.
      + rewrite (scan_message_indicator cur m Hm).
        assert (Hs : exists o, scan_message None m = Some o
                     /\ (o = $"merged" \/ o = $"rejected" \/ o = $"accepted")).
        { unfold has_indicator in Hm. unfold scan_message.
          destruct (merged_in m), (rejected_in m), (accepted_in m);
            try discriminate; eauto. }
        destruct Hs as (o & Ho & Hcase). rewrite Ho.
        destruct (IH (Some o)) as [IH1 IH2].
        { destruct Hcase as [ -> | [ -> | -> ] ]; auto. }
        split; [|exact IH2]. rewrite IH1.
        split; intros [? ?]; discriminate.
      + rewrite (scan_message_silent cur m Hm). now apply IH. }
  destruct (H None) as [H1 H2]; [now left|].
  split; [|exact H2]. rewrite H1. tauto.
Qed.

(** ** The order of the significant threads *)

Section Stable.
Context {A : Type} (key : A -> nat).

Lemma filter_below n l :
  Forall (fun y => key y < n) l ->
  List.filter (fun y => key y =? n) l = [].
Proof.
  induction 1 as [|y l Hy _ IH]; simpl; [reflexivity|].
  destruct (Nat.eqb_spec (key y) n); [lia | exact IH].
Qed.

Lemma insert_desc_filter x l n :
  StronglySorted (key_ge key) l ->
  List.filter (fun y => key y =? n) (insert_desc key x l)
  = List.filter (fun y => key y =? n) l ++ (if key x =? n then [x] else []).
Proof.
  induction 1 as [|y l Hl IH Hy]; simpl.
  - now destruct (key x =? n).
  - destruct (key y <? key x) eqn:Hlt; simpl.
    + apply Nat.ltb_lt in Hlt.
      destruct (Nat.eqb_spec (key x) n) as [Hx|Hx]; [|now rewrite app_nil_r].
      destruct (Nat.eqb_spec (key y) n) as [Hyn|Hyn]; [lia|].
      rewrite filter_below; [reflexivity|].
      eapply List.Forall_impl; [|exact Hy]. unfold key_ge. intros; simpl in *.
      lia.
    + destruct (key y =? n); simpl; now rewrite IH.
Qed.

Lemma sort_desc_stable l n :
  List.filter (fun y => key y =? n) (sort_desc key l)
  = List.filter (fun y => key y =? n) l.
Proof.
  unfold sort_desc.
  enough (H : forall acc,
             StronglySorted (key_ge key) acc ->
             List.filter (fun y => key y =? n)
               (fold_left (fun acc x => insert_desc key x acc) l acc)
             = List.filter (fun y => key y =? n) (acc ++ l))
    by (apply (H []); constructor).
  induction l as [|x l IH]; intros acc Hacc; simpl.
  - now rewrite app_nil_r.
  - rewrite IH by now apply insert_desc_sorted.
    rewrite !List.filter_app, insert_desc_filter by exact Hacc.
    simpl. rewrite <- app_assoc. f_equal.
    now destruct (key x =? n).
Qed.

End Stable.

(** X9. The significant threads are all the threads of the dictionary that
    meet both thresholds, and those of equal size stay in the order of the
    dictionary, the order in which their first messages were read. *)
Theorem significant_threads_keep_order
        (ts : Dict.t str EmailThread) (n : nat) :
  List.filter (fun t => length (messages t) =? n) (significant_threads ts)
  = List.filter (fun t => length (messages t) =? n)
                (List.filter is_significant (Dict.values ts)).
Proof.
  unfold significant_threads.
  apply (sort_desc_stable (fun t => length (messages t))).
Qed.

(** ** The length of what a loop builds *)

Lemma for_each_length {A B} (f : A -> outcome B) l bs :
  for_each f l = Returns bs -> length bs = length l.
Proof.
  intros H. apply for_each_Forall2 in H.
  induction H; simpl; congruence.
Qed.

(** ** The dates of a thread *)

Lemma same_kind_refl a : same_kind a a.
Proof. unfold same_kind. tauto. Qed.

Lemma same_kind_sym a b : same_kind a b -> same_kind b a.
Proof. unfold same_kind. tauto. Qed.

Lemma same_kind_trans a b c : same_kind a b -> same_kind b c -> same_kind a c.
Proof. unfold same_kind. tauto. Qed.

Lemma same_kind_dec a b : {same_kind a b} + {~ same_kind a b}.
Proof.
  unfold same_kind.
  destruct (dt_utcoffset a), (dt_utcoffset b).
  - left. split; discriminate.
  - right. intros [_ H]. specialize (H eq_refl). discriminate.
  - right. intros [H _]. specialize (H eq_refl). discriminate.
  - left. tauto.
Qed.

Lemma lt_same_kind a b :
  same_kind a b -> DT.lt a b = Returns (instant a <? instant b)%Z.
Proof.
  unfold same_kind, DT.lt, instant.
  destruct (dt_utcoffset a), (dt_utcoffset b); simpl; intros [H1 H2].
  - reflexivity.
  - specialize (H2 eq_refl). discriminate.
  - specialize (H1 eq_refl). discriminate.
  - now rewrite !Z.sub_0_r.
Qed.

Lemma lt_mixed a b : ~ same_kind a b -> DT.lt a b = Raises TypeError.
Proof.
  unfold same_kind, DT.lt.
  destruct (dt_utcoffset a), (dt_utcoffset b); try reflexivity;
    intros H; exfalso; apply H; split; congruence.
Qed.

Lemma min_from_same_kind {A} (key : A -> datetime) cur l :
  Forall (fun x => same_kind (key cur) (key x)) l ->
  exists r, min_from key cur l = Returns r
            /\ In r (cur :: l)
            /\ Forall (fun x => (instant (key r) <= instant (key x))%Z)
                      (cur :: l).
Proof.
  revert cur. induction l as [|x l IH]; intros cur Hl; simpl.
  - exists cur. split; [reflexivity|]. split; [now left|].
    constructor; [lia | constructor].
  - inversion Hl as [|? ? Hx Hl']; subst.
    rewrite (lt_same_kind _ _ (same_kind_sym _ _ Hx)). simpl.
    destruct (Z.ltb_spec (instant (key x)) (instant (key cur))) as [Hlt|Hge].
    + destruct (IH x) as (r & Hr & Hin & Hall).
      { eapply List.Forall_impl; [|exact Hl']. intros y Hy.
        exact (same_kind_trans _ _ _ (same_kind_sym _ _ Hx) Hy). }
      exists r. split; [exact Hr|]. split.
      * destruct Hin as [<-|Hin]; [right; now left | right; now right].
      * inversion Hall as [|? ? Hrx Hrl]; subst.
        constructor; [lia|]. now constructor.
    + destruct (IH cur Hl') as (r & Hr & Hin & Hall).
      exists r. split; [exact Hr|]. split.
      * destruct Hin as [<-|Hin]; [now left | right; now right].
      * inversion Hall as [|? ? Hrc Hrl]; subst.
        constructor; [exact Hrc|]. constructor; [lia | exact Hrl].
Qed.

Lemma max_from_same_kind {A} (key : A -> datetime) cur l :
  Forall (fun x => same_kind (key cur) (key x)) l ->
  exists r, max_from key cur l = Returns r
            /\ In r (cur :: l)
            /\ Forall (fun x => (instant (key x) <= instant (key r))%Z)
                      (cur :: l).
Proof.
  revert cur. induction l as [|x l IH]; intros cur Hl; simpl.
  - exists cur. split; [reflexivity|]. split; [now left|].
    constructor; [lia | constructor].
  - inversion Hl as [|? ? Hx Hl']; subst.
    rewrite (lt_same_kind _ _ Hx). simpl.
    destruct (Z.ltb_spec (instant (key cur)) (instant (key x))) as [Hlt|Hge].
    + destruct (IH x) as (r & Hr & Hin & Hall).
      { eapply List.Forall_impl; [|exact Hl']. intros y Hy.
        exact (same_kind_trans _ _ _ (same_kind_sym _ _ Hx) Hy). }
      exists r. split; [exact Hr|]. split.
      * destruct Hin as [<-|Hin]; [right; now left | right; now right].
      * inversion Hall as [|? ? Hrx Hrl]; subst.
        constructor; [lia|]. now constructor.
    + destruct (IH cur Hl') as (r & Hr & Hin & Hall).
      exists r. split; [exact Hr|]. split.
      * destruct Hin as [<-|Hin]; [now left | right; now right].
      * inversion Hall as [|? ? Hrc Hrl]; subst.
        constructor; [exact Hrc|]. constructor; [lia | exact Hrl].
Qed.

Lemma min_from_mixed {A} (key : A -> datetime) cur l :
  Exists (fun x => ~ same_kind (key cur) (key x)) l ->
  min_from key cur l = Raises TypeError.
Proof.
  revert cur. induction l as [|x l IH]; intros cur Hex; simpl.
  - inversion Hex.
  - destruct (same_kind_dec (key cur) (key x)) as [Hs|Hs].
    + rewrite (lt_same_kind _ _ (same_kind_sym _ _ Hs)). simpl.
      inversion Hex as [? ? Hx|? ? Hl]; subst; [contradiction|].
      apply IH. eapply List.Exists_impl; [|exact Hl]. intros y Hy Hc.
      apply Hy. destruct (_ <? _)%Z; [|exact Hc].
      exact (same_kind_trans _ _ _ Hs Hc).
    + rewrite lt_mixed; [reflexivity|].
      intros H. apply Hs. now apply same_kind_sym.
Qed.

Lemma max_from_mixed {A} (key : A -> datetime) cur l :
  Exists (fun x => ~ same_kind (key cur) (key x)) l ->
  max_from key cur l = Raises TypeError.
Proof.
  revert cur. induction l as [|x l IH]; intros cur Hex; simpl.
  - inversion Hex.
  - destruct (same_kind_dec (key cur) (key x)) as [Hs|Hs].
    + rewrite (lt_same_kind _ _ Hs). simpl.
      inversion Hex as [? ? Hx|? ? Hl]; subst; [contradiction|].
      apply IH. eapply List.Exists_impl; [|exact Hl]. intros y Hy Hc.
      apply Hy. destruct (_ <? _)%Z; [|exact Hc].
      exact (same_kind_trans _ _ _ Hs Hc).
    + now rewrite lt_mixed.
Qed.

Lemma mixed_with_head {A} (key : A -> datetime) cur l a b :
  In a (cur :: l) -> In b (cur :: l) -> ~ same_kind (key a) (key b) ->
  Exists (fun x => ~ same_kind (key cur) (key x)) l.
Proof.
  intros Ha Hb Hab. apply List.Exists_exists.
  destruct (same_kind_dec (key cur) (key a)) as [Hca|Hca].
  - exists b. destruct Hb as [<-|Hb].
    + exfalso. apply Hab. now apply same_kind_sym.
    + split; [exact Hb|]. intros Hcb. apply Hab.
      exact (same_kind_trans _ _ _ (same_kind_sym _ _ Hca) Hcb).
  - exists a. destruct Ha as [<-|Ha].
    + exfalso. apply Hca, same_kind_refl.
    + now split.
Qed.

(** X11. When the dates of a thread all have an offset, or none has, the
    first and the last date are dates of the thread, no date comes before
    the first or after the last, and a thread without dates has neither. *)
Theorem first_and_last_date_bracket_the_dates (t : EmailThread) :
  (forall d d', In d (dates t) -> In d' (dates t) -> same_kind d d') ->
  exists first last,
    get_first_date t = Returns first
    /\ get_last_date t = Returns last
    /\ (dates t = [] -> first = None /\ last = None)
    /\ forall d,
         In d (dates t) ->
         exists f l,
           first = Some f /\ last = Some l
           /\ In f (dates t) /\ In l (dates t)
           /\ (instant f <= instant d <= instant l)%Z.
Proof.
  intros Hkind. unfold get_first_date, get_last_date.
  destruct (dates t) as [|d0 ds] eqn:Hd.
  - exists None, None. repeat split; try reflexivity. intros d [].
  - assert (Hall : Forall (fun x => same_kind (id d0) (id x)) ds).
    { apply List.Forall_forall. intros x Hx. apply Hkind; [now left|].
      now right. }
    destruct (min_from_same_kind id d0 ds Hall) as (f & -> & Hf & Hmin).
    destruct (max_from_same_kind id d0 ds Hall) as (l & -> & Hl & Hmax).
    exists (Some f), (Some l). simpl. repeat split; try discriminate.
    intros d Hin. exists f, l. repeat split; try assumption.
    + rewrite List.Forall_forall in Hmin. now apply Hmin.
    + rewrite List.Forall_forall in Hmax. now apply Hmax.
Qed.

Lemma first_and_last_date_bracket_the_dates_witness :
  exists first last,
    get_first_date aware_thread = Returns first
    /\ get_last_date aware_thread = Returns last
    /\ first = Some aware_date /\ last = Some later_date.
Proof.
  destruct (first_and_last_date_bracket_the_dates aware_thread)
    as (first & last & Hf & Hl & _).
  { intros d d' [<-|[<-|[]]] [<-|[<-|[]]]; split; discriminate. }
  exists first, last. split; [exact Hf|]. split; [exact Hl|].
  vm_compute in Hf, Hl. injection Hf as <-. injection Hl as <-.
  split; reflexivity.
Defined.

(** X12. When one date of a thread has an offset and another has none, the
    first date, the last date and the dictionary of the thread cannot be
    computed: each raises [TypeError]. *)
Theorem mixed_dates_raise (t : EmailThread) (d d' : datetime) :
  In d (dates t) -> In d' (dates t) -> ~ same_kind d d' ->
  get_first_date t = Raises TypeError
  /\ get_last_date t = Raises TypeError
  /\ to_dict t = Raises TypeError.
Proof.
  intros Hd Hd' Hmix.
  assert (Hf : get_first_date t = Raises TypeError).
  { unfold get_first_date. destruct (dates t) as [|d0 ds]; [destruct Hd|].
    now rewrite (min_from_mixed id d0 ds
                   (mixed_with_head id d0 ds d d' Hd Hd' Hmix)). }
  split; [exact Hf|]. split.
  - unfold get_last_date. destruct (dates t) as [|d0 ds]; [destruct Hd|].
    now rewrite (max_from_mixed id d0 ds
                   (mixed_with_head id d0 ds d d' Hd Hd' Hmix)).
  - unfold to_dict. now rewrite Hf.
Qed.

Lemma mixed_dates_raise_witness :
  to_dict (thread_of (dated review_1 (Some aware_date))
                     (dated review_2 (Some naive_date)))
  = Raises TypeError.
Proof.
  apply (mixed_dates_raise _ aware_date naive_date).
  - simpl. tauto.
  - simpl. tauto.
  - intros [_ H]. specialize (H eq_refl). discriminate.
Defined.

(** The only date of the thread has an offset and another message has no
    date: the first date is found, and the sort of the messages raises. *)
Example to_dict_aware_beside_undated :
  get_first_date mixed_thread = Returns (Some aware_date)
  /\ get_last_date mixed_thread = Returns (Some aware_date)
  /\ to_dict mixed_thread = Raises TypeError.
Proof. repeat split. Qed.

(** X13. A thread in which one message has a date with an offset and
    another has no date, or a date without offset, gets no decision: the
    search for its first message raises [TypeError], and so does the
    extraction when the thread is among the 50 it looks at and the threads
    before it get their decisions. *)
Theorem undated_beside_aware_raises
        (t : EmailThread) (m1 m2 : Msg) (d : datetime) :
  In m1 (messages t) -> In m2 (messages t) ->
  date m1 = Some d -> dt_utcoffset d <> None ->
  naively_dated m2 ->
  decide_thread t = Raises TypeError
  /\ forall ts before after,
       firstn 50 (significant_threads ts) = before ++ t :: after ->
       Forall (fun t' => exists d', decide_thread t' = Returns d') before ->
       extract_key_decisions ts = Raises TypeError.
Proof.
  intros H1 H2 Hd Haware Hnaive.
  assert (Hraise : decide_thread t = Raises TypeError).
  { unfold decide_thread. destruct (messages t) as [|m ms]; [destruct H1|].
    rewrite (min_from_mixed (fun m => default DT.max (date m)) m ms);
      [reflexivity|].
    apply (mixed_with_head (fun m => default DT.max (date m)) m ms m1 m2
             H1 H2).
    rewrite Hd. simpl. intros [Hk1 Hk2]. apply Haware, Hk2.
    now apply naive_key. }
  split; [exact Hraise|]. intros ts before after Htop Hbefore.
  unfold extract_key_decisions. rewrite Htop. clear Htop.
  induction Hbefore as [|t' before [d' Hd'] _ IH]; simpl.
  - now rewrite Hraise.
  - rewrite Hd'. simpl. now rewrite IH.
Qed.

Lemma undated_beside_aware_raises_witness :
  decide_thread mixed_thread = Raises TypeError.
Proof.
  apply (undated_beside_aware_raises mixed_thread
           (dated review_1 (Some aware_date)) review_2 aware_date).
  - simpl. tauto.
  - simpl. tauto.
  - reflexivity.
  - discriminate.
  - intros d Hd. discriminate Hd.
Defined.

(** ** The counters of the analyzer *)

Lemma lower_char_idem c : Str.lower_char (Str.lower_char c) = Str.lower_char c.
Proof. destruct c as [[] [] [] [] [] [] [] []]; vm_compute; reflexivity. Qed.

Lemma lower_idem s : Str.lower (Str.lower s) = Str.lower s.
Proof.
  unfold Str.lower. rewrite map_map. apply map_ext. intros c.
  apply lower_char_idem.
Qed.

Lemma dict_set_keys_elem {V} k (v : V) (d : Dict.t str V) k' :
  k' ∈ Dict.keys (Dict.set k v d) <-> k' = k \/ k' ∈ Dict.keys d.
Proof.
  unfold Dict.keys. induction d as [|[k0 v0] d IH]; simpl.
  - rewrite list_elem_of_singleton, elem_of_nil. tauto.
  - destruct (decide (k0 = k)) as [->|Hne]; simpl;
      rewrite !elem_of_cons; [tauto|]. rewrite IH. tauto.
Qed.

Lemma dict_set_NoDup {V} k (v : V) (d : Dict.t str V) :
  NoDup (Dict.keys d) -> NoDup (Dict.keys (Dict.set k v d)).
Proof.
  induction d as [|[k0 v0] d IH]; simpl; intros Hd.
  - apply NoDup_singleton.
  - apply NoDup_cons in Hd as [Hk0 Hd].
    destruct (decide (k0 = k)) as [->|Hne]; simpl.
    + now apply NoDup_cons.
    + apply NoDup_cons. split; [|now apply IH].
      change (k0 ∉ Dict.keys (Dict.set k v d)).
      rewrite dict_set_keys_elem. intros [H|H]; [congruence | now apply Hk0].
Qed.

Lemma dict_In_get {V} k (v : V) (d : Dict.t str V) :
  NoDup (Dict.keys d) -> In (k, v) d -> Dict.get k d = Some v.
Proof.
  induction d as [|[k0 v0] d IH]; simpl; intros Hd; [intros []|].
  apply NoDup_cons in Hd as [Hk0 Hd]. intros [Heq|Hin].
  - injection Heq as -> ->. now rewrite decide_True.
  - destruct (decide (k0 = k)) as [->|Hne]; [|now apply IH].
    exfalso. apply Hk0. apply list_elem_of_In.
    change (In k (map fst d)). apply in_map_iff. now exists (k, v).
Qed.

Lemma fold_keys_NoDup {A V} (f : Dict.t str V -> A -> Dict.t str V) l d :
  (forall d x, NoDup (Dict.keys d) -> NoDup (Dict.keys (f d x))) ->
  NoDup (Dict.keys d) -> NoDup (Dict.keys (fold_left f l d)).
Proof.
  intros Hf. revert d. induction l as [|x l IH]; intros d Hd; simpl;
    [exact Hd|]. apply IH. now apply Hf.
Qed.

Lemma authors_fold es a k :
  Dict.get k (Analyze.authors (fold_left Analyze.analyze_step es a))
  = match written_by k es with
    | [] => Dict.get k (Analyze.authors a)
    | l => Some (default 0 (Dict.get k (Analyze.authors a)) + length l)
    end.
Proof.
  revert a. induction es as [|e es IH]; intros a; [reflexivity|].
  simpl fold_left. rewrite IH.
  change (Analyze.authors (Analyze.analyze_step a e))
    with (Analyze.incr (Analyze.author_key e) (Analyze.authors a)).
  rewrite incr_get. unfold written_by. simpl List.filter.
  destruct (decide (Analyze.author_key e = k)) as [Hk|Hk].
  - rewrite (bool_decide_eq_true_2 _ Hk). subst k. simpl.
    destruct (List.filter _ es); simpl; f_equal; lia.
  - rewrite (bool_decide_eq_false_2 _ Hk). reflexivity.
Qed.

Lemma authors_fold_NoDup es a :
  NoDup (Dict.keys (Analyze.authors a)) ->
  NoDup (Dict.keys (Analyze.authors (fold_left Analyze.analyze_step es a))).
Proof.
  revert a. induction es as [|e es IH]; intros a Ha; simpl; [exact Ha|].
  apply IH. simpl. now apply dict_set_NoDup.
Qed.

(** X14. After the analysis a contributor key is in the counter exactly when
    a record has it as its lowercased address, and its count is the number of
    these records; every key of the counter is in lower case. *)
Theorem contributor_count_is_number_of_records
        (parsed : list (option Analyze.email_data)) (k : str) :
  let a := Analyze.run parsed in
  Dict.get k (Analyze.authors a)
  = match List.filter (fun e => bool_decide (Analyze.author_key e = k))
                      (Analyze.emails a) with
    | [] => None
    | l => Some (length l)
    end
  /\ (forall n, Dict.get k (Analyze.authors a) = Some n ->
                1 <= n /\ Str.lower k = k).
Proof.
  intros a.
  assert (H : Dict.get k (Analyze.authors a)
              = match written_by k (Analyze.emails a) with
                | [] => None
                | l => Some (length l)
                end).
  { unfold a, Analyze.run, Analyze.analyze.
    rewrite analyze_fold_emails, authors_fold. simpl.
    now destruct (written_by _ _). }
  split; [exact H|]. intros n Hn. rewrite H in Hn.
  destruct (written_by k (Analyze.emails a)) as [|e l] eqn:Hw; [discriminate|].
  injection Hn as <-. split; [simpl; lia|].
  assert (He : In e (written_by k (Analyze.emails a)))
    by (rewrite Hw; now left).
  apply filter_In in He as [_ Hk]. apply bool_decide_eq_true_1 in Hk.
  rewrite <- Hk. apply lower_idem.
Qed.

Lemma sorted_app_ge {A} (key : A -> nat) l1 l2 x y :
  StronglySorted (key_ge key) (l1 ++ l2) ->
  In x l1 -> In y l2 -> key y <= key x.
Proof.
  induction l1 as [|a l1 IH]; simpl; intros Hs; [intros []|].
  inversion Hs as [|? ? Hs' Hall]; subst. intros [->|Hx] Hy.
  - rewrite List.Forall_forall in Hall. apply (Hall y).
    apply in_or_app. now right.
  - now apply IH.
Qed.

Lemma NoDup_firstn {A} n (l : list A) : NoDup l -> NoDup (firstn n l).
Proof.
  intros H. apply (sublist_NoDup _ l); [exact H|].
  rewrite <- (firstn_skipn n l) at 2. apply sublist_inserts_r. reflexivity.
Qed.

(** X15. The 30 top contributors are the 30 largest counts of the counter,
    or all of them when there are fewer: largest first, equal counts in the
    order their keys were first counted, each key once, and no contributor
    left out has a larger count than one listed. They are the contributors
    of the summary when [generate_summary] returns. *)
Theorem top_contributors_are_ranked
        (parsed : list (option Analyze.email_data)) :
  let a := Analyze.run parsed in
  let top := Analyze.get_top_contributors a 30 in
  length top = Nat.min 30 (length (Analyze.authors a))
  /\ StronglySorted (key_ge snd) top
  /\ NoDup (map fst top)
  /\ (forall x, In x top -> In x (Analyze.authors a))
  /\ (forall x y, In x top -> In y (Analyze.authors a) -> ~ In y top ->
                  snd y <= snd x)
  /\ (forall n, exists rest,
        List.filter (fun x => snd x =? n) (Analyze.authors a)
        = List.filter (fun x => snd x =? n) top ++ rest)
  /\ (forall s, Summary.generate_summary a = Returns s ->
                Summary.top_contributors s = top
                /\ Summary.total_contributors s = length (Analyze.authors a)).
Proof.
  intros a top. unfold top.
  assert (Hsum : forall s, Summary.generate_summary a = Returns s ->
            Summary.top_contributors s = Analyze.get_top_contributors a 30
            /\ Summary.total_contributors s = length (Analyze.authors a)).
  { intros s Hs. unfold Summary.generate_summary in Hs.
    destruct (Summary.min_of (Summary.periods a)); simpl in Hs; [|discriminate].
    destruct (Summary.max_of (Summary.periods a)); simpl in Hs; [|discriminate].
    destruct (Report.get_key_threads a); simpl in Hs; [|discriminate].
    injection Hs as <-. now split. }
  revert Hsum.
  unfold Analyze.get_top_contributors, Analyze.most_common. intros Hsum.
  set (c := Analyze.authors a).
  assert (Hnd : NoDup (Dict.keys c)).
  { unfold c, a, Analyze.run, Analyze.analyze. apply authors_fold_NoDup.
    simpl. constructor. }
  split.
  { rewrite length_firstn. now rewrite (Permutation_length (sort_desc_perm snd c)). }
  split; [apply firstn_sorted, sort_desc_sorted|].
  split.
  { rewrite <- firstn_map. apply NoDup_firstn.
    unfold Dict.keys in Hnd.
    now rewrite (Permutation_map fst (sort_desc_perm snd c)). }
  split.
  { intros x Hx. apply firstn_In in Hx. now apply sort_desc_In in Hx. }
  split.
  { intros x y Hx Hy Hny.
    apply (sorted_app_ge snd (firstn 30 (sort_desc snd c))
                         (skipn 30 (sort_desc snd c))); [| exact Hx |].
    - rewrite firstn_skipn. apply sort_desc_sorted.
    - apply (sort_desc_In snd) in Hy.
      rewrite <- (firstn_skipn 30 (sort_desc snd c)) in Hy.
      apply in_app_or in Hy as [Hy|Hy]; [contradiction | exact Hy]. }
  split; [|exact Hsum].
  intros n. exists (List.filter (fun x => snd x =? n) (skipn 30 (sort_desc snd c))).
  rewrite <- List.filter_app, firstn_skipn. symmetry. apply sort_desc_stable.
Qed.

Lemma size_list_to_set_le (l : list str) :
  size (list_to_set l : gset str) <= length l.
Proof.
  induction l as [|x l IH].
  - rewrite list_to_set_nil, size_empty. simpl. lia.
  - rewrite list_to_set_cons. simpl length. destruct (decide (x ∈ (list_to_set l : gset str))) as [Hx|Hx].
    + rewrite (subseteq_union_1_L {[x]} (list_to_set l))
        by now apply singleton_subseteq_l.
      lia.
    + rewrite size_union by now apply disjoint_singleton_l.
      rewrite size_singleton. lia.
Qed.

Lemma size_list_to_set_pos (x : str) (l : list str) :
  1 <= size (list_to_set (x :: l) : gset str).
Proof.
  assert (H : size (list_to_set (x :: l) : gset str) <> 0).
  { intros H. apply size_empty_inv in H.
    apply (not_elem_of_empty (C:=gset str) x). rewrite <- H.
    apply elem_of_list_to_set. now left. }
  lia.
Qed.

Lemma yearly_fold es a y :
  Dict.get y (Analyze.yearly_stats (fold_left Analyze.analyze_step es a))
  = match of_year y es with
    | [] => Dict.get y (Analyze.yearly_stats a)
    | l =>
        let y0 := default {| Analyze.count := 0; Analyze.year_authors := ∅ |}
                          (Dict.get y (Analyze.yearly_stats a)) in
        Some {| Analyze.count := Analyze.count y0 + length l;
                Analyze.year_authors :=
                  Analyze.year_authors y0
                  ∪ list_to_set (map Analyze.author_key l) |}
    end.
Proof.
  revert a. induction es as [|e es IH]; intros a; [reflexivity|].
  simpl fold_left. rewrite IH.
  change (Analyze.yearly_stats (Analyze.analyze_step a e))
    with (Analyze.count_year e (Analyze.yearly_stats a)).
  unfold of_year, Analyze.count_year. simpl List.filter.
  destruct (decide (Analyze.year e = y)) as [Hy|Hy].
  - rewrite (bool_decide_eq_true_2 _ Hy). subst y.
    rewrite dict_get_set_eq. cbn zeta.
    destruct (List.filter _ es) as [|e' l]; simpl;
      rewrite ?(right_id_L ∅ (∪)), <- ?(assoc_L (∪)); do 2 f_equal; lia.
  - rewrite (bool_decide_eq_false_2 _ Hy).
    rewrite dict_get_set_ne by exact Hy. reflexivity.
Qed.

Lemma yearly_fold_sum es a :
  list_sum (map Analyze.count
                (Dict.values (Analyze.yearly_stats
                                (fold_left Analyze.analyze_step es a))))
  = list_sum (map Analyze.count (Dict.values (Analyze.yearly_stats a)))
    + length es.
Proof.
  revert a. induction es as [|e es IH]; intros a; simpl; [lia|].
  rewrite IH. simpl. unfold Analyze.count_year.
  pose proof (dict_set_sum Analyze.count (Analyze.year e)
    {| Analyze.count :=
         S (Analyze.count
              (default {| Analyze.count := 0; Analyze.year_authors := ∅ |}
                       (Dict.get (Analyze.year e) (Analyze.yearly_stats a))));
       Analyze.year_authors :=
         Analyze.year_authors
           (default {| Analyze.count := 0; Analyze.year_authors := ∅ |}
                    (Dict.get (Analyze.year e) (Analyze.yearly_stats a)))
         ∪ {[ Analyze.author_key e ]} |}
    (Analyze.yearly_stats a)) as H.
  cbn [Analyze.count] in H.
  destruct (Dict.get (Analyze.year e) (Analyze.yearly_stats a)); simpl in *; lia.
Qed.

(** X16. After the analysis a year is in the yearly statistics exactly when
    a record comes from its directory; its count is the number of these
    records and its authors are their contributor keys, at least one and no
    more than the count. The counts of all years sum to the number of
    records. *)
Theorem yearly_counts_match_records
        (parsed : list (option Analyze.email_data)) (y : str) :
  let a := Analyze.run parsed in
  list_sum (map Analyze.count (Dict.values (Analyze.yearly_stats a)))
  = length (Analyze.emails a)
  /\ Dict.get y (Analyze.yearly_stats a)
     = match List.filter (fun e => bool_decide (Analyze.year e = y))
                         (Analyze.emails a) with
       | [] => None
       | l => Some {| Analyze.count := length l;
                      Analyze.year_authors :=
                        list_to_set (map Analyze.author_key l) |}
       end
  /\ (forall info, Dict.get y (Analyze.yearly_stats a) = Some info ->
                   1 <= size (Analyze.year_authors info)
                   /\ size (Analyze.year_authors info) <= Analyze.count info).
Proof.
  intros a.
  assert (H : Dict.get y (Analyze.yearly_stats a)
              = match of_year y (Analyze.emails a) with
                | [] => None
                | l => Some {| Analyze.count := length l;
                               Analyze.year_authors :=
                                 list_to_set (map Analyze.author_key l) |}
                end).
  { unfold a, Analyze.run, Analyze.analyze.
    rewrite analyze_fold_emails, yearly_fold. simpl.
    destruct (of_year _ _); [reflexivity|]. simpl.
    now rewrite (left_id_L ∅ (∪)). }
  split.
  { unfold a, Analyze.run, Analyze.analyze.
    rewrite analyze_fold_emails, yearly_fold_sum. reflexivity. }
  split; [exact H|]. intros info Hinfo. rewrite H in Hinfo.
  destruct (of_year y (Analyze.emails a)) as [|e l]; [discriminate|].
  injection Hinfo as <-. cbn [Analyze.year_authors Analyze.count]. split.
  - apply size_list_to_set_pos.
  - etransitivity;
      [exact (size_list_to_set_le (map Analyze.author_key (e :: l)))|].
    now rewrite length_map.
Qed.

(** ** The topics of the analyzer *)

Lemma categorize_as_rules tp s :
  Analyze._categorize_topic tp s = apply_rules Report.TOPIC_RULES tp s.
Proof. reflexivity. Qed.

Lemma incr_if_get b k k' c :
  k <> k' -> Dict.get k' (Analyze.incr_if b k c) = Dict.get k' c.
Proof.
  intros Hne. unfold Analyze.incr_if. destruct b; [|reflexivity].
  rewrite incr_get. now rewrite decide_False.
Qed.

Lemma apply_rules_cons r rules tp s :
  apply_rules (r :: rules) tp s
  = apply_rules rules (Analyze.incr_if (snd r s) (fst r) tp) s.
Proof. reflexivity. Qed.

Lemma apply_rules_other rules tp s k :
  k ∉ map fst rules -> Dict.get k (apply_rules rules tp s) = Dict.get k tp.
Proof.
  revert tp.
  induction rules as [|[k0 p0] rules IH]; intros tp Hk; [reflexivity|].
  simpl in Hk. apply not_elem_of_cons in Hk as [Hne Hk].
  rewrite apply_rules_cons, IH by exact Hk. apply incr_if_get. simpl.
  intros E. now apply Hne.
Qed.

Lemma apply_rules_get rules tp s k p :
  NoDup (map fst rules) -> In (k, p) rules ->
  Dict.get k (apply_rules rules tp s)
  = if p s then Some (S (default 0 (Dict.get k tp))) else Dict.get k tp.
Proof.
  revert tp.
  induction rules as [|[k0 p0] rules IH]; intros tp Hnd Hin;
    [destruct Hin|].
  simpl in Hnd. apply NoDup_cons in Hnd as [Hk0 Hnd].
  rewrite apply_rules_cons. simpl fst. simpl snd.
  destruct Hin as [Heq|Hin].
  - injection Heq as -> ->.
    rewrite (apply_rules_other rules _ s k Hk0).
    unfold Analyze.incr_if. destruct (p s); [|reflexivity].
    rewrite incr_get. now rewrite decide_True.
  - rewrite (IH _ Hnd Hin).
    assert (Hne : k0 <> k).
    { intros ->. apply Hk0. apply list_elem_of_In, in_map_iff.
      now exists (k, p). }
    now rewrite (incr_if_get _ _ _ _ Hne).
Qed.

Lemma topic_rules_NoDup : NoDup (map fst Report.TOPIC_RULES).
Proof. apply (bool_decide_unpack _). vm_compute. exact I. Qed.

Lemma topics_fold es a k p :
  In (k, p) Report.TOPIC_RULES ->
  Dict.get k (Analyze.topics (fold_left Analyze.analyze_step es a))
  = match on_topic p es with
    | [] => Dict.get k (Analyze.topics a)
    | l => Some (default 0 (Dict.get k (Analyze.topics a)) + length l)
    end.
Proof.
  intros Hin. revert a. induction es as [|e es IH]; intros a; [reflexivity|].
  simpl fold_left. rewrite IH.
  change (Analyze.topics (Analyze.analyze_step a e))
    with (Analyze._categorize_topic (Analyze.topics a)
                                    (Str.lower (Analyze.subject e))).
  rewrite categorize_as_rules.
  rewrite (apply_rules_get _ _ _ k p topic_rules_NoDup Hin).
  unfold on_topic. simpl List.filter.
  destruct (p (Str.lower (Analyze.subject e))); [|reflexivity].
  destruct (List.filter _ es); simpl; f_equal; lia.
Qed.

Lemma topics_fold_other es a k :
  k ∉ map fst Report.TOPIC_RULES ->
  Dict.get k (Analyze.topics (fold_left Analyze.analyze_step es a))
  = Dict.get k (Analyze.topics a).
Proof.
  intros Hk. revert a. induction es as [|e es IH]; intros a; [reflexivity|].
  simpl fold_left. rewrite IH.
  change (Analyze.topics (Analyze.analyze_step a e))
    with (Analyze._categorize_topic (Analyze.topics a)
                                    (Str.lower (Analyze.subject e))).
  rewrite categorize_as_rules. now apply apply_rules_other.
Qed.

Lemma filter_length_le {A} (p : A -> bool) l :
  length (List.filter p l) <= length l.
Proof. induction l as [|x l IH]; simpl; [lia|]. destruct (p x); simpl; lia. Qed.

(** X17. After the analysis the counter of a topic is the number of records
    whose lowercased subject passes the test of that topic, and the topic is
    missing from the counters when there is none; no other name is ever
    counted. The counters are the topic distribution of the summary when
    [generate_summary] returns. *)
Theorem topic_counts_follow_the_tests
        (parsed : list (option Analyze.email_data)) (k : str) :
  let a := Analyze.run parsed in
  (forall p, In (k, p) Report.TOPIC_RULES ->
     Dict.get k (Analyze.topics a)
     = match List.filter (fun e => p (Str.lower (Analyze.subject e)))
                         (Analyze.emails a) with
       | [] => None
       | l => Some (length l)
       end)
  /\ (k ∉ map fst Report.TOPIC_RULES -> Dict.get k (Analyze.topics a) = None)
  /\ (forall n, Dict.get k (Analyze.topics a) = Some n ->
                1 <= n <= length (Analyze.emails a))
  /\ (forall s, Summary.generate_summary a = Returns s ->
                Summary.topic_distribution s = Analyze.topics a).
Proof.
  intros a.
  assert (Hrule : forall p, In (k, p) Report.TOPIC_RULES ->
            Dict.get k (Analyze.topics a)
            = match on_topic p (Analyze.emails a) with
              | [] => None
              | l => Some (length l)
              end).
  { intros p Hin. unfold a, Analyze.run, Analyze.analyze.
    rewrite analyze_fold_emails, (topics_fold _ _ k p Hin). simpl.
    now destruct (on_topic _ _). }
  assert (Hother : k ∉ map fst Report.TOPIC_RULES ->
                   Dict.get k (Analyze.topics a) = None).
  { intros Hk. unfold a, Analyze.run, Analyze.analyze.
    now rewrite (topics_fold_other _ _ k Hk). }
  split; [exact Hrule|]. split; [exact Hother|].
  split.
  2: { intros s Hs. unfold Summary.generate_summary in Hs.
       destruct (Summary.min_of (Summary.periods a)); simpl in Hs;
         [|discriminate].
       destruct (Summary.max_of (Summary.periods a)); simpl in Hs;
         [|discriminate].
       destruct (Report.get_key_threads a); simpl in Hs; [|discriminate].
       now injection Hs as <-. }
  intros n Hn.
  destruct (decide (k ∈ map fst Report.TOPIC_RULES)) as [Hk|Hk].
  - apply list_elem_of_In, in_map_iff in Hk as ([k' p] & Hfst & Hin).
    simpl in Hfst. subst k'. rewrite (Hrule p Hin) in Hn.
    pose proof (filter_length_le (fun e => p (Str.lower (Analyze.subject e)))
                                 (Analyze.emails a)) as Hle.
    fold (on_topic p (Analyze.emails a)) in Hle.
    destruct (on_topic p (Analyze.emails a)); [discriminate|].
    injection Hn as <-. simpl in *. lia.
  - rewrite (Hother Hk) in Hn. discriminate.
Qed.

(** ** Key threads *)

Lemma groups_fold es g k :
  Dict.get k (fold_left Report.group_add es g)
  = match grouped_under k es with
    | [] => Dict.get k g
    | l => Some (default [] (Dict.get k g) ++ l)
    end.
Proof.
  revert g. induction es as [|e es IH]; intros g; [reflexivity|].
  simpl fold_left. rewrite IH. unfold Report.group_add, grouped_under.
  simpl List.filter.
  destruct (decide (Report.group_subject (Analyze.subject e) = k)) as [Hk|Hk].
  - rewrite (bool_decide_eq_true_2 _ Hk). subst k.
    rewrite dict_get_set_eq. simpl.
    destruct (List.filter _ es); [reflexivity|].
    now rewrite <- app_assoc.
  - rewrite (bool_decide_eq_false_2 _ Hk).
    now rewrite dict_get_set_ne by exact Hk.
Qed.

Lemma group_by_subject_NoDup es :
  NoDup (Dict.keys (Report.group_by_subject es)).
Proof.
  unfold Report.group_by_subject. apply fold_keys_NoDup; [|constructor].
  intros d x Hd. now apply dict_set_NoDup.
Qed.

Lemma group_by_subject_In es k l :
  In (k, l) (Report.group_by_subject es) <->
  l = grouped_under k es /\ l <> [].
Proof.
  pose proof (groups_fold es [] k) as Hget. simpl in Hget.
  fold (Report.group_by_subject es) in Hget. split.
  - intros Hin.
    apply (dict_In_get _ _ _ (group_by_subject_NoDup es)) in Hin.
    rewrite Hin in Hget.
    destruct (grouped_under k es); [discriminate|].
    injection Hget as ->. now split.
  - intros [-> Hne]. apply dict_get_In. rewrite Hget.
    now destruct (grouped_under k es).
Qed.

Lemma group_subject_length s : length (Report.group_subject s) <= 80.
Proof. unfold Report.group_subject, Str.upto. apply firstn_le_length. Qed.

Lemma describe_fields k l kt :
  Report.describe (k, l) = Returns kt ->
  Report.kt_subject kt = k
  /\ Report.kt_message_count kt = length l
  /\ Report.kt_participants kt = contributors_of l.
Proof.
  unfold Report.describe.
  destruct (omap Analyze.date l) as [|d ds]; simpl.
  - intros [= <-]. now repeat split.
  - destruct (min_from id d ds); simpl; [|discriminate].
    destruct (max_from id d ds); simpl; [|discriminate].
    intros [= <-]. now repeat split.
Qed.

Lemma lt_raises a b e : DT.lt a b = Raises e -> e = TypeError.
Proof.
  unfold DT.lt. destruct (dt_utcoffset a), (dt_utcoffset b); congruence.
Qed.

Lemma min_from_raises {A} (key : A -> datetime) cur l e :
  min_from key cur l = Raises e -> e = TypeError.
Proof.
  revert cur. induction l as [|x l IH]; intros cur; simpl; [discriminate|].
  destruct (DT.lt (key x) (key cur)) as [b|r] eqn:Hlt; simpl; [apply IH|].
  intros [= <-]. exact (lt_raises _ _ _ Hlt).
Qed.

Lemma max_from_raises {A} (key : A -> datetime) cur l e :
  max_from key cur l = Raises e -> e = TypeError.
Proof.
  revert cur. induction l as [|x l IH]; intros cur; simpl; [discriminate|].
  destruct (DT.lt (key cur) (key x)) as [b|r] eqn:Hlt; simpl; [apply IH|].
  intros [= <-]. exact (lt_raises _ _ _ Hlt).
Qed.

Lemma describe_raises g e : Report.describe g = Raises e -> e = TypeError.
Proof.
  destruct g as [k l]. unfold Report.describe.
  destruct (omap Analyze.date l) as [|d ds]; simpl; [discriminate|].
  destruct (min_from id d ds) as [m|r] eqn:Hm; simpl.
  - destruct (max_from id d ds) as [m'|r] eqn:Hm'; simpl; [discriminate|].
    intros [= <-]. exact (max_from_raises _ _ _ _ Hm').
  - intros [= <-]. exact (min_from_raises _ _ _ _ Hm).
Qed.

Lemma for_each_raises {A B} (f : A -> outcome B) l x e0 :
  In x l -> (exists e, f x = Raises e) ->
  (forall y e, f y = Raises e -> e = e0) ->
  for_each f l = Raises e0.
Proof.
  intros Hin Hx Hall. induction l as [|a l IH]; [destruct Hin|]. simpl.
  destruct (f a) as [b|e] eqn:Hfa; simpl.
  - destruct Hin as [->|Hin].
    + destruct Hx as [e He]. congruence.
    + now rewrite (IH Hin).
  - f_equal. exact (Hall a e Hfa).
Qed.

Lemma Forall2_In_l {A B} (R : A -> B -> Prop) l l' x :
  Forall2 R l l' -> In x l -> exists y, In y l' /\ R x y.
Proof.
  induction 1 as [|a b l l' Hab _ IH]; [intros []|].
  intros [->|Hin].
  - exists b. split; [now left | exact Hab].
  - destruct (IH Hin) as (y & Hy & HR). exists y. split; [now right | exact HR].
Qed.

Lemma Forall2_In_r {A B} (R : A -> B -> Prop) l l' y :
  Forall2 R l l' -> In y l' -> exists x, In x l /\ R x y.
Proof.
  induction 1 as [|a b l l' Hab _ IH]; [intros []|].
  intros [->|Hin].
  - exists a. split; [now left | exact Hab].
  - destruct (IH Hin) as (x & Hx & HR). exists x. split; [now right | exact HR].
Qed.

Lemma sorted_filter {A} (key : A -> nat) (p : A -> bool) l :
  StronglySorted (key_ge key) l ->
  StronglySorted (key_ge key) (List.filter p l).
Proof.
  induction 1 as [|x l Hl IH Hx]; simpl; [constructor|].
  destruct (p x); [|exact IH]. constructor; [exact IH|].
  apply List.Forall_forall. intros y Hy. apply filter_In in Hy as [Hy _].
  rewrite List.Forall_forall in Hx. now apply Hx.
Qed.

Lemma described_sorted l kts :
  for_each Report.describe l = Returns kts ->
  StronglySorted (key_ge (fun g => length (snd g))) l ->
  StronglySorted (key_ge Report.kt_message_count) kts.
Proof.
  intros H. apply for_each_Forall2 in H.
  induction H as [|g kt l kts Hg Hl IH]; intros Hs; [constructor|].
  inversion Hs as [|? ? Hs' Hall]; subst.
  constructor; [now apply IH|].
  apply List.Forall_forall. intros kt' Hkt'.
  destruct (Forall2_In_r _ _ _ _ Hl Hkt') as ([k' l'] & Hin & Hd).
  rewrite List.Forall_forall in Hall. specialize (Hall _ Hin).
  destruct g as [k0 l0].
  apply describe_fields in Hg as (_ & Hc & _).
  apply describe_fields in Hd as (_ & Hc' & _).
  unfold key_ge in *. simpl in Hall. lia.
Qed.

Lemma described_subjects l kts :
  for_each Report.describe l = Returns kts ->
  map Report.kt_subject kts = map fst l.
Proof.
  intros H. apply for_each_Forall2 in H.
  induction H as [|[k0 l0] kt l kts Hg Hl IH]; [reflexivity|].
  simpl. apply describe_fields in Hg as (-> & _). now rewrite IH.
Qed.

Lemma NoDup_filter_keys {V} (p : str * V -> bool) (l : list (str * V)) :
  NoDup (map fst l) -> NoDup (map fst (List.filter p l)).
Proof.
  intros H. apply (sublist_NoDup _ (map fst l)); [exact H|].
  apply sublist_filter_map.
Qed.

(** X18. The key threads are at most 50, the largest first and no subject
    twice. Each has three records or more: those of the analyzer whose
    subject, without reply markers and PATCH tags, stripped and cut to 80
    characters, is the subject shown; its participants are their distinct
    lowercased addresses. A group of three records or more that is not
    listed is no larger than any of the 50 that are. *)
Theorem key_threads_are_the_large_groups
        (a : Analyze.EmailAnalyzer) (kts : list Report.key_thread) :
  Report.get_key_threads a = Returns kts ->
  length kts <= 50
  /\ StronglySorted (key_ge Report.kt_message_count) kts
  /\ NoDup (map Report.kt_subject kts)
  /\ Forall (fun kt =>
               let es :=
                 List.filter
                   (fun e => bool_decide
                               (Report.group_subject (Analyze.subject e)
                                = Report.kt_subject kt))
                   (Analyze.emails a) in
               Report.kt_message_count kt = length es
               /\ 3 <= Report.kt_message_count kt
               /\ Report.kt_participants kt
                  = size (list_to_set (map Analyze.author_key es) : gset str)
               /\ 1 <= Report.kt_participants kt
               /\ Report.kt_participants kt <= Report.kt_message_count kt
               /\ length (Report.kt_subject kt) <= 80)
            kts
  /\ forall k,
       3 <= length (List.filter
                      (fun e => bool_decide
                                  (Report.group_subject (Analyze.subject e) = k))
                      (Analyze.emails a)) ->
       (exists kt, In kt kts /\ Report.kt_subject kt = k)
       \/ (length kts = 50
           /\ Forall (fun kt =>
                        length (List.filter
                                  (fun e => bool_decide
                                     (Report.group_subject (Analyze.subject e)
                                      = k))
                                  (Analyze.emails a))
                        <= Report.kt_message_count kt) kts).
Proof.
  unfold Report.get_key_threads. intros Hret.
  set (key := fun g : str * list Analyze.email_data => length (snd g)) in *.
  set (groups := Report.group_by_subject (Analyze.emails a)) in *.
  set (big := fun g : str * list Analyze.email_data => 3 <=? length (snd g))
    in *.
  pose proof (for_each_Forall2 _ _ _ Hret) as Hall.
  pose proof (for_each_length _ _ _ Hret) as Hlen.
  assert (Hsorted : StronglySorted (key_ge key) (sort_desc key groups))
    by apply sort_desc_sorted.
  assert (Hnd : NoDup (map fst (sort_desc key groups))).
  { rewrite (Permutation_map fst (sort_desc_perm key groups)).
    apply group_by_subject_NoDup. }
  split.
  { rewrite Hlen. etransitivity; [apply filter_length_le|].
    rewrite length_firstn. lia. }
  split.
  { apply (described_sorted _ _ Hret).
    apply sorted_filter, firstn_sorted, Hsorted. }
  split.
  { rewrite (described_subjects _ _ Hret). apply NoDup_filter_keys.
    rewrite <- firstn_map. now apply NoDup_firstn. }
  split.
  { apply List.Forall_forall. intros kt Hkt.
    destruct (Forall2_In_r _ _ _ _ Hall Hkt) as ([k l] & Hin & Hd).
    apply describe_fields in Hd as (Hs & Hc & Hp).
    apply filter_In in Hin as [Hin Hbig].
    apply firstn_In, sort_desc_In, group_by_subject_In in Hin as [Hl Hne].
    unfold big in Hbig. cbn [snd] in Hbig. apply Nat.leb_le in Hbig.
    cbv zeta. rewrite Hs. fold (grouped_under k (Analyze.emails a)).
    rewrite <- Hl, Hc, Hp. unfold contributors_of.
    split; [reflexivity|]. split; [exact Hbig|]. split; [reflexivity|].
    split.
    - destruct l as [|e l]; [congruence|]. apply size_list_to_set_pos.
    - split.
      + etransitivity; [apply size_list_to_set_le|]. now rewrite length_map.
      + rewrite <- Hs.
        destruct l as [|e l]; [congruence|].
        assert (He : In e (grouped_under k (Analyze.emails a)))
          by (rewrite <- Hl; now left).
        apply filter_In in He as [_ He]. apply bool_decide_eq_true_1 in He.
        rewrite Hs, <- He. apply group_subject_length. }
  intros k Hk. fold (grouped_under k (Analyze.emails a)) in *.
  set (l := grouped_under k (Analyze.emails a)) in *.
  assert (Hin : In (k, l) (sort_desc key groups)).
  { apply sort_desc_In, group_by_subject_In. split; [reflexivity|].
    intros E. rewrite E in Hk. simpl in Hk. lia. }
  rewrite <- (firstn_skipn 50 (sort_desc key groups)) in Hin.
  apply in_app_or in Hin as [Hin|Hin].
  - left.
    assert (Hf : In (k, l) (List.filter big (firstn 50 (sort_desc key groups)))).
    { apply filter_In. split; [exact Hin|]. now apply Nat.leb_le. }
    destruct (Forall2_In_l _ _ _ _ Hall Hf) as (kt & Hkt & Hd).
    exists kt. split; [exact Hkt|]. now apply describe_fields in Hd.
  - right.
    assert (Hge : forall g, In g (firstn 50 (sort_desc key groups)) ->
                            length l <= key g).
    { intros g Hg.
      apply (sorted_app_ge key (firstn 50 (sort_desc key groups))
                           (skipn 50 (sort_desc key groups)) g (k, l));
        [now rewrite firstn_skipn | exact Hg | exact Hin]. }
    assert (Hall_big : List.filter big (firstn 50 (sort_desc key groups))
                       = firstn 50 (sort_desc key groups)).
    { apply forallb_filter_id. apply forallb_forall. intros g Hg.
      apply Nat.leb_le. specialize (Hge g Hg). unfold key in Hge. lia. }
    rewrite Hall_big in *.
    split.
    + rewrite Hlen, length_firstn.
      assert (50 < length (sort_desc key groups)); [|lia].
      destruct (le_lt_dec (length (sort_desc key groups)) 50) as [Hle|Hlt];
        [|exact Hlt].
      rewrite skipn_all2 in Hin by exact Hle. destruct Hin.
    + apply List.Forall_forall. intros kt Hkt.
      destruct (Forall2_In_r _ _ _ _ Hall Hkt) as ([k' l'] & Hin' & Hd).
      apply describe_fields in Hd as (_ & Hc & _).
      specialize (Hge _ Hin'). unfold key in Hge. simpl in Hge. lia.
Qed.

Lemma key_threads_are_the_large_groups_witness :
  map Report.kt_subject sample_key_threads = [ $"sparse: fix cast" ]
  /\ length sample_key_threads <= 50.
Proof.
  split; [reflexivity|].
  apply (key_threads_are_the_large_groups sample_analyzer sample_key_threads).
  vm_compute. reflexivity.
Defined.

(** X19. When one of the 50 largest groups has three records or more, and
    among them one with a date that has an offset and one with a date that
    has none, [get_key_threads] raises [TypeError]. *)
Theorem mixed_dates_in_a_group_raise
        (a : Analyze.EmailAnalyzer) (k : str) (es : list Analyze.email_data)
        (e1 e2 : Analyze.email_data) (d1 d2 : datetime) :
  In (k, es) (largest_groups a) ->
  3 <= length es ->
  In e1 es -> In e2 es ->
  Analyze.date e1 = Some d1 -> Analyze.date e2 = Some d2 ->
  ~ same_kind d1 d2 ->
  Report.get_key_threads a = Raises TypeError.
Proof.
  intros Hin Hbig H1 H2 Hd1 Hd2 Hmix. unfold Report.get_key_threads.
  apply (for_each_raises _ _ (k, es)).
  - apply filter_In. split; [exact Hin|]. now apply Nat.leb_le.
  - unfold Report.describe.
    assert (Hi1 : In d1 (omap Analyze.date es)).
    { apply list_elem_of_In, list_elem_of_omap. exists e1.
      split; [now apply list_elem_of_In | exact Hd1]. }
    assert (Hi2 : In d2 (omap Analyze.date es)).
    { apply list_elem_of_In, list_elem_of_omap. exists e2.
      split; [now apply list_elem_of_In | exact Hd2]. }
    destruct (omap Analyze.date es) as [|d ds]; [destruct Hi1|].
    rewrite (min_from_mixed id d ds
               (mixed_with_head id d ds d1 d2 Hi1 Hi2 Hmix)).
    simpl. eauto.
  - apply describe_raises.
Qed.

Lemma mixed_dates_in_a_group_raise_witness :
  Report.get_key_threads mixed_analyzer = Raises TypeError.
Proof.
  apply (mixed_dates_in_a_group_raise mixed_analyzer $"sparse: fix cast"
           (Analyze.emails mixed_analyzer)
           (mail_dated (Some aware_date)) (mail_dated (Some naive_date))
           aware_date naive_date).
  - vm_compute. now left.
  - simpl. lia.
  - simpl. tauto.
  - simpl. tauto.
  - reflexivity.
  - reflexivity.
  - unfold same_kind. simpl. intros [_ H]. specialize (H eq_refl). discriminate.
Defined.

(** ** Key discussions *)

Lemma discuss_fold es c :
  let r := fold_left Report.discuss es c in
  let sub kw e := Report.subject_has kw e in
  Report.sparse_features r
  = Report.sparse_features c ++ List.filter Report.is_feature es
  /\ Report.kernel_integration r
     = Report.kernel_integration c
       ++ List.filter (fun e => sub $"kernel" e || sub $"linux" e) es
  /\ Report.bug_reports r
     = Report.bug_reports c
       ++ List.filter (fun e => sub $"bug" e || sub $"crash" e
                                || sub $"segfault" e) es
  /\ Report.performance r
     = Report.performance c
       ++ List.filter (fun e => sub $"performance" e || sub $"slow" e
                                || sub $"fast" e) es
  /\ Report.type_checking r
     = Report.type_checking c
       ++ List.filter (fun e => sub $"type" e
                                && (sub $"check" e || sub $"error" e)) es
  /\ Report.warnings r
     = Report.warnings c ++ List.filter (fun e => sub $"warning" e) es
  /\ Report.llvm_clang r
     = Report.llvm_clang c
       ++ List.filter (fun e => sub $"llvm" e || sub $"clang" e) es
  /\ Report.gcc r = Report.gcc c ++ List.filter (fun e => sub $"gcc" e) es.
Proof.
  revert c. induction es as [|e es IH]; intros c; cbv zeta.
  - simpl. now rewrite !app_nil_r.
  - simpl fold_left. specialize (IH (Report.discuss c e)). cbv zeta in IH.
    destruct IH as (H1 & H2 & H3 & H4 & H5 & H6 & H7 & H8).
    rewrite H1, H2, H3, H4, H5, H6, H7, H8.
    cbn [Report.discuss Report.sparse_features Report.kernel_integration
         Report.bug_reports Report.performance Report.type_checking
         Report.warnings Report.llvm_clang Report.gcc List.filter].
    unfold Report.append_if.
    repeat split;
      match goal with
      | |- context [if ?b then _ ++ [e] else _] =>
          destruct b; [now rewrite <- app_assoc | reflexivity]
      end.
Qed.

(** X20. Each list of the key discussions holds, in the order they were
    read, exactly the records that meet the condition of the list; the
    conditions are tested one by one, so a record may be in several lists or
    in none. *)
Theorem discussions_keep_the_order_read (a : Analyze.EmailAnalyzer) :
  let r := Report.extract_key_discussions a in
  let es := Analyze.emails a in
  let sub kw e := Str.contains kw (Str.lower (Analyze.subject e)) in
  Report.sparse_features r
  = List.filter
      (fun e => existsb
                  (fun kw => sub kw e
                             || Str.contains kw
                                  (Str.upto 2000 (Str.lower (Analyze.body e))))
                  [ $"new feature"; $"add support"; $"implement" ]) es
  /\ Report.kernel_integration r
     = List.filter (fun e => sub $"kernel" e || sub $"linux" e) es
  /\ Report.bug_reports r
     = List.filter (fun e => sub $"bug" e || sub $"crash" e
                             || sub $"segfault" e) es
  /\ Report.performance r
     = List.filter (fun e => sub $"performance" e || sub $"slow" e
                             || sub $"fast" e) es
  /\ Report.type_checking r
     = List.filter (fun e => sub $"type" e
                             && (sub $"check" e || sub $"error" e)) es
  /\ Report.warnings r = List.filter (fun e => sub $"warning" e) es
  /\ Report.llvm_clang r
     = List.filter (fun e => sub $"llvm" e || sub $"clang" e) es
  /\ Report.gcc r = List.filter (fun e => sub $"gcc" e) es.
Proof.
  intros r es sub.
  exact (discuss_fold (Analyze.emails a) Report.no_discussions).
Qed.

(** ** The statistics of a year *)

Lemma new_year_tallied : tallied Years.new_year.
Proof. repeat split. Qed.

Lemma add_thread_tallied cat t y :
  tallied y -> tallied (Years.add_thread cat t y).
Proof.
  intros (Ht & Hm & Hc & Hcat). unfold tallied. cbv zeta.
  cbn [Years.add_thread Years.year_stats Years.threads Years.total_threads
       Years.total_messages Years.categories].
  rewrite length_app, map_app, list_sum_app. simpl length. simpl list_sum.
  split; [lia|]. split; [lia|]. split; [rewrite incr_total; lia|].
  intros cat'. rewrite incr_get, List.filter_app, length_app.
  cbn [List.filter Years.primary_category].
  destruct (decide (cat = cat')) as [<-|Hne].
  - rewrite bool_decide_eq_true_2 by reflexivity. simpl.
    rewrite (Hcat cat). lia.
  - rewrite bool_decide_eq_false_2 by exact Hne. simpl.
    rewrite (Hcat cat'). lia.
Qed.

Lemma visit_tallied cat st t :
  (forall y info, In (y, info) (Years.yearly_data st) ->
                  tallied info /\ Years.threads info <> []) ->
  forall y info, In (y, info) (Years.yearly_data (Years.visit cat st t)) ->
                 tallied info /\ Years.threads info <> [].
Proof.
  intros Hst y info. unfold Years.visit. case_bool_decide; [apply Hst|].
  simpl. intros Hin. apply dict_set_In in Hin as [Heq|Hin];
    [|exact (Hst y info Hin)].
  injection Heq as -> ->. split.
  - apply add_thread_tallied.
    destruct (Dict.get (Years.bucket t) (Years.yearly_data st)) as [y0|] eqn:Hy;
      simpl; [|apply new_year_tallied].
    apply dict_get_In in Hy. now apply Hst in Hy.
  - simpl. now destruct (Years.threads _).
Qed.

Lemma organize_tallied topics y info :
  In (y, info) (Years.yearly_data (Years.organize_by_year topics)) ->
  tallied info /\ Years.threads info <> [].
Proof.
  unfold Years.organize_by_year. rewrite organize_as_one_loop.
  assert (H : forall y info, In (y, info) (Years.yearly_data Years.start) ->
                             tallied info /\ Years.threads info <> [])
    by (intros ? ? []).
  revert H y info. generalize Years.start.
  induction (Years.occurrences topics) as [|[cat t] l IH]; intros st H;
    simpl; [exact H|].
  apply IH. now apply visit_tallied.
Qed.

(** X21. The statistics of a year agree with the threads listed under it:
    the year has at least one thread, the thread total is their number, the
    message total is the sum of their message counts, and the count of a
    category is the number of them that have it as primary category, so
    that the category counts sum to the thread total. Each of them is in the
    year of its bucket. *)
Theorem year_statistics_match_its_threads
        (topics : Dict.t str (list Years.thread)) (y : str)
        (info : Years.year_info) :
  In (y, info) (Years.yearly_data (Years.organize_by_year topics)) ->
  let s := Years.year_stats info in
  Years.threads info <> []
  /\ Years.total_threads s = length (Years.threads info)
  /\ Years.total_messages s
     = list_sum (map (fun c => Years.message_count (Years.copied c))
                     (Years.threads info))
  /\ (forall cat,
        default 0 (Dict.get cat (Years.categories s))
        = length (List.filter
                    (fun c => bool_decide (Years.primary_category c = cat))
                    (Years.threads info)))
  /\ list_sum (Dict.values (Years.categories s)) = Years.total_threads s
  /\ Forall (fun c => Years.bucket (Years.copied c) = y) (Years.threads info).
Proof.
  intros Hin s.
  destruct (organize_tallied topics y info Hin) as [(Ht & Hm & Hc & Hcat) Hne].
  split; [exact Hne|]. split; [exact Ht|]. split; [exact Hm|].
  split; [exact Hcat|]. split.
  - unfold s. rewrite Ht. exact Hc.
  - apply List.Forall_forall. intros c Hc'.
    exact (organize_well_bucketed topics y info c Hin Hc').
Qed.

Lemma year_statistics_match_its_threads_witness :
  Years.threads year_1999 <> []
  /\ Years.total_threads (Years.year_stats year_1999)
     = length (Years.threads year_1999).
Proof.
  assert (Hin : In ($"1999", year_1999)
                   (Years.yearly_data (Years.organize_by_year topics_sample)))
    by (vm_compute; tauto).
  split;
    apply (year_statistics_match_its_threads topics_sample $"1999" year_1999
                                             Hin).
Defined.

Lemma length_flat_map {A B} (f : A -> list B) l :
  length (flat_map f l) = list_sum (map (fun x => length (f x)) l).
Proof.
  induction l as [|x l IH]; simpl; [reflexivity|].
  now rewrite length_app, IH.
Qed.

Lemma visit_counts cat st t :
  length (Years.emitted (Years.yearly_data st)) = size (Years.processed_threads st) ->
  length (Years.emitted (Years.yearly_data (Years.visit cat st t)))
  = size (Years.processed_threads (Years.visit cat st t)).
Proof.
  intros H. unfold Years.visit. case_bool_decide as Hk; [exact H|]. simpl.
  destruct (emitted_add (Years.yearly_data st) (Years.bucket t)
              {| Years.copied := t; Years.primary_category := cat |}
              (Years.add_thread cat t
                 (default Years.new_year
                    (Dict.get (Years.bucket t) (Years.yearly_data st))))
              eq_refl) as (l1 & l2 & E1 & E2).
  rewrite E2. rewrite E1 in H. rewrite length_app in *. simpl.
  rewrite size_union by now apply disjoint_singleton_r.
  rewrite size_singleton. lia.
Qed.

Lemma organize_counts topics :
  length (Years.emitted (Years.yearly_data (Years.organize_by_year topics)))
  = size (Years.processed_threads (Years.organize_by_year topics)).
Proof.
  unfold Years.organize_by_year. rewrite organize_as_one_loop.
  assert (H : length (Years.emitted (Years.yearly_data Years.start))
              = size (Years.processed_threads Years.start))
    by (symmetry; apply (size_empty (C:=gset str))).
  revert H. generalize Years.start.
  induction (Years.occurrences topics) as [|[cat t] l IH]; intros st H;
    simpl; [exact H|].
  apply IH. now apply visit_counts.
Qed.

(** X22. The keys met are those of the threads of the document, and the
    years hold as many threads as there are distinct keys: that is the
    number of copies written, and the sum of the thread totals of the
    years. *)
Theorem years_hold_one_thread_for_each_key
        (topics : Dict.t str (list Years.thread)) :
  let st := Years.organize_by_year topics in
  let keys : gset str :=
    list_to_set (map (fun x => Years.thread_key (snd x))
                     (Years.occurrences topics)) in
  Years.processed_threads st = keys
  /\ length (Years.emitted (Years.yearly_data st)) = size keys
  /\ list_sum (map (fun info => Years.total_threads (Years.year_stats info))
                   (Dict.values (Years.yearly_data st)))
     = size keys.
Proof.
  intros st keys.
  assert (Hkeys : Years.processed_threads st = keys).
  { apply set_eq. intros k. unfold keys, st.
    rewrite elem_of_list_to_set, list_elem_of_In, in_map_iff.
    destruct (organize_visited topics) as [Hproc _].
    rewrite (Hproc k). split.
    - intros (x & Hx & Hk). now exists x.
    - intros (x & Hk & Hx). now exists x. }
  split; [exact Hkeys|]. rewrite <- Hkeys. unfold st.
  split; [apply organize_counts|].
  rewrite <- organize_counts. unfold Years.emitted.
  rewrite length_flat_map. f_equal. unfold Dict.values.
  rewrite !map_map. apply map_ext_in. intros [y info] Hin. simpl.
  now destruct (organize_tallied topics y info Hin) as [(Ht & _) _].
Qed.

(** X23. When the thread itself gives no year and its first message has a
    date entry that is null or empty, the thread goes to the bucket
    "unknown": the timestamp and the date text of the message are not
    looked at. *)
Theorem null_date_hides_the_other_entries
        (t : Years.thread) (m : Years.message) (ms : list Years.message) :
  Years.year_of_thread t = None ->
  Years.t_messages t = Some (m :: ms) ->
  Years.m_date m = Years.Null \/ Years.m_date m = Years.Value [] ->
  Years.bucket t = $"unknown".
Proof.
  intros Hy Hm Hd. unfold Years.bucket, Years.year_of_messages.
  rewrite Hy, Hm. unfold Years.timestamp.
  now destruct Hd as [-> | ->].
Qed.

Lemma null_date_hides_the_other_entries_witness :
  Years.bucket undated_thread = $"unknown".
Proof.
  apply (null_date_hides_the_other_entries undated_thread
           {| Years.m_date := Years.Null; Years.m_timestamp := Years.Value $"2010-03-01";
              Years.m_date_str := Years.Value $"Mon, 1 Mar 2010 10:00:00" |} []).
  - reflexivity.
  - reflexivity.
  - now left.
Defined.

(** ** The files of the years *)

Lemma str_lt_irrefl a : YearFiles.str_lt a a = false.
Proof.
  induction a as [|x a IH]; cbn [YearFiles.str_lt]; [reflexivity|].
  now rewrite N.ltb_irrefl, N.eqb_refl, IH.
Qed.

Lemma str_lt_trans a b c :
  YearFiles.str_lt a b = true -> YearFiles.str_lt b c = true ->
  YearFiles.str_lt a c = true.
Proof.
  revert b c. induction a as [|x a IH]; intros [|y b] [|z c];
    cbn [YearFiles.str_lt]; try discriminate; try reflexivity.
  intros H1 H2. specialize (IH b c).
  destruct (N.ltb_spec (Str.code x) (Str.code y)),
           (N.eqb_spec (Str.code x) (Str.code y)),
           (N.ltb_spec (Str.code y) (Str.code z)),
           (N.eqb_spec (Str.code y) (Str.code z)),
           (N.ltb_spec (Str.code x) (Str.code z)),
           (N.eqb_spec (Str.code x) (Str.code z));
    simpl in *; try lia; try discriminate; try reflexivity; auto.
Qed.

Lemma str_lt_asym a b :
  YearFiles.str_lt a b = true -> YearFiles.str_lt b a = false.
Proof.
  intros H. destruct (YearFiles.str_lt b a) eqn:E; [|reflexivity].
  pose proof (str_lt_trans _ _ _ H E) as Ha.
  now rewrite str_lt_irrefl in Ha.
Qed.

Section SortBy.
Context {A : Type} (before : A -> A -> bool).

Hypothesis before_trans :
  forall x y z, before x y = true -> before y z = true -> before x z = true.
Hypothesis before_asym : forall x y, before x y = true -> before y x = false.

Lemma insert_by_perm x l : Permutation (YearFiles.insert_by before x l) (x :: l).
Proof.
  induction l as [|y l IH]; simpl; [reflexivity|].
  destruct (before x y); [reflexivity|].
  rewrite IH. apply perm_swap.
Qed.

Lemma sort_by_perm l : Permutation (YearFiles.sort_by before l) l.
Proof.
  unfold YearFiles.sort_by.
  enough (H : forall acc,
             Permutation
               (fold_left (fun acc x => YearFiles.insert_by before x acc) l acc)
               (acc ++ l)) by apply (H []).
  induction l as [|x l IH]; intros acc; simpl.
  - now rewrite app_nil_r.
  - rewrite IH, insert_by_perm. simpl. apply Permutation_middle.
Qed.

Lemma insert_by_sorted x l :
  StronglySorted (YearFiles.in_order before) l ->
  StronglySorted (YearFiles.in_order before) (YearFiles.insert_by before x l).
Proof.
  induction 1 as [|y l Hl IH Hy]; simpl.
  - repeat constructor.
  - destruct (before x y) eqn:Hxy.
    + constructor; [now constructor|].
      constructor; [exact (before_asym _ _ Hxy)|].
      eapply List.Forall_impl; [|exact Hy]. intros z Hz. unfold YearFiles.in_order in *.
      destruct (before z x) eqn:Hzx; [|reflexivity].
      now rewrite (before_trans _ _ _ Hzx Hxy) in Hz.
    + constructor; [exact IH|].
      apply List.Forall_forall. intros z Hz.
      apply (Permutation_in _ (insert_by_perm x l)) in Hz.
      destruct Hz as [<-|Hz]; [exact Hxy|].
      rewrite List.Forall_forall in Hy. now apply Hy.
Qed.

Lemma sort_by_sorted l : StronglySorted (YearFiles.in_order before) (YearFiles.sort_by before l).
Proof.
  unfold YearFiles.sort_by.
  assert (H : StronglySorted (YearFiles.in_order before) (@nil A)) by constructor.
  revert H. generalize (@nil A) as acc.
  induction l as [|x l IH]; intros acc Hacc; simpl; [exact Hacc|].
  apply IH. now apply insert_by_sorted.
Qed.

End SortBy.

Lemma sorted_map {A B} (f : A -> B) (R : B -> B -> Prop) l :
  StronglySorted (fun x y => R (f x) (f y)) l -> StronglySorted R (map f l).
Proof.
  induction 1 as [|x l Hl IH Hx]; simpl; constructor; [exact IH|].
  apply List.Forall_forall. intros y Hy.
  apply in_map_iff in Hy as (z & <- & Hz).
  rewrite List.Forall_forall in Hx. now apply Hx.
Qed.

Lemma later_trans x y z :
  YearFiles.later x y = true -> YearFiles.later y z = true ->
  YearFiles.later x z = true.
Proof. unfold YearFiles.later. intros H1 H2. exact (str_lt_trans _ _ _ H2 H1). Qed.

Lemma later_asym x y :
  YearFiles.later x y = true -> YearFiles.later y x = false.
Proof. unfold YearFiles.later. apply str_lt_asym. Qed.

Lemma sort_threads_returns l l' :
  YearFiles.sort_threads l = Returns l' ->
  l' = YearFiles.sort_by YearFiles.later l
  /\ (2 <= length l -> existsb YearFiles.no_key l = false).
Proof.
  unfold YearFiles.sort_threads.
  destruct (Nat.leb_spec 2 (length l)) as [Hlen|Hlen]; simpl.
  - destruct (existsb YearFiles.no_key l); [discriminate|].
    intros [= <-]. now split.
  - intros [= <-]. split; [reflexivity | lia].
Qed.

Lemma save_year_fields y info f :
  YearFiles.save_year (y, info) = Returns f ->
  YearFiles.yf_year f = y
  /\ YearFiles.yf_stats f = Years.year_stats info
  /\ YearFiles.sort_threads (Years.threads info)
     = Returns (YearFiles.yf_threads f).
Proof.
  unfold YearFiles.save_year. simpl.
  destruct (YearFiles.sort_threads (Years.threads info)); simpl;
    [|discriminate].
  intros [= <-]. now repeat split.
Qed.

Lemma save_year_raises g e : YearFiles.save_year g = Raises e -> e = TypeError.
Proof.
  unfold YearFiles.save_year, YearFiles.sort_threads.
  destruct (_ && _); simpl; [|discriminate]. now intros [= <-].
Qed.

Lemma saved_years l files :
  for_each YearFiles.save_year l = Returns files ->
  map YearFiles.yf_year files = map fst l.
Proof.
  intros H. apply for_each_Forall2 in H.
  induction H as [|[y info] f l files Hf Hl IH]; [reflexivity|].
  simpl. apply save_year_fields in Hf as (-> & _). now rewrite IH.
Qed.

Lemma visit_keys_NoDup cat st t :
  NoDup (Dict.keys (Years.yearly_data st)) ->
  NoDup (Dict.keys (Years.yearly_data (Years.visit cat st t))).
Proof.
  intros H. unfold Years.visit. case_bool_decide; [exact H|].
  simpl. now apply dict_set_NoDup.
Qed.

Lemma organize_keys_NoDup topics :
  NoDup (Dict.keys (Years.yearly_data (Years.organize_by_year topics))).
Proof.
  unfold Years.organize_by_year. rewrite organize_as_one_loop.
  assert (H : NoDup (Dict.keys (Years.yearly_data Years.start)))
    by constructor.
  revert H. generalize Years.start.
  induction (Years.occurrences topics) as [|[cat t] l IH]; intros st H;
    simpl; [exact H|].
  apply IH. now apply visit_keys_NoDup.
Qed.

(** X24. A year with two threads or more, one of which has a null first
    date, or no first date and a first message whose date is null, makes the
    script raise [TypeError] when it sorts the threads of the years. *)
Theorem null_first_date_breaks_the_sort
        (topics : Dict.t str (list Years.thread)) (y : str)
        (info : Years.year_info) (c : Years.thread_copy) :
  In (y, info) (Years.yearly_data (Years.organize_by_year topics)) ->
  2 <= length (Years.threads info) ->
  In c (Years.threads info) ->
  YearFiles.sort_key c = None ->
  YearFiles.run topics = Raises TypeError.
Proof.
  intros Hin Hlen Hc Hkey. unfold YearFiles.run, YearFiles.save.
  apply (for_each_raises _ _ (y, info)).
  - apply (Permutation_in _ (Permutation_sym (sort_by_perm _ _))). exact Hin.
  - exists TypeError. unfold YearFiles.save_year, YearFiles.sort_threads.
    cbn [snd]. apply Nat.leb_le in Hlen. rewrite Hlen.
    assert (Hex : existsb YearFiles.no_key (Years.threads info) = true).
    { apply existsb_exists. exists c. split; [exact Hc|].
      unfold YearFiles.no_key. now rewrite Hkey. }
    now rewrite Hex.
  - apply save_year_raises.
Qed.

Lemma null_first_date_breaks_the_sort_witness :
  YearFiles.run undated_topics = Raises TypeError.
Proof.
  apply (null_first_date_breaks_the_sort undated_topics $"unknown"
           unknown_year
           {| Years.copied := undated_named $"sparse: fix cast";
              Years.primary_category := $"general" |}).
  - vm_compute. left. reflexivity.
  - vm_compute. lia.
  - vm_compute. left. reflexivity.
  - reflexivity.
Defined.

(** X25. When the script returns, it has written one file for each year,
    in the ascending order of the years. The file of a year holds the
    statistics of the year and its threads, sorted by their key, the
    greatest first; and in a year of two threads or more every thread had
    a key. *)
Theorem year_files_are_sorted
        (topics : Dict.t str (list Years.thread))
        (files : list YearFiles.year_file) :
  YearFiles.run topics = Returns files ->
  let yd := Years.yearly_data (Years.organize_by_year topics) in
  Permutation (map YearFiles.yf_year files) (Dict.keys yd)
  /\ NoDup (map YearFiles.yf_year files)
  /\ StronglySorted (fun a b => YearFiles.str_lt b a = false)
                    (map YearFiles.yf_year files)
  /\ Forall (fun f =>
               exists info,
                 Dict.get (YearFiles.yf_year f) yd = Some info
                 /\ YearFiles.yf_stats f = Years.year_stats info
                 /\ Permutation (YearFiles.yf_threads f) (Years.threads info)
                 /\ StronglySorted (fun x y => YearFiles.later y x = false)
                                   (YearFiles.yf_threads f)
                 /\ Years.total_threads (YearFiles.yf_stats f)
                    = length (YearFiles.yf_threads f)
                 /\ (2 <= length (Years.threads info) ->
                     Forall (fun c => YearFiles.sort_key c <> None)
                            (Years.threads info)))
            files.
Proof.
  intros Hret yd. unfold YearFiles.run, YearFiles.save in Hret.
  set (by_year := fun x y : str * Years.year_info =>
                    YearFiles.str_lt (fst x) (fst y)) in *.
  fold yd in Hret.
  pose proof (sort_by_perm by_year yd) as Hperm.
  pose proof (saved_years _ _ Hret) as Hyears.
  assert (Hnd : NoDup (Dict.keys yd)) by apply organize_keys_NoDup.
  split.
  { rewrite Hyears. now apply Permutation_map. }
  split.
  { rewrite Hyears. unfold Dict.keys in Hnd.
    now rewrite (Permutation_map fst Hperm). }
  split.
  { rewrite Hyears. apply sorted_map.
    apply (sort_by_sorted by_year).
    - intros x y z. unfold by_year. apply str_lt_trans.
    - intros x y. unfold by_year. apply str_lt_asym. }
  apply List.Forall_forall. intros f Hf.
  destruct (Forall2_In_r _ _ _ _ (for_each_Forall2 _ _ _ Hret) Hf)
    as ([y info] & Hin & Hsave).
  apply save_year_fields in Hsave as (Hy & Hstats & Hsort).
  apply (Permutation_in _ Hperm) in Hin.
  apply sort_threads_returns in Hsort as [Hsorted Hkeys].
  exists info. rewrite Hy.
  split; [now apply dict_In_get|]. split; [exact Hstats|].
  split; [rewrite Hsorted; apply sort_by_perm|].
  split.
  { rewrite Hsorted.
    apply (sort_by_sorted YearFiles.later later_trans later_asym). }
  split.
  { rewrite Hstats, Hsorted, (Permutation_length (sort_by_perm _ _)).
    now destruct (organize_tallied topics y info Hin) as [(Ht & _) _]. }
  intros Hlen. specialize (Hkeys Hlen).
  apply List.Forall_forall. intros c Hc Hnone.
  assert (Hex : existsb YearFiles.no_key (Years.threads info) = true).
  { apply existsb_exists. exists c. split; [exact Hc|].
    unfold YearFiles.no_key. now rewrite Hnone. }
  congruence.
Qed.

Lemma year_files_are_sorted_witness :
  map YearFiles.yf_year sample_year_files = [ $"1999"; $"2010"; $"unknown" ]
  /\ NoDup (map YearFiles.yf_year sample_year_files).
Proof.
  split; [reflexivity|].
  apply (year_files_are_sorted topics_sample sample_year_files).
  vm_compute. reflexivity.
Defined.

(** ** The author of a record *)

Lemma span_stop f p c r :
  forallb f p = true -> f c = false -> Str.span f (p ++ c :: r) = (p, c :: r).
Proof.
  intros Hp Hc. induction p as [|a p IH]; simpl.
  - now rewrite Hc.
  - simpl in Hp. apply andb_prop in Hp as [Ha Hp]. now rewrite Ha, IH.
Qed.

Lemma span_all f p : forallb f p = true -> Str.span f p = (p, []).
Proof.
  induction p as [|a p IH]; simpl; [reflexivity|].
  intros Hp. apply andb_prop in Hp as [Ha Hp]. now rewrite Ha, IH.
Qed.

Lemma forallb_skipn {A} (f : A -> bool) n l :
  forallb f l = true -> forallb f (skipn n l) = true.
Proof.
  revert l. induction n as [|n IH]; intros [|a l]; simpl; try tauto.
  intros H. apply andb_prop in H as [_ H]. now apply IH.
Qed.

Lemma has_match_avoiding (m : Re.matcher) (f : ascii -> bool) s :
  (forall t, forallb f t = true -> m t = None) ->
  forallb f s = true -> has_match m s = false.
Proof.
  intros Hm. induction s as [|c s IH]; intros Hs; simpl.
  - now rewrite (Hm [] eq_refl).
  - rewrite (Hm _ Hs). simpl in Hs. apply andb_prop in Hs as [_ Hs].
    now apply IH.
Qed.

Lemma paren_comment_needs_paren b t :
  forallb (fun c => negb (Ascii.eqb c "(")) t = true ->
  Re.paren_comment b t = None.
Proof.
  intros Ht. unfold Re.paren_comment.
  pose proof (forallb_skipn _ (Str.ws_run t) _ Ht) as Hs.
  destruct (skipn (Str.ws_run t) t) as [|c r]; [reflexivity|].
  simpl in Hs. apply andb_prop in Hs as [Hc _].
  destruct (Ascii.eqb_spec c "(") as [->|Hne]; [discriminate|].
  destruct c as [[] [] [] [] [] [] [] []]; try reflexivity.
  now contradiction Hne.
Qed.

Lemma encoded_word_needs_equals t :
  forallb (fun c => negb (Ascii.eqb c "=")) t = true ->
  Re.encoded_word t = None.
Proof.
  destruct t as [|c r]; [reflexivity|]. simpl forallb. intros Hs.
  apply andb_prop in Hs as [Hc _].
  destruct (Ascii.eqb_spec c "=") as [->|Hne]; [discriminate|].
  unfold Re.encoded_word.
  destruct c as [[] [] [] [] [] [] [] []]; try reflexivity.
  now contradiction Hne.
Qed.

Lemma forallb_weaken {A} (f g : A -> bool) l :
  (forall x, f x = true -> g x = true) ->
  forallb f l = true -> forallb g l = true.
Proof.
  intros H. induction l as [|a l IH]; simpl; [reflexivity|].
  intros Hl. apply andb_prop in Hl as [Ha Hl]. now rewrite (H a Ha), IH.
Qed.

Lemma plain_spec avoid s :
  plain avoid s = true ->
  head_space s = false /\ ends_in_space s = false
  /\ forallb (fun c => negb (existsb (Ascii.eqb c) avoid)) s = true
  /\ s <> [].
Proof.
  unfold plain. intros H.
  apply andb_prop in H as [H Hlen]. apply andb_prop in H as [H Hall].
  apply andb_prop in H as [Hh He].
  apply negb_true_iff in Hh, He. repeat split; try assumption.
  intros ->. discriminate.
Qed.

Lemma avoids_mark avoid c s :
  In c avoid ->
  forallb (fun a => negb (existsb (Ascii.eqb a) avoid)) s = true ->
  forallb (fun a => negb (Ascii.eqb a c)) s = true.
Proof.
  intros Hc. apply forallb_weaken. intros a Ha.
  apply negb_true_iff in Ha. apply negb_true_iff.
  destruct (Ascii.eqb_spec a c) as [->|]; [|reflexivity].
  rewrite <- Ha. symmetry. apply existsb_exists. exists c.
  split; [exact Hc | apply Ascii.eqb_refl].
Qed.

Lemma strip_plain s :
  head_space s = false -> ends_in_space s = false -> Str.strip s = s.
Proof.
  intros Hh He. unfold Str.strip. rewrite (lstrip_id _ Hh).
  now apply rstrip_id.
Qed.

Lemma strip_trailing_space s :
  s <> [] -> head_space s = false -> ends_in_space s = false ->
  Str.strip (s ++ $" ") = s.
Proof.
  intros Hne Hh He. unfold Str.strip.
  rewrite lstrip_id by (destruct s; [congruence | exact Hh]).
  unfold Str.rstrip. rewrite rev_app_distr. simpl rev. simpl app.
  rewrite lstrip_cons_space by reflexivity.
  unfold ends_in_space in He. rewrite (lstrip_id _ He).
  apply rev_involutive.
Qed.

Lemma clean_name_plain name :
  plain NAME_MARKS name = true ->
  Re.sub Re.encoded_word (Str.strip (Re.sub (Re.paren_comment false) name))
  = name.
Proof.
  intros Hp. apply plain_spec in Hp as (Hh & He & Hall & Hne).
  rewrite (sub_no_match (Re.paren_comment false)).
  - rewrite (strip_plain _ Hh He). apply sub_no_match.
    apply (has_match_avoiding _ (fun c => negb (Ascii.eqb c "="))).
    + apply encoded_word_needs_equals.
    + apply (avoids_mark NAME_MARKS); [|exact Hall]. simpl. tauto.
  - apply (has_match_avoiding _ (fun c => negb (Ascii.eqb c "("))).
    + apply paren_comment_needs_paren.
    + apply (avoids_mark NAME_MARKS); [|exact Hall]. simpl. tauto.
Qed.

Lemma keeps_name name :
  plain NAME_MARKS name = true ->
  forall fallback : str,
    match name with
    | [] | "<"%char :: _ => fallback
    | _ => name
    end = name.
Proof.
  intros Hp fallback. apply plain_spec in Hp as (_ & _ & Hall & Hne).
  destruct name as [|c name]; [congruence|].
  pose proof (avoids_mark NAME_MARKS "<" _ (or_intror (or_introl eq_refl)) Hall)
    as Hlt.
  simpl in Hlt. apply andb_prop in Hlt as [Hc _].
  destruct (Ascii.eqb_spec c "<") as [->|Hc']; [discriminate|].
  destruct c as [[] [] [] [] [] [] [] []]; try reflexivity.
  now contradiction Hc'.
Qed.

Lemma skip_quote (l : str) :
  (forall r, l <> "034"%char :: r) ->
  match l with
  | "034"%char :: r => r
  | _ => l
  end = l.
Proof.
  destruct l as [|c r]; [reflexivity|]. intros H.
  destruct c as [[] [] [] [] [] [] [] []]; try reflexivity.
  now contradiction (H r).
Qed.

Lemma author_here_plain name addr :
  plain NAME_MARKS name = true -> plain $">" addr = true ->
  Re.author_here (name ++ $" <" ++ addr ++ $">") = Some (name ++ $" ", addr).
Proof.
  intros Hn Ha.
  apply plain_spec in Hn as (_ & _ & Hall & Hne).
  apply plain_spec in Ha as (_ & _ & Hall' & Hne').
  pose proof (avoids_mark NAME_MARKS "034" _ (or_introl eq_refl) Hall) as Hq.
  pose proof (avoids_mark NAME_MARKS "<" _ (or_intror (or_introl eq_refl)) Hall)
    as Hlt.
  pose proof (avoids_mark $">" ">" _ (or_introl eq_refl) Hall') as Hgt.
  destruct name as [|c name]; [congruence|].
  destruct addr as [|d addr]; [congruence|].
  unfold Re.author_here.
  change ((c :: name) ++ $" <" ++ (d :: addr) ++ $">")
    with (c :: (name ++ $" <" ++ (d :: addr) ++ $">")).
  rewrite skip_quote
    by (intros r [= -> _]; discriminate Hq).
  replace (c :: name ++ $" <" ++ (d :: addr) ++ $">")
    with (((c :: name) ++ $" ") ++ "<"%char :: ((d :: addr) ++ $">"))
    by (simpl; now rewrite <- app_assoc).
  rewrite span_stop.
  - cbn [app].
    change (d :: addr ++ $">") with ((d :: addr) ++ ">"%char :: []).
    rewrite span_stop; [reflexivity | exact Hgt | reflexivity].
  - rewrite forallb_app. apply andb_true_intro. split; [|reflexivity].
    clear - Hq Hlt. induction (c :: name) as [|a l IH]; [reflexivity|].
    simpl in *. apply andb_prop in Hq as [Hq1 Hq2].
    apply andb_prop in Hlt as [Hl1 Hl2].
    apply negb_true_iff in Hq1, Hl1. rewrite Hq1, Hl1. simpl. now apply IH.
  - reflexivity.
Qed.

Lemma search_author_here s g :
  Re.author_here s = Some g -> Re.search_author s = Some g.
Proof. intros H. destruct s; cbn [Re.search_author]; now rewrite H. Qed.

Lemma author_here_none s :
  forallb (fun c => negb (Ascii.eqb c "034" || Ascii.eqb c "<")) s = true ->
  Re.author_here s = None.
Proof.
  intros Hs. unfold Re.author_here. rewrite skip_quote.
  - rewrite (span_all _ _ Hs). now destruct s.
  - intros r ->. discriminate Hs.
Qed.

Lemma search_author_none s :
  forallb (fun c => negb (Ascii.eqb c "034" || Ascii.eqb c "<")) s = true ->
  Re.search_author s = None.
Proof.
  induction s as [|c s IH]; intros Hs.
  - reflexivity.
  - cbn [Re.search_author]. rewrite (author_here_none _ Hs).
    simpl in Hs. apply andb_prop in Hs as [_ Hs]. now apply IH.
Qed.

Lemma startswith_app p b : Str.startswith p (p ++ b) = true.
Proof.
  induction p as [|a p IH]; simpl; [now destruct b|].
  now rewrite Ascii.eqb_refl, IH.
Qed.

Lemma contains_middle p a b : Str.contains p (a ++ p ++ b) = true.
Proof.
  induction a as [|c a IH]; simpl.
  - destruct (p ++ b) eqn:E; simpl; rewrite <- E, startswith_app; reflexivity.
  - rewrite IH. apply orb_true_r.
Qed.

Lemma avoids_two avoid s :
  In "034"%char avoid -> In "<"%char avoid ->
  forallb (fun a => negb (existsb (Ascii.eqb a) avoid)) s = true ->
  forallb (fun c => negb (Ascii.eqb c "034" || Ascii.eqb c "<")) s = true.
Proof.
  intros Hq Hl Hs.
  pose proof (avoids_mark avoid _ _ Hq Hs) as H1.
  pose proof (avoids_mark avoid _ _ Hl Hs) as H2.
  clear Hs. induction s as [|a s IH]; [reflexivity|]. simpl in *.
  apply andb_prop in H1 as [Ha1 H1]. apply andb_prop in H2 as [Ha2 H2].
  apply negb_true_iff in Ha1, Ha2. rewrite Ha1, Ha2. simpl. now apply IH.
Qed.

Lemma plain_weaken avoid avoid' s :
  incl avoid avoid' -> plain avoid' s = true -> plain avoid s = true.
Proof.
  intros Hincl Hp. apply plain_spec in Hp as (Hh & He & Hall & Hne).
  unfold plain. rewrite Hh, He. simpl.
  apply andb_true_intro. split.
  - revert Hall. apply forallb_weaken. intros c Hc.
    apply negb_true_iff in Hc. apply negb_true_iff.
    destruct (existsb (Ascii.eqb c) avoid) eqn:E; [|reflexivity].
    rewrite <- Hc. symmetry. apply existsb_exists.
    apply existsb_exists in E as (x & Hx & Hcx). exists x.
    split; [now apply Hincl | exact Hcx].
  - destruct s; [congruence | reflexivity].
Qed.

(** X27. A [From] header made of a plain name, a space and an address in
    angle brackets gives this name and this address: plain meaning not
    empty, without whitespace at either end, the name without quote, angle
    bracket, parenthesis or equals sign, the address without closing
    angle bracket. The record of a file with this header and a subject has
    them as author. *)
Theorem plain_header_gives_name_and_address (name addr : str) :
  plain NAME_MARKS name = true ->
  plain $">" addr = true ->
  extract_author (name ++ $" <" ++ addr ++ $">") = (name, addr)
  /\ forall strptime raw,
       raw_from raw = name ++ $" <" ++ addr ++ $">" ->
       Str.is_blank (raw_subject raw) = false ->
       exists m, parse_mbox_file strptime raw = Some m
                 /\ author_name m = name /\ author_email m = addr.
Proof.
  intros Hn Ha.
  assert (H : extract_author (name ++ $" <" ++ addr ++ $">") = (name, addr)).
  { unfold extract_author.
    rewrite (search_author_here _ _ (author_here_plain name addr Hn Ha)).
    pose proof (plain_spec _ _ Hn) as (Hh & He & _ & Hne).
    pose proof (plain_spec _ _ Ha) as (Hh' & He' & _ & _).
    rewrite (strip_trailing_space _ Hne Hh He), (strip_plain _ Hh' He').
    cbv beta iota zeta.
    rewrite (clean_name_plain _ Hn). now rewrite (keeps_name _ Hn). }
  split; [exact H|]. intros strptime raw Hfrom Hsubj.
  unfold parse_mbox_file. rewrite Hsubj, Hfrom, H.
  eexists. split; [reflexivity|]. now split.
Qed.

Lemma plain_header_gives_name_and_address_witness :
  extract_author $"Luc Van Oostenryck <luc@example.org>"
  = ($"Luc Van Oostenryck", $"luc@example.org").
Proof.
  apply (plain_header_gives_name_and_address
           $"Luc Van Oostenryck" $"luc@example.org"); reflexivity.
Defined.

(** X28. A [From] header that is a bare address, a plain local part, an at
    sign and a domain, without quote or angle bracket, gives the local part
    as the name and the whole header as the address. *)
Theorem bare_address_gives_local_part (local domain : str) :
  plain (NAME_MARKS ++ $"@") local = true ->
  forallb (fun c => negb (Ascii.eqb c "034" || Ascii.eqb c "<")) domain = true ->
  extract_author (local ++ $"@" ++ domain) = (local, local ++ $"@" ++ domain).
Proof.
  intros Hl Hd.
  assert (Hn : plain NAME_MARKS local = true).
  { apply (plain_weaken _ _ _ (incl_appl _ (incl_refl _)) Hl). }
  pose proof (plain_spec _ _ Hl) as (_ & _ & Hall & _).
  unfold extract_author. rewrite search_author_none.
  - rewrite contains_middle. unfold Str.before.
    change (local ++ $"@" ++ domain) with (local ++ "@"%char :: domain).
    rewrite span_stop; [| |reflexivity].
    + cbn [fst]. cbv beta iota zeta.
      rewrite (clean_name_plain _ Hn). now rewrite (keeps_name _ Hn).
    + apply (avoids_mark (NAME_MARKS ++ $"@")); [|exact Hall]. simpl. tauto.
  - rewrite !forallb_app. rewrite Hd.
    rewrite (avoids_two (NAME_MARKS ++ $"@") local); try exact Hall;
      simpl; tauto.
Qed.

Lemma bare_address_gives_local_part_witness :
  extract_author $"luc@example.org" = ($"luc", $"luc@example.org").
Proof.
  apply (bare_address_gives_local_part $"luc" $"example.org"); reflexivity.
Defined.

(** ** The summary of the analyzer *)

Lemma pair_lt_irrefl a : Summary.pair_lt a a = false.
Proof.
  unfold Summary.pair_lt. rewrite bool_decide_eq_true_2 by reflexivity.
  apply str_lt_irrefl.
Qed.

Lemma pair_lt_trans a b c :
  Summary.pair_lt a b = true -> Summary.pair_lt b c = true ->
  Summary.pair_lt a c = true.
Proof.
  unfold Summary.pair_lt.
  destruct a as [a1 a2], b as [b1 b2], c as [c1 c2]. simpl.
  intros Hab Hbc.
  destruct (decide (a1 = b1)) as [E1|E1], (decide (b1 = c1)) as [E2|E2],
           (decide (a1 = c1)) as [E3|E3];
    rewrite ?(bool_decide_eq_true_2 _ E1), ?(bool_decide_eq_false_2 _ E1)
      in Hab;
    rewrite ?(bool_decide_eq_true_2 _ E2), ?(bool_decide_eq_false_2 _ E2)
      in Hbc;
    rewrite ?(bool_decide_eq_true_2 _ E3), ?(bool_decide_eq_false_2 _ E3);
    subst; try congruence.
  - exact (str_lt_trans _ _ _ Hab Hbc).
  - pose proof (str_lt_asym _ _ Hab). congruence.
  - exact (str_lt_trans _ _ _ Hab Hbc).
Qed.

Section Extreme.
Context {A : Type} (lt : A -> A -> bool).
Hypothesis lt_irrefl : forall x, lt x x = false.
Hypothesis lt_trans :
  forall x y z, lt x y = true -> lt y z = true -> lt x z = true.

Lemma least_fold ps p seen :
  (forall s, In s seen -> lt s p = false) ->
  In (fold_left (fun cur x => if lt x cur then x else cur) ps p) (p :: ps)
  /\ forall s, In s (seen ++ p :: ps) ->
               lt s (fold_left (fun cur x => if lt x cur then x else cur) ps p)
               = false.
Proof.
  revert p seen. induction ps as [|x ps IH]; intros p seen Hseen.
  - simpl. split; [now left|]. intros s Hs.
    apply in_app_or in Hs as [Hs|[<-|[]]]; [now apply Hseen | apply lt_irrefl].
  - cbn [fold_left]. destruct (lt x p) eqn:Hxp.
    + destruct (IH x (seen ++ [p])) as [Hin Hall].
      { intros s Hs. destruct (lt s x) eqn:Hsx; [|reflexivity].
        apply in_app_or in Hs as [Hs|[<-|[]]].
        - rewrite <- (Hseen s Hs). symmetry. exact (lt_trans _ _ _ Hsx Hxp).
        - rewrite <- (lt_irrefl p). symmetry. exact (lt_trans _ _ _ Hsx Hxp). }
      split; [now right|]. intros s Hs. apply Hall.
      rewrite <- app_assoc. exact Hs.
    + destruct (IH p (seen ++ [x])) as [Hin Hall].
      { intros s Hs. apply in_app_or in Hs as [Hs|[<-|[]]];
          [now apply Hseen | exact Hxp]. }
      split.
      * destruct Hin as [Hin|Hin]; [now left | right; now right].
      * intros s Hs. apply Hall. rewrite !in_app_iff in *. simpl in *. tauto.
Qed.

End Extreme.

Lemma min_of_spec l :
  match Summary.min_of l with
  | Returns r =>
      In r l /\ Forall (fun p => Summary.pair_lt p r = false) l
  | Raises e => l = [] /\ e = ValueError
  end.
Proof.
  destruct l as [|p ps]; simpl; [now split|].
  destruct (least_fold Summary.pair_lt pair_lt_irrefl pair_lt_trans ps p [])
    as [Hin Hall]; [intros s []|].
  split; [exact Hin|]. apply List.Forall_forall. exact Hall.
Qed.

Lemma max_of_spec l :
  match Summary.max_of l with
  | Returns r =>
      In r l /\ Forall (fun p => Summary.pair_lt r p = false) l
  | Raises e => l = [] /\ e = ValueError
  end.
Proof.
  destruct l as [|p ps]; simpl; [now split|].
  destruct (least_fold (fun x y => Summary.pair_lt y x) pair_lt_irrefl
              (fun x y z H1 H2 => pair_lt_trans z y x H2 H1) ps p [])
    as [Hin Hall]; [intros s []|].
  split; [exact Hin|]. apply List.Forall_forall. exact Hall.
Qed.

Lemma periods_nil a :
  Summary.periods a = []
  <-> Forall (fun e => Analyze.year e = []) (Analyze.emails a).
Proof.
  unfold Summary.periods.
  induction (Analyze.emails a) as [|e es IH]; simpl.
  - split; [constructor | reflexivity].
  - destruct (Analyze.year e) eqn:Hy; simpl.
    + rewrite IH. split; [now constructor | now inversion 1].
    + split; [discriminate | inversion 1; congruence].
Qed.

Lemma for_each_raised {A B} (f : A -> outcome B) l e :
  for_each f l = Raises e -> exists x, In x l /\ f x = Raises e.
Proof.
  induction l as [|a l IH]; simpl; [discriminate|].
  destruct (f a) as [b|e'] eqn:Hfa; simpl.
  - destruct (for_each f l) as [bs|e'']; simpl; [discriminate|].
    intros [= <-]. destruct (IH eq_refl) as (x & Hx & Hfx).
    exists x. split; [now right | exact Hfx].
  - intros [= <-]. exists a. split; [now left | exact Hfa].
Qed.

Lemma get_key_threads_raises a e :
  Report.get_key_threads a = Raises e -> e = TypeError.
Proof.
  unfold Report.get_key_threads. intros H.
  apply for_each_raised in H as (g & _ & Hg).
  exact (describe_raises g e Hg).
Qed.

(** X29. [generate_summary] raises [ValueError] exactly when no record has
    a year, as when there is no record at all, for want of a date range; it
    raises [TypeError] exactly when some record has a year and the key
    threads raise it; it raises nothing else. *)
Theorem summary_needs_a_period (a : Analyze.EmailAnalyzer) :
  (Summary.generate_summary a = Raises ValueError
   <-> Forall (fun e => Analyze.year e = []) (Analyze.emails a))
  /\ (Summary.generate_summary a = Raises TypeError
      <-> ~ Forall (fun e => Analyze.year e = []) (Analyze.emails a)
          /\ Report.get_key_threads a = Raises TypeError)
  /\ (Analyze.emails a = [] ->
      Summary.generate_summary a = Raises ValueError)
  /\ forall e, Summary.generate_summary a = Raises e ->
               e = ValueError \/ e = TypeError.
Proof.
  rewrite <- periods_nil. unfold Summary.generate_summary.
  assert (Hemp : Analyze.emails a = [] -> Summary.periods a = []).
  { unfold Summary.periods. now intros ->. }
  destruct (Summary.periods a) as [|p ps] eqn:Hp; simpl.
  - split; [tauto|]. split; [|now split; [|intros e [= <-]; left]].
    split; [discriminate | intros [H _]; now contradiction H].
  - destruct (Report.get_key_threads a) as [kts|e] eqn:Hk; simpl.
    + split; [split; discriminate|]. split; [split; [|intros [_ H]]; discriminate|].
      split; [intros H; now apply Hemp in H | discriminate].
    + apply get_key_threads_raises in Hk as ->.
      split; [split; discriminate|].
      split; [split; [intros _; split; [discriminate | reflexivity] | reflexivity]|].
      split; [intros H; now apply Hemp in H | intros e [= <-]; now right].
Qed.

(** X30. When [generate_summary] returns, the start and the end of its date
    range are the year and month of records that have a year, no such
    record comes before the start or after the end, the years of its yearly
    statistics are those counted, in ascending order, and its key threads
    are those [get_key_threads] gives. *)
Theorem summary_brackets_the_periods
        (a : Analyze.EmailAnalyzer) (s : Summary.summary) :
  Summary.generate_summary a = Returns s ->
  In (fst (Summary.date_range s)) (Summary.periods a)
  /\ In (snd (Summary.date_range s)) (Summary.periods a)
  /\ Forall (fun p =>
               Summary.pair_lt p (fst (Summary.date_range s)) = false
               /\ Summary.pair_lt (snd (Summary.date_range s)) p = false)
            (Summary.periods a)
  /\ Summary.total_emails s = length (Analyze.emails a)
  /\ Permutation (map fst (Summary.yearly_stats s))
                 (Dict.keys (Analyze.yearly_stats a))
  /\ StronglySorted (fun x y => YearFiles.str_lt y x = false)
                    (map fst (Summary.yearly_stats s))
  /\ Report.get_key_threads a = Returns (Summary.key_threads s).
Proof.
  unfold Summary.generate_summary.
  pose proof (min_of_spec (Summary.periods a)) as Hmin.
  pose proof (max_of_spec (Summary.periods a)) as Hmax.
  destruct (Summary.min_of (Summary.periods a)) as [start|]; simpl;
    [|discriminate].
  destruct (Summary.max_of (Summary.periods a)) as [last|]; simpl;
    [|discriminate].
  destruct (Report.get_key_threads a) as [kts|]; simpl; [|discriminate].
  intros [= <-]. simpl.
  destruct Hmin as [Hin1 Hall1]. destruct Hmax as [Hin2 Hall2].
  split; [exact Hin1|]. split; [exact Hin2|]. split.
  { rewrite List.Forall_forall in *. intros p Hp. split; auto. }
  split; [reflexivity|].
  set (by_year := fun x y : str * Analyze.yearly =>
                    YearFiles.str_lt (fst x) (fst y)).
  assert (Hmap : map fst
            (map (fun '(y, d) =>
                    (y, (Analyze.count d, size (Analyze.year_authors d))))
                 (YearFiles.sort_by by_year (Analyze.yearly_stats a)))
          = map fst (YearFiles.sort_by by_year (Analyze.yearly_stats a))).
  { rewrite map_map. apply map_ext. now intros [y d]. }
  rewrite Hmap. split.
  { apply Permutation_map, sort_by_perm. }
  split; [|reflexivity].
  apply sorted_map. apply (sort_by_sorted by_year).
  - intros x y z. unfold by_year. apply str_lt_trans.
  - intros x y. unfold by_year. apply str_lt_asym.
Qed.

Lemma summary_brackets_the_periods_witness :
  Summary.date_range sample_summary_value
  = (($"2010", $"03"), ($"2010", $"03"))
  /\ In (fst (Summary.date_range sample_summary_value))
        (Summary.periods (Analyze.analyze sample_analyzer)).
Proof.
  split; [reflexivity|].
  apply (summary_brackets_the_periods (Analyze.analyze sample_analyzer)
                                      sample_summary_value).
  vm_compute. reflexivity.
Defined.

(** ** Threads under their topics *)

Lemma categorize_message_labels msg c :
  In c (categorize_message msg) ->
  c = $"general" \/ In c (Dict.keys TOPIC_CATEGORIES).
Proof.
  unfold categorize_message.
  destruct (matching_categories (category_text msg)) as [|c0 l] eqn:Hm.
  - intros [<-|[]]. now left.
  - rewrite <- Hm. intros Hin. right. unfold matching_categories in Hin.
    apply in_map_iff in Hin as (x & <- & Hx). apply filter_In in Hx as [Hx _].
    unfold Dict.keys. now apply in_map.
Qed.

Lemma sorted_within {A} (R R' : A -> A -> Prop) l :
  StronglySorted R l ->
  (forall x y, In x l -> In y l -> R x y -> R' x y) ->
  StronglySorted R' l.
Proof.
  induction 1 as [|x l Hl IH Hx]; intros Himp; constructor.
  - apply IH. intros a b Ha Hb. apply Himp; now right.
  - apply List.Forall_forall. intros y Hy.
    rewrite List.Forall_forall in Hx.
    apply Himp; [now left | now right | now apply Hx].
Qed.

Lemma sort_by_date_returns {A} reverse (key : A -> datetime) l l' :
  sort_by_date reverse key l = Returns l' ->
  Permutation l' l
  /\ StronglySorted
       (fun x y => if reverse then (instant (key y) <= instant (key x))%Z
                   else (instant (key x) <= instant (key y))%Z) l'.
Proof.
  unfold sort_by_date. destruct (mixed_kinds (map key l)); [discriminate|].
  intros [= <-]. split; [apply sort_by_perm|].
  eapply sorted_within.
  - apply sort_by_sorted.
    + intros x y z. destruct reverse; intros H1 H2;
        apply Z.ltb_lt in H1, H2; apply Z.ltb_lt; lia.
    + intros x y. destruct reverse; intros H1;
        apply Z.ltb_lt in H1; apply Z.ltb_ge; lia.
  - intros x y _ _. unfold YearFiles.in_order.
    destruct reverse; intros H; apply Z.ltb_ge in H; exact H.
Qed.

Lemma keyed_threads l keyed :
  for_each (fun t => k ← topic_key t; Returns (t, k)) l = Returns keyed ->
  map fst keyed = l
  /\ Forall (fun p => topic_key (fst p) = Returns (snd p)) keyed.
Proof.
  intros H. apply for_each_Forall2 in H.
  induction H as [|t p l keyed Hp _ [IH1 IH2]]; [now split|].
  destruct (topic_key t) as [k|] eqn:Hk; simpl in Hp; [|discriminate].
  injection Hp as <-. simpl. split; [now rewrite IH1|].
  constructor; [exact Hk | exact IH2].
Qed.

Lemma sort_topic_returns l l' :
  sort_topic l = Returns l' ->
  Permutation l' l /\ StronglySorted not_earlier l'.
Proof.
  unfold sort_topic.
  destruct (for_each _ l) as [keyed|] eqn:Hkeyed; simpl; [|discriminate].
  apply keyed_threads in Hkeyed as [Hfst Hkeys].
  destruct (sort_by_date true snd keyed) as [sorted|] eqn:Hsort; simpl;
    [|discriminate].
  intros [= <-]. apply sort_by_date_returns in Hsort as [Hperm Hsorted].
  split; [rewrite <- Hfst; now apply Permutation_map|].
  apply sorted_map. eapply sorted_within; [exact Hsorted|].
  intros x y Hx Hy Hle. rewrite List.Forall_forall in Hkeys.
  exists (snd x), (snd y). repeat split; [| |exact Hle]; apply Hkeys.
  - exact (Permutation_in _ Hperm Hx).
  - exact (Permutation_in _ Hperm Hy).
Qed.

Lemma sort_topic_raises l e : sort_topic l = Raises e -> e = TypeError.
Proof.
  unfold sort_topic.
  destruct (for_each _ l) as [keyed|e'] eqn:Hkeyed; simpl.
  - unfold sort_by_date. destruct (mixed_kinds _); simpl; [|discriminate].
    now intros [= <-].
  - intros [= <-]. apply for_each_raised in Hkeyed as (t & _ & Ht).
    unfold topic_key, get_first_date in Ht.
    destruct (dates t) as [|d ds]; simpl in Ht; [discriminate|].
    destruct (min_from id d ds) eqn:Hm; simpl in Ht; [discriminate|].
    injection Ht as <-. exact (min_from_raises _ _ _ _ Hm).
Qed.

Lemma organized_topic ts topics cat l :
  organize_by_topic ts = Returns topics ->
  (topics !! cat = Some l
   <-> cat ∈ topic_names ts /\ sort_topic (topic_threads ts cat) = Returns l).
Proof.
  unfold organize_by_topic.
  destruct (for_each _ (elements (topic_names ts))) as [sorted|] eqn:Hs;
    simpl; [|discriminate].
  intros [= <-]. apply for_each_Forall2 in Hs.
  assert (Hfst : sorted.*1 = elements (topic_names ts)).
  { induction Hs as [|c p cs ps Hp _ IH]; [reflexivity|].
    destruct (sort_topic (topic_threads ts c)); simpl in Hp; [|discriminate].
    injection Hp as <-. rewrite fmap_cons. cbn [fst]. f_equal. exact IH. }
  rewrite <- elem_of_list_to_map
    by (rewrite Hfst; apply NoDup_elements).
  rewrite <- (elem_of_elements (topic_names ts)).
  rewrite !list_elem_of_In. clear Hfst. split.
  - intros Hin. destruct (Forall2_In_r _ _ _ _ Hs Hin) as (c & Hc & Hp).
    destruct (sort_topic (topic_threads ts c)) as [l0|] eqn:Hl0; simpl in Hp;
      [|discriminate].
    injection Hp as -> ->. now split.
  - intros [Hin Hsort]. destruct (Forall2_In_l _ _ _ _ Hs Hin) as (p & Hp & Hc).
    rewrite Hsort in Hc. simpl in Hc. injection Hc as <-. exact Hp.
Qed.

Lemma topic_names_spec ts cat :
  cat ∈ topic_names ts <-> topic_threads ts cat <> [].
Proof.
  unfold topic_names, topic_threads. rewrite elem_of_union_list. split.
  - intros (X & HX & Hcat).
    apply list_elem_of_In, in_map_iff in HX as (t & <- & Ht).
    apply filter_In in Ht as [Ht Hlen].
    assert (Hin : In t (List.filter
                          (fun t => negb (length (messages t) <? 1)
                                    && bool_decide (cat ∈ categories t))
                          (Dict.values ts))).
    { apply filter_In. split; [exact Ht|]. rewrite Hlen. simpl.
      now apply bool_decide_eq_true_2. }
    intros E. rewrite E in Hin. destruct Hin.
  - intros Hne.
    destruct (List.filter _ (Dict.values ts)) as [|t l] eqn:Hf; [congruence|].
    assert (Hin : In t (t :: l)) by now left.
    rewrite <- Hf in Hin. apply filter_In in Hin as [Ht Hc].
    apply andb_prop in Hc as [Hlen Hc]. apply bool_decide_eq_true_1 in Hc.
    exists (categories t). split; [|exact Hc].
    apply list_elem_of_In, in_map. apply filter_In. now split.
Qed.

Lemma load_keys_NoDup records :
  NoDup (Dict.keys (threads (load_and_process_emails records))).
Proof.
  induction records as [|r records IH] using rev_ind; [constructor|].
  rewrite load_snoc, process_message_threads. unfold process_threads.
  destruct (retained r); [|exact IH]. now apply dict_set_NoDup.
Qed.

(** X26. When [organize_by_topic] returns, every thread of the dictionary
    is under a topic: in the list of each of its categories and in no
    other, and it has at least one. A topic is a category of the table or
    the fallback "general", and its list holds the threads the loop put in
    it, sorted by their first date, the latest first, a thread without date
    counting as the earliest. *)
Theorem every_thread_is_under_a_topic
        (records : list Msg) (k : str) (t : EmailThread)
        (topics : gmap str (list EmailThread)) :
  let ts := threads (load_and_process_emails records) in
  organize_by_topic ts = Returns topics ->
  Dict.get k ts = Some t ->
  (forall cat, (exists l, topics !! cat = Some l /\ In t l)
               <-> cat ∈ categories t)
  /\ (exists cat l, topics !! cat = Some l /\ In t l)
  /\ (forall cat l,
        topics !! cat = Some l ->
        (cat = $"general" \/ In cat (Dict.keys TOPIC_CATEGORIES))
        /\ Permutation l (topic_threads ts cat)
        /\ StronglySorted
             (fun a b => exists ka kb,
                           topic_key a = Returns ka /\ topic_key b = Returns kb
                           /\ (instant kb <= instant ka)%Z)
             l).
Proof.
  intros ts Horg Hget.
  destruct (loaded_thread_summarizes _ _ _ Hget)
    as (m & ms & Hm & _ & _ & _ & Hc).
  assert (Hin : In t (Dict.values ts)).
  { apply dict_get_In in Hget. unfold Dict.values.
    apply in_map_iff. now exists (k, t). }
  assert (Hthreads : forall cat,
             In t (topic_threads ts cat) <-> cat ∈ categories t).
  { intros cat. unfold topic_threads. rewrite filter_In, Hm. simpl.
    rewrite bool_decide_eq_true. tauto. }
  assert (Hall : forall l, sort_topic l <> Raises TypeError ->
                           exists l', sort_topic l = Returns l').
  { intros l Hl. destruct (sort_topic l) as [l'|e] eqn:E; [eauto|].
    apply sort_topic_raises in E as ->. now contradiction Hl. }
  assert (Hiff : forall cat,
             (exists l, topics !! cat = Some l /\ In t l)
             <-> cat ∈ categories t).
  { intros cat. split.
    - intros (l & Hl & Htl).
      apply (organized_topic _ _ _ _ Horg) in Hl as [_ Hl].
      apply sort_topic_returns in Hl as [Hperm _].
      apply Hthreads. exact (Permutation_in _ Hperm Htl).
    - intros Hcat. apply Hthreads in Hcat.
      assert (Hname : cat ∈ topic_names ts).
      { apply topic_names_spec. intros E. rewrite E in Hcat. destruct Hcat. }
      destruct (topics !! cat) as [l|] eqn:Hl.
      + exists l. split; [reflexivity|].
        apply (organized_topic _ _ _ _ Horg) in Hl as [_ Hl].
        apply sort_topic_returns in Hl as [Hperm _].
        exact (Permutation_in _ (Permutation_sym Hperm) Hcat).
      + exfalso. destruct (sort_topic (topic_threads ts cat)) as [l|e] eqn:E.
        * assert (Hsome : topics !! cat = Some l)
            by now apply (organized_topic _ _ _ _ Horg).
          congruence.
        * unfold organize_by_topic in Horg.
          destruct (for_each _ (elements (topic_names ts))) as [sorted|] eqn:Hs;
            simpl in Horg; [|discriminate].
          apply for_each_Forall2 in Hs.
          assert (Hel : In cat (elements (topic_names ts)))
            by now apply list_elem_of_In, elem_of_elements.
          destruct (Forall2_In_l _ _ _ _ Hs Hel) as (p & _ & Hp).
          rewrite E in Hp. discriminate. }
  split; [exact Hiff|]. split.
  - destruct (categorize_message m) as [|c l] eqn:Hcm;
      [now apply categorize_message_nonempty in Hcm|].
    assert (Hcat : c ∈ categories t).
    { rewrite Hc. apply elem_of_list_to_set, list_elem_of_In. simpl.
      rewrite Hcm. now left. }
    apply Hiff in Hcat as (l0 & Hl0 & Ht). now exists c, l0.
  - intros cat l Hl.
    apply (organized_topic _ _ _ _ Horg) in Hl as [Hname Hl].
    apply sort_topic_returns in Hl as [Hperm Hsorted].
    split; [|now split].
    apply topic_names_spec in Hname.
    destruct (topic_threads ts cat) as [|t' l'] eqn:Hf; [congruence|].
    assert (Ht' : In t' (topic_threads ts cat)) by (rewrite Hf; now left).
    unfold topic_threads in Ht'. apply filter_In in Ht' as [Ht' Hcond].
    apply andb_prop in Hcond as [_ Hcat]. apply bool_decide_eq_true_1 in Hcat.
    unfold Dict.values in Ht'. apply in_map_iff in Ht' as ([k' t''] & Heq & Hk').
    simpl in Heq. subst t''.
    apply (dict_In_get _ _ _ (load_keys_NoDup records)) in Hk'.
    destruct (loaded_thread_summarizes _ _ _ Hk')
      as (m' & ms' & _ & _ & _ & _ & Hc').
    rewrite Hc' in Hcat.
    apply elem_of_list_to_set, list_elem_of_In, in_flat_map in Hcat
      as (x & _ & Hx).
    exact (categorize_message_labels x cat Hx).
Qed.

Lemma every_thread_is_under_a_topic_witness :
  exists cat l, review_topics !! cat = Some l /\ In review_loaded l.
Proof.
  apply (every_thread_is_under_a_topic review_thread
           (thread_key (subject review_1)) review_loaded review_topics).
  - vm_compute. reflexivity.
  - vm_compute. reflexivity.
Defined.

(** An aware first date beside a thread without dates in one topic. *)
Example topics_of_aware_and_undated :
  organize_by_topic
    [ ($"a", update_categories (thread_of (dated review_1 (Some aware_date))
                                          review_2) [ $"general" ]);
      ($"b", update_categories (thread_of review_1 review_2) [ $"general" ]) ]
  = Raises TypeError.
Proof. vm_compute. reflexivity. Qed.

(** ** What a decision quotes *)

Lemma message_rationale_quotes m sn :
  In sn (message_rationale m) ->
  snippet_author sn = author_name m
  /\ (Str.lower (author_name m) = $"linus torvalds"
      \/ Str.lower (author_name m) = $"luc van oostenryck")
  /\ exists sent,
       In sent (Re.split Re.sentence_end (Str.upto 1500 (body m)))
       /\ snippet_text sn = Str.strip sent
       /\ 50 < length sent < 300
       /\ existsb (fun word => Str.contains word (Str.lower sent))
                  REASON_WORDS = true.
Proof.
  unfold message_rationale.
  destruct (bool_decide _ || bool_decide _) eqn:Hauth; [|intros []].
  intros Hin. apply in_map_iff in Hin as (sent & <- & Hsent).
  apply filter_In in Hsent as [Hsent Hcond].
  apply andb_prop in Hcond as [Hcond Hword].
  apply andb_prop in Hcond as [H50 H300].
  apply Nat.ltb_lt in H50, H300.
  split; [reflexivity|]. split.
  - apply orb_prop in Hauth as [H|H]; apply bool_decide_eq_true_1 in H; auto.
  - exists sent. repeat split; auto.
Qed.

Lemma min_from_returns {A} (key : A -> datetime) cur l r :
  min_from key cur l = Returns r ->
  In r (cur :: l)
  /\ Forall (fun x => (instant (key r) <= instant (key x))%Z) (cur :: l).
Proof.
  intros Hr.
  destruct (List.Exists_dec (fun x => ~ same_kind (key cur) (key x)) l)
    as [Hex|Hnex].
  { intros x. destruct (same_kind_dec (key cur) (key x)); [right|left]; tauto. }
  - rewrite (min_from_mixed key cur l Hex) in Hr. discriminate.
  - apply Forall_Exists_neg in Hnex.
    assert (Hall : Forall (fun x => same_kind (key cur) (key x)) l).
    { eapply List.Forall_impl; [|exact Hnex]. intros x Hx.
      destruct (same_kind_dec (key cur) (key x)); [assumption|contradiction]. }
    destruct (min_from_same_kind key cur l Hall) as (r' & Hr' & Hin & Hmin).
    rewrite Hr in Hr'. injection Hr' as <-. now split.
Qed.

(** X10. At most 50 decisions are returned, one for each of the 50 largest
    significant threads, in their order. A decision quotes the first three
    snippets of its thread, fewer if there are fewer: each is a sentence of
    the first 1500 characters of the body of a message of the thread written
    by one of the two maintainers, a sentence of 51 to 299 characters that
    holds one of the words looked for, stripped. Its first message body is
    the first 1000 characters of the body of a message of the thread that no
    message precedes in date, a message without date counting as the
    latest. *)
Theorem decisions_are_capped
        (ts : Dict.t str EmailThread) (ds : list decision) :
  extract_key_decisions ts = Returns ds ->
  length ds
  = Nat.min 50 (length (List.filter is_significant (Dict.values ts)))
  /\ Forall2 (fun t d =>
                d_subject d = thread_subject t
                /\ length (d_rationale d) <= 3
                /\ d_rationale d
                   = firstn 3 (flat_map message_rationale (messages t))
                /\ length (d_first_message_body d) <= 1000
                /\ (exists first,
                      In first (messages t)
                      /\ Forall (fun x =>
                                   (instant (default DT.max (date first))
                                    <= instant (default DT.max (date x)))%Z)
                                (messages t)
                      /\ d_first_message_body d = Str.upto 1000 (body first))
                /\ Forall (fun sn =>
                             exists m sent,
                               In m (messages t)
                               /\ snippet_author sn = author_name m
                               /\ (Str.lower (author_name m) = $"linus torvalds"
                                   \/ Str.lower (author_name m)
                                      = $"luc van oostenryck")
                               /\ In sent (Re.split Re.sentence_end
                                             (Str.upto 1500 (body m)))
                               /\ snippet_text sn = Str.strip sent
                               /\ 50 < length sent < 300
                               /\ existsb
                                    (fun word =>
                                       Str.contains word (Str.lower sent))
                                    [ $"because"; $"reason"; $"problem";
                                      $"issue"; $"should"; $"must"; $"need" ]
                                  = true)
                          (d_rationale d))
             (firstn 50 (significant_threads ts)) ds.
Proof.
  intros Hds. unfold extract_key_decisions in Hds. split.
  - rewrite (for_each_length _ _ _ Hds), length_firstn.
    unfold significant_threads.
    now rewrite (Permutation_length (sort_desc_perm _ _)).
  - apply for_each_Forall2 in Hds.
    eapply Forall2_impl; [exact Hds|]. clear. intros t d Hd.
    unfold decide_thread in Hd.
    destruct (messages t) as [|m0 ms] eqn:Hmsgs; [discriminate|].
    destruct (min_from (fun m => default DT.max (date m)) m0 ms) as [fm|] eqn:Hfm;
      simpl in Hd; [|discriminate].
    destruct (get_first_date t) as [fd|]; simpl in Hd; [|discriminate].
    injection Hd as <-.
    cbn [d_subject d_rationale d_first_message_body]. split; [reflexivity|].
    split; [apply firstn_le_length|]. split; [reflexivity|].
    split; [apply (firstn_le_length 1000)|].
    split.
    { apply min_from_returns in Hfm as [Hin Hmin].
      exists fm. split; [exact Hin|]. split; [exact Hmin | reflexivity]. }
    apply List.Forall_forall. intros sn Hsn. apply firstn_In in Hsn.
    change (In sn (flat_map message_rationale (m0 :: ms))) in Hsn.
    apply in_flat_map in Hsn as (m & Hm & Hsn).
    apply message_rationale_quotes in Hsn
      as (Ha & Hl & sent & Hsent & Ht & Hlen & Hword).
    exists m, sent. repeat split; auto; apply Hlen.
Qed.

Lemma decisions_are_capped_witness :
  length review_decisions
  = Nat.min 50 (length (List.filter is_significant (Dict.values review_threads))).
Proof.
  apply (decisions_are_capped review_threads review_decisions).
  vm_compute. reflexivity.
Defined.
